(** * regelum/environment/node.py : State, Inputs, Node, Graph, Clock

    A shallow embedding of the node module of regelum and the properties
    of its specification.  Python objects are embedded as values of
    inductive types, methods as functions, [raise] and failing [assert]
    as the [Raise] outcome of a small exception monad, and attribute
    assignment as explicit state passing. *)

From Stdlib Require Import List String Ascii ZArith Bool Arith Lia.
From Stdlib Require Import Permutation Relations Sorted Floats.
Import ListNotations.

#[local] Set Warnings "-inexact-float".

Local Open Scope string_scope.
Local Open Scope list_scope.
Local Open Scope nat_scope.

(** ** Python runtime: exceptions and outcomes *)

(** One constructor per [raise]/[assert] site of the module, together
    with the data its message is formatted from, and the built-in
    errors raised by the interpreter itself. *)
Inductive exn : Type :=
| TypeError_hierarchical (name : string)
    (* "The _value of a hierarchical State '...' must be a list of State instances." *)
| TypeError_not_iterable           (* for ... in <None or a number> *)
| TypeError_reduce_empty           (* reduce() of empty sequence *)
| AttributeError                   (* method looked up on a non-State element *)
| KeyError_value                   (* state.value["value"] on a hierarchical state *)
| KeyError_input (key : string)    (* "Input '...' not found in paths_to_states" *)
| KeyError_key (key : string)      (* d[key] with the key absent *)
| IndexError
| ValueError_round_nan             (* round(nan) *)
| OverflowError                    (* round(inf), float(<too large an int>) *)
| ValueError_missing_paths (missing : list string)
    (* "Could not resolve all input paths. Missing: ..." *)
| ValueError_collect_unresolved    (* "Resolve inputs before collecting" *)
| ValueError_access_unresolved     (* "Resolve inputs before accessing them" *)
| ValueError_no_state              (* "State must be fully specified." *)
| AssertionError_inputs_not_leaf   (* "All inputs must be leaf states." *)
| AssertionError_root_undefined (name : string)
| AssertionError_duplicates        (* "Duplicate node states detected" *)
| AssertionError_unresolved (n_times_elapsed : nat) (unplaced : list string).
    (* "Graph cannot be resolved. Nodes not resolved after ... are: ..." *)

(** The Python class of an exception. *)
Inductive exn_class : Type :=
  TypeError | AttributeErrorC | KeyError | IndexErrorC | ValueError | OverflowErrorC
  | AssertionError.

Definition class_of (e : exn) : exn_class :=
  match e with
  | TypeError_hierarchical _ | TypeError_not_iterable | TypeError_reduce_empty => TypeError
  | AttributeError => AttributeErrorC
  | KeyError_value | KeyError_input _ | KeyError_key _ => KeyError
  | IndexError => IndexErrorC
  | OverflowError => OverflowErrorC
  | ValueError_round_nan | ValueError_missing_paths _ | ValueError_collect_unresolved
  | ValueError_access_unresolved | ValueError_no_state => ValueError
  | AssertionError_inputs_not_leaf | AssertionError_root_undefined _
  | AssertionError_duplicates | AssertionError_unresolved _ _ => AssertionError
  end.

Inductive res (A : Type) : Type :=
| Ret (a : A)
| Raise (e : exn).
Arguments Ret {A} a.
Arguments Raise {A} e.

Definition bind {A B : Type} (m : res A) (k : A -> res B) : res B :=
  match m with
  | Ret a => k a
  | Raise e => Raise e
  end.

Notation "x <- m ;; k" := (bind m (fun x => k))
  (at level 61, m at next level, right associativity).

Definition raises {A : Type} (m : res A) : Prop := exists e, m = Raise e.

(** ** Insertion-ordered dictionaries with string keys

    A Python [dict] keeps its keys in order of first insertion; storing
    under a key that is already present replaces the value in place. *)
Section Dict.
Context {V : Type}.

Definition dict : Type := list (string * V).

Fixpoint dict_set (d : dict) (k : string) (v : V) : dict :=
  match d with
  | [] => [(k, v)]
  | (k', v') :: r =>
      if String.eqb k k' then (k', v) :: r else (k', v') :: dict_set r k v
  end.

Fixpoint dict_get (d : dict) (k : string) : option V :=
  match d with
  | [] => None
  | (k', v') :: r => if String.eqb k k' then Some v' else dict_get r k
  end.

Definition keys (d : dict) : list string := map fst d.

(** [{key x: val x for x in xs}] *)
Definition dict_of {X : Type} (key : X -> string) (val : X -> V) (xs : list X) : dict :=
  fold_left (fun d x => dict_set d (key x) (val x)) xs [].
End Dict.
Arguments dict V : clear implicits.

(** [x in l] for a list of strings, and [set(l)] as the list of the
    distinct elements of [l]. *)
Definition str_in (x : string) (l : list string) : bool := existsb (String.eqb x) l.

Fixpoint set_of (l : list string) : list string :=
  match l with
  | [] => []
  | x :: r => if str_in x r then set_of r else x :: set_of r
  end.

(** ** State *)

(** The symbolic placeholder [cs.MX.sym(name, *dims)]: opaque but for
    the name and shape it was built from. *)
Record Sym : Type := MX_sym { sym_name : string; sym_shape : list Z }.

(** What a value slot can hold: [None], a number, a Python list, a
    [State], or a container that is not a list.  A number is a scalar:
    it is opaque to this module but for its equality, and it cannot be
    iterated.  [VTuple items] is a tuple; it also stands for the other
    containers a [for] loop runs through without their being lists (a
    string, a dict, an array), by the items the loop gets from them:
    the empty string is [VTuple []], and the characters of a string,
    the keys of a dict and the entries of an array are items that are
    not states.  A [State] has the four dataclass fields, the attribute
    [symbolic_value] that [to_casadi_symbolic] adds on first use, and
    the identity [oid] of the object, which no method reads. *)
#[warnings="-register-all"]
Inductive pyval : Type :=
| VNone : pyval
| VNum : Z -> pyval
| VList : list pyval -> pyval
| VState : State -> pyval
| VTuple : list pyval -> pyval
with State : Type :=
| mkState (oid : nat) (name : string) (dims : option (list Z))
          (_value : pyval) (is_leaf : bool) (symbolic_value : option Sym).

Definition oid (s : State) : nat := let (i, _, _, _, _, _) := s in i.
Definition name (s : State) : string := let (_, n, _, _, _, _) := s in n.
Definition dims (s : State) : option (list Z) := let (_, _, d, _, _, _) := s in d.
Definition _value (s : State) : pyval := let (_, _, _, v, _, _) := s in v.
Definition is_leaf (s : State) : bool := let (_, _, _, _, b, _) := s in b.
Definition symbolic_value (s : State) : option Sym := let (_, _, _, _, _, y) := s in y.

Definition isinstance_list (v : pyval) : bool :=
  match v with VList _ => true | _ => false end.
Definition isinstance_State (v : pyval) : bool :=
  match v with VState _ => true | _ => false end.
Definition is_None (v : pyval) : bool :=
  match v with VNone => true | _ => false end.

(** [len(v)] and [all(isinstance(s, State) for s in v)]; both are only
    evaluated behind [isinstance(v, list)]. *)
Definition py_len (v : pyval) : nat :=
  match v with VList l => List.length l | _ => 0 end.
Definition all_State (v : pyval) : bool :=
  match v with VList l => forallb isinstance_State l | _ => false end.

(** [State(name, dims, _value)]: the generated [__init__] stores the
    three fields and calls [__post_init__].  [oid] is the identity of
    the new object. *)
Definition State_init (oid : nat) (name : string) (dims : option (list Z))
           (_value : pyval) : res State :=
  let is_leaf :=
    if isinstance_list _value && (0 <? py_len _value) && all_State _value
    then false else true in
  if negb is_leaf && negb (all_State _value)
  then Raise (TypeError_hierarchical name)
  else Ret (mkState oid name dims _value is_leaf None).

(** The [value] setter. *)
Definition set_value (s : State) (new_value : pyval) : State :=
  match s with
  | mkState i n d _ lf y => mkState i n d new_value lf y
  end.

(** [to_casadi_symbolic]: returns the placeholder and the object with
    the placeholder cached. *)
Definition truthy_dims (d : option (list Z)) : bool :=
  match d with Some (_ :: _) => true | _ => false end.

Definition to_casadi_symbolic (s : State) : Sym * State :=
  match symbolic_value s with
  | Some y => (y, s)
  | None =>
      let y := if truthy_dims (dims s)
               then MX_sym (name s) (match dims s with Some d => d | None => [] end)
               else MX_sym (name s) [] in
      match s with
      | mkState i n d v lf _ => (y, mkState i n d v lf (Some y))
      end
  end.


(** *** Paths *)

(** [path.split("/")]. *)
Definition slash : ascii := "/"%char.

Fixpoint split_slash (s : string) : list string :=
  match s with
  | EmptyString => [EmptyString]
  | String c r =>
      if Ascii.eqb c slash then EmptyString :: split_slash r
      else match split_slash r with
           | h :: t => String c h :: t
           | [] => [String c EmptyString]
           end
  end.

(** Truth value of a [str]. *)
Definition str_truthy (s : string) : bool := negb (String.eqb s "").

(** [[state for state in path.split("/") if state]] *)
Definition path_parts (path : string) : list string :=
  filter str_truthy (split_slash path).

(** ["/".join(parts)] *)
Fixpoint join_slash (parts : list string) : string :=
  match parts with
  | [] => ""
  | [x] => x
  | x :: r => (x ++ "/" ++ join_slash r)%string
  end.

(** [for substate in v] on a value that has no items to give: a
    [State] is iterated through its [__getitem__], which fails on the
    integer key in [path.split]; [None] and a number are not iterable.
    (A list and a tuple yield their items, and the loops below run
    through them.) *)
Definition iter_error (v : pyval) : exn :=
  match v with
  | VState _ => AttributeError
  | _ => TypeError_not_iterable
  end.

(** [search_by_path]: [Ret None] is Python's [None], also when the
    loop over the substates ends without a match. *)
Fixpoint search_by_path (s : State) (path : string) {struct s} : res (option State) :=
  match s with
  | mkState _ n _ v lf _ =>
      match path_parts path with
      | [] => Ret None
      | p0 :: rest =>
          if String.eqb p0 n then
            if List.length (p0 :: rest) =? 1 then Ret (Some s)
            else if lf then Ret None
            else
              match v with
              | VList l | VTuple l =>
                  (fix each (l : list pyval) : res (option State) :=
                     match l with
                     | [] => Ret None
                     | VState substate :: l' =>
                         result <- search_by_path substate (join_slash rest) ;;
                         match result with
                         | Some r => Ret (Some r)
                         | None => each l'
                         end
                     | _ :: _ => Raise AttributeError
                     end) l
              | _ => Raise (iter_error v)
              end
          else Ret None
      end
  end.

(** [_collect_paths(prefix, paths)]: returns the list [paths] after
    the appends. *)
Fixpoint _collect_paths (s : State) (prefix : string) (paths : list string)
  {struct s} : res (list string) :=
  match s with
  | mkState _ n _ v lf _ =>
      let current_path := if str_truthy prefix then (prefix ++ "/" ++ n)%string else n in
      if lf then Ret (paths ++ [current_path])
      else
        match v with
        | VList l | VTuple l =>
            (fix each (l : list pyval) (paths : list string) : res (list string) :=
               match l with
               | [] => Ret paths
               | VState substate :: l' =>
                   paths' <- _collect_paths substate current_path paths ;;
                   each l' paths'
               | _ :: _ => Raise AttributeError
               end) l paths
        | _ => Raise (iter_error v)
        end
  end.

Definition paths (s : State) : res (list string) := _collect_paths s "" [].

(** [_collect_states(states)] and [get_all_states()]. *)
Fixpoint _collect_states (s : State) (states : list State) {struct s} : res (list State) :=
  match s with
  | mkState _ _ _ v lf _ =>
      if lf then Ret (states ++ [s])
      else
        match v with
        | VList l | VTuple l =>
            (fix each (l : list pyval) (states : list State) : res (list State) :=
               match l with
               | [] => Ret states
               | VState substate :: l' =>
                   states' <- _collect_states substate states ;;
                   each l' states'
               | _ :: _ => Raise AttributeError
               end) l states
        | _ => Raise (iter_error v)
        end
  end.

Definition get_all_states (s : State) : res (list State) := _collect_states s [].

(** [is_defined] *)
Definition is_defined (s : State) : res bool :=
  states <- get_all_states s ;;
  Ret (forallb (fun state => negb (is_None (_value state))) states).

(** *** Reading the value *)

(** The dictionary returned by the [value] property: with the keys
    [name], [dims], [value] for a leaf, and [name], [dims], [states]
    for a hierarchical state. *)
Inductive leaf_value : Type :=
| Concrete (v : pyval)
| Symbolic (y : Sym).

#[warnings="-register-all"]
Inductive descr : Type :=
| Leaf_descr (name : string) (dims : option (list Z)) (value : leaf_value)
| Tree_descr (name : string) (dims : option (list Z)) (states : list descr).

(** [d["value"]] *)
Definition descr_value (d : descr) : res leaf_value :=
  match d with
  | Leaf_descr _ _ v => Ret v
  | Tree_descr _ _ _ => Raise KeyError_value
  end.

(** The [value] property.  [symbolic] is the process-wide flag
    [_SYMBOLIC_INFERENCE_ACTIVE.value].  Reading in symbolic mode
    caches placeholders, so the object is returned with the outcome. *)
Fixpoint value (symbolic : bool) (s : State) {struct s} : res descr * State :=
  match s with
  | mkState i n d v lf y =>
      if lf then
        if symbolic
        then let (val, s') := to_casadi_symbolic s in (Ret (Leaf_descr n d (Symbolic val)), s')
        else (Ret (Leaf_descr n d (Concrete v)), s)
      else
        match v with
        | VList l =>
            let (r, l') :=
              (fix each (l : list pyval) : res (list descr) * list pyval :=
                 match l with
                 | [] => (Ret [], [])
                 | VState substate :: l' =>
                     let (r, substate') := value symbolic substate in
                     match r with
                     | Ret x =>
                         let (rs, l'') := each l' in
                         (xs <- rs ;; Ret (x :: xs), VState substate' :: l'')
                     | Raise e => (Raise e, VState substate' :: l')
                     end
                 | x :: l' => (Raise AttributeError, x :: l')
                 end) l in
            (states <- r ;; Ret (Tree_descr n d states), mkState i n d (VList l') lf y)
        | VTuple l =>
            let (r, l') :=
              (fix each (l : list pyval) : res (list descr) * list pyval :=
                 match l with
                 | [] => (Ret [], [])
                 | VState substate :: l' =>
                     let (r, substate') := value symbolic substate in
                     match r with
                     | Ret x =>
                         let (rs, l'') := each l' in
                         (xs <- rs ;; Ret (x :: xs), VState substate' :: l'')
                     | Raise e => (Raise e, VState substate' :: l')
                     end
                 | x :: l' => (Raise AttributeError, x :: l')
                 end) l in
            (states <- r ;; Ret (Tree_descr n d states), mkState i n d (VTuple l') lf y)
        | _ => (Raise (iter_error v), s)
        end
  end.

(** *** Equality

    [State] is a dataclass: [==] compares the tuples of the fields
    [name], [dims], [_value], [is_leaf] (not the identity, and not the
    attribute [symbolic_value]).  Lists are equal to lists and tuples
    to tuples, item by item. *)
Definition dims_eqb (a b : option (list Z)) : bool :=
  match a, b with
  | None, None => true
  | Some x, Some y => if list_eq_dec Z.eq_dec x y then true else false
  | _, _ => false
  end.

Fixpoint pyval_eqb (a b : pyval) {struct a} : bool :=
  match a, b with
  | VNone, VNone => true
  | VNum x, VNum y => Z.eqb x y
  | VList l, VList m =>
      (fix each (l m : list pyval) : bool :=
         match l, m with
         | [], [] => true
         | x :: l', y :: m' => pyval_eqb x y && each l' m'
         | _, _ => false
         end) l m
  | VState s, VState t => State_eqb s t
  | VTuple l, VTuple m =>
      (fix each (l m : list pyval) : bool :=
         match l, m with
         | [], [] => true
         | x :: l', y :: m' => pyval_eqb x y && each l' m'
         | _, _ => false
         end) l m
  | _, _ => false
  end
with State_eqb (s t : State) {struct s} : bool :=
  match s, t with
  | mkState _ n d v lf _, mkState _ n' d' v' lf' _ =>
      String.eqb n n' && dims_eqb d d' && pyval_eqb v v' && Bool.eqb lf lf'
  end.

(** [x in l] for a list of states. *)
Definition state_in (x : State) (l : list State) : bool :=
  existsb (fun e => State_eqb e x) l.

(** ** Inputs *)

Module Inputs.

Record t : Type := mk {
  paths_to_states : list string;
  states : list State;
  _resolved : bool
}.

(** [Inputs(paths_to_states)] *)
Definition init (paths_to_states : list string) : t := mk paths_to_states [] false.

(** The inner loop of [resolve]: the first state of the catalog in
    which [path] is found. *)
Fixpoint first_found (catalog : list State) (path : string) : res (option State) :=
  match catalog with
  | [] => Ret None
  | state :: rest =>
      found_state <- search_by_path state path ;;
      match found_state with
      | Some f => Ret (Some f)
      | None => first_found rest path
      end
  end.

(** The outer loop: [found_states]. *)
Fixpoint find_states (paths : list string) (catalog : list State) (found_states : list State)
  : res (list State) :=
  match paths with
  | [] => Ret found_states
  | path :: rest =>
      f <- first_found catalog path ;;
      find_states rest catalog
        (match f with Some x => found_states ++ [x] | None => found_states end)
  end.

(** [resolve(states)]: the object after the call, or the exception (the
    object is then unchanged). *)
Definition resolve (self : t) (catalog : list State) : res t :=
  found_states <- find_states (paths_to_states self) catalog [] ;;
  if List.length (paths_to_states self) =? List.length found_states then
    if forallb is_leaf found_states
    then Ret (mk (paths_to_states self) found_states true)
    else Raise AssertionError_inputs_not_leaf
  else
    let missing_paths :=
      filter (fun p => negb (str_in p (map name found_states)))
             (set_of (paths_to_states self)) in
    Raise (ValueError_missing_paths missing_paths).

(** The dict comprehension of [collect]; reading a value may cache a
    placeholder in the state read. *)
Fixpoint collect_states (symbolic : bool) (sts : list State) (acc : dict leaf_value)
  : res (dict leaf_value) * list State :=
  match sts with
  | [] => (Ret acc, [])
  | state :: rest =>
      let (r, state') := value symbolic state in
      match (d <- r ;; descr_value d) with
      | Ret v =>
          let (out, rest') := collect_states symbolic rest (dict_set acc (name state) v) in
          (out, state' :: rest')
      | Raise e => (Raise e, state' :: rest)
      end
  end.

(** [collect()] *)
Definition collect (symbolic : bool) (self : t) : res (dict leaf_value) * t :=
  if 0 <? List.length (paths_to_states self) then
    if negb (_resolved self) then (Raise ValueError_collect_unresolved, self)
    else
      let (out, states') := collect_states symbolic (states self) [] in
      (out, mk (paths_to_states self) states' (_resolved self))
  else (Ret [], self).

(** [list.index] *)
Fixpoint index (key : string) (l : list string) : option nat :=
  match l with
  | [] => None
  | x :: r => if String.eqb x key then Some 0
              else match index key r with Some i => Some (S i) | None => None end
  end.

(** [__getitem__(key)] *)
Definition getitem (self : t) (key : string) : res State :=
  if negb (_resolved self) then Raise ValueError_access_unresolved
  else
    match index key (paths_to_states self) with
    | None => Raise (KeyError_input key)
    | Some i =>
        match nth_error (states self) i with
        | Some s => Ret s
        | None => Raise IndexError
        end
    end.

End Inputs.

(** ** Node *)

(** Modelled from the spec: the class [Transistor] (the "stepper") is
    imported from a module that is not part of this file.  Of its
    contract only the attributes read here are kept: [step_size], the
    tick duration, and [time_final], the optional finite horizon. *)
Record Transistor : Type := mkTransistor {
  step_size : float;
  time_final : option float
}.

Module Node.

(** The attributes [Node.__init__] sets. *)
Record t : Type := mk {
  inputs : Inputs.t;
  state : State;
  is_root : bool;
  transistor : option Transistor
}.

(** [Node.__init__(inputs, state, is_root)].  [attr_inputs] and
    [attr_state] are the attributes [inputs] and [state] the instance
    already has when [__init__] runs (a class-level template, or set by
    the subclass before calling [super().__init__]), which [hasattr]
    tests.  The argument [inputs] is a list of paths or an [Inputs]. *)
Definition init (attr_inputs : option Inputs.t) (attr_state : option State)
           (inputs : option (list string + Inputs.t)) (state : option State)
           (is_root : bool) : res t :=
  let self_inputs :=
    match attr_inputs with
    | Some i => i
    | None =>
        match inputs with
        | Some (inl paths) => Inputs.init paths
        | Some (inr i) => i
        | None => Inputs.init []
        end
    end in
  self_state <-
    match attr_state with
    | Some s => Ret s
    | None =>
        match state with
        | Some s => Ret s
        | None => Raise ValueError_no_state
        end
    end ;;
  defined <- (if is_root then is_defined self_state else Ret true) ;;
  if defined
  then Ret (mk self_inputs self_state is_root None)
  else Raise (AssertionError_root_undefined (name self_state)).

(** [with_transistor(transistor, **transistor_kwargs)]; [built] is
    the object the call [transistor(node=self, ...)] returns. *)
Definition with_transistor (self : t) (built : Transistor) : t :=
  mk (inputs self) (state self) (is_root self) (Some built).

End Node.

(** ** Graph *)

Module Info.
(** The values of [node_state_inputs_map]: dictionaries with the keys
    [state], [inputs], [is_root]. *)
Record t : Type := mk {
  state : State;
  inputs : list State;
  is_root : bool
}.
End Info.

Module Graph.

Definition node_state_inputs_map (nodes : list Node.t) : dict Info.t :=
  dict_of (fun node => name (Node.state node))
          (fun node => Info.mk (Node.state node)
                               (Inputs.states (Node.inputs node))
                               (Node.is_root node))
          nodes.

(** [[node_state_inputs_map[n]["state"] for n in ordered_node_names]] *)
Fixpoint ordered_states (m : dict Info.t) (ordered_node_names : list string)
  : res (list State) :=
  match ordered_node_names with
  | [] => Ret []
  | n :: rest =>
      match dict_get m n with
      | None => Raise (KeyError_key n)
      | Some info =>
          sts <- ordered_states m rest ;;
          Ret (Info.state info :: sts)
      end
  end.

(** The body of the [for] loop over [node_state_inputs_map.items()]. *)
Definition scan (m : dict Info.t) (ordered_node_names : list string)
           (item : string * Info.t) : res (list string) :=
  let (node_name, node_info) := item in
  ordered_nodes_states <- ordered_states m ordered_node_names ;;
  if negb (str_in node_name ordered_node_names) then
    if forallb (fun input_name => state_in input_name ordered_nodes_states)
               (Info.inputs node_info)
       || Info.is_root node_info
    then Ret (ordered_node_names ++ [node_name])
    else Ret ordered_node_names
  else Ret ordered_node_names.

(** The [for] loop over the items still to be scanned. *)
Fixpoint scan_items (m : dict Info.t) (items : list (string * Info.t))
         (ordered_node_names : list string) : res (list string) :=
  match items with
  | [] => Ret ordered_node_names
  | item :: rest =>
      ordered' <- scan m ordered_node_names item ;;
      scan_items m rest ordered'
  end.

(** One scanning round. *)
Definition round (m : dict Info.t) (ordered_node_names : list string) : res (list string) :=
  scan_items m m ordered_node_names.

(** [node_state_inputs_map.keys() - set(ordered_node_names)] *)
Definition unplaced (m : dict Info.t) (ordered_node_names : list string) : list string :=
  filter (fun k => negb (str_in k ordered_node_names)) (keys m).

(** The [while] loop.  Every iteration first asserts
    [n_times_elapsed < n_times_max] and ends with
    [n_times_elapsed += 1], so the loop is a recursion on
    [budget = n_times_max - n_times_elapsed].  Returns the names in
    order and the number of rounds run. *)
Fixpoint while_loop (m : dict Info.t) (budget n_times_elapsed : nat)
         (ordered_node_names : list string) : res (list string * nat) :=
  if List.length ordered_node_names <? List.length m then
    match budget with
    | 0 => Raise (AssertionError_unresolved n_times_elapsed (unplaced m ordered_node_names))
    | S budget' =>
        ordered' <- round m ordered_node_names ;;
        while_loop m budget' (S n_times_elapsed) ordered'
    end
  else Ret (ordered_node_names, n_times_elapsed).

(** Lines 250-281: the map, the assertion on its keys, the loop. *)
Definition order_names (nodes : list Node.t) : res (list string * nat) :=
  let m := node_state_inputs_map nodes in
  if List.length (set_of (keys m)) =? List.length m then
    let n_times_max := List.length m in
    while_loop m n_times_max 0 []
  else Raise AssertionError_duplicates.

(** [[node for node in nodes if node.state.name == node_name][0]] *)
Definition node_named (nodes : list Node.t) (node_name : string) : res Node.t :=
  match filter (fun node => String.eqb (name (Node.state node)) node_name) nodes with
  | node :: _ => Ret node
  | [] => Raise IndexError
  end.

Fixpoint nodes_named (nodes : list Node.t) (ordered_node_names : list string)
  : res (list Node.t) :=
  match ordered_node_names with
  | [] => Ret []
  | node_name :: rest =>
      node <- node_named nodes node_name ;;
      ordered_nodes <- nodes_named nodes rest ;;
      Ret (node :: ordered_nodes)
  end.

(** [Graph.resolve(nodes)] *)
Definition resolve (nodes : list Node.t) : res (list Node.t) :=
  r <- order_names nodes ;;
  nodes_named nodes (fst r).

(** The attributes of a [Graph]. *)
Record t : Type := mk {
  nodes : list Node.t;
  ordered_nodes : list Node.t;
  ordered_nodes_str : string
}.

(** [reduce(lambda x, y: x + y, lists)] *)
Definition reduce_concat (lists : list (list State)) : res (list State) :=
  match lists with
  | [] => Raise TypeError_reduce_empty
  | l :: rest => Ret (fold_left (fun x y => x ++ y) rest l)
  end.

Fixpoint all_states (nodes : list Node.t) : res (list (list State)) :=
  match nodes with
  | [] => Ret []
  | node :: rest =>
      l <- get_all_states (Node.state node) ;;
      ls <- all_states rest ;;
      Ret (l :: ls)
  end.

(** [for node in self.nodes: node.inputs.resolve(states)].  Nodes that
    share one [Inputs] object resolve it against the same catalog, to
    the same result. *)
Fixpoint resolve_inputs (nodes : list Node.t) (states : list State) : res (list Node.t) :=
  match nodes with
  | [] => Ret []
  | node :: rest =>
      inputs' <- Inputs.resolve (Node.inputs node) states ;;
      rest' <- resolve_inputs rest states ;;
      Ret (Node.mk inputs' (Node.state node) (Node.is_root node) (Node.transistor node)
             :: rest')
  end.

Fixpoint join_arrow (names : list string) : string :=
  match names with
  | [] => ""
  | [x] => x
  | x :: r => (x ++ " -> " ++ join_arrow r)%string
  end.

(** [Graph(nodes)] *)
Definition init (nodes : list Node.t) : res t :=
  lists <- all_states nodes ;;
  states <- reduce_concat lists ;;
  nodes' <- resolve_inputs nodes states ;;
  ordered_nodes <- resolve nodes' ;;
  Ret (mk nodes' ordered_nodes
          (join_arrow (map (fun node => name (Node.state node)) ordered_nodes))).

End Graph.

(** ** Clock *)

Module Clock.

(** [round(x)] of a float: the nearest integer, ties to the even one. *)
Definition round (x : float) : res Z :=
  match Prim2SF x with
  | S754_zero _ => Ret 0%Z
  | S754_infinity _ => Raise OverflowError
  | S754_nan => Raise ValueError_round_nan
  | S754_finite sign m e =>
      let magnitude :=
        if (0 <=? e)%Z then (Zpos m * 2 ^ e)%Z
        else
          let d := (2 ^ (- e))%Z in
          let q := (Zpos m / d)%Z in
          let r := (Zpos m mod d)%Z in
          match (2 * r ?= d)%Z with
          | Lt => q
          | Gt => (q + 1)%Z
          | Eq => if Z.even q then q else (q + 1)%Z
          end in
      Ret (if sign then (- magnitude)%Z else magnitude)
  end.

(** The conversion of an [int] to a [float] in [int * float]: the
    nearest float, ties to even. *)
Definition float_of_int (z : Z) : res float :=
  match binary_normalize prec emax z 0 false with
  | S754_infinity _ => Raise OverflowError
  | f => Ret (SF2Prim f)
  end.

Definition precision : float := 1e-9%float.

(** The local function [float_gcd]. *)
Definition float_gcd (a b : float) : res float :=
  a' <- round (a / precision)%float ;;
  b' <- round (b / precision)%float ;;
  g <- float_of_int (Z.gcd a' b') ;;
  Ret (g * precision)%float.

(** [reduce(float_gcd, step_sizes)] *)
Definition reduce (f : float -> float -> res float) (l : list float) : res float :=
  match l with
  | [] => Raise TypeError_reduce_empty
  | x :: rest => fold_left (fun acc y => a <- acc ;; f a y) rest (Ret x)
  end.

(** [len(set(step_sizes))]: the number of distinct values (step sizes
    are numbers: a NaN would count once for each occurrence). *)
Definition float_in (x : float) (l : list float) : bool := existsb (PrimFloat.eqb x) l.

Fixpoint set_len (l : list float) : nat :=
  match l with
  | [] => 0
  | x :: r => if float_in x r then set_len r else S (set_len r)
  end.

(** [[node.transistor.step_size for node in nodes]] *)
Fixpoint step_sizes (nodes : list Node.t) : res (list float) :=
  match nodes with
  | [] => Ret []
  | node :: rest =>
      match Node.transistor node with
      | None => Raise AttributeError
      | Some tr => l <- step_sizes rest ;; Ret (step_size tr :: l)
      end
  end.

(** The value assigned to [self.fundamental_step_size]. *)
Definition fundamental_step_size_of (step_sizes : list float) : res float :=
  if 1 <? set_len step_sizes then reduce float_gcd step_sizes
  else match step_sizes with
       | x :: _ => Ret x
       | [] => Raise IndexError
       end.

Definition fundamental_step_size (nodes : list Node.t) : res float :=
  sizes <- step_sizes nodes ;;
  fundamental_step_size_of sizes.

End Clock.

(** * Vocabulary of the properties *)

(** ** Nodes *)

(** The state the new node ends up with: the attribute it already has,
    else the argument. *)
Definition state_on_entry (attr_state state : option State) : option State :=
  match attr_state with
  | Some s => Some s
  | None => state
  end.

(** A node with a transistor of the given step size attached. *)
Definition stepping (name : string) (size : float) : Node.t :=
  Node.with_transistor
    (Node.mk (Inputs.init []) (mkState 0 name None VNone true None) false None)
    (mkTransistor size None).

(** The entry of [node_state_inputs_map] made from a node, and the key
    it is stored under. *)
Definition info_of (node : Node.t) : Info.t :=
  Info.mk (Node.state node) (Inputs.states (Node.inputs node)) (Node.is_root node).

Definition node_name (node : Node.t) : string := name (Node.state node).

(** ** The scan as a function on lists of names *)

(** The states of the entries named in [o]. *)
Definition placed (m : dict Info.t) (o : list string) : list State :=
  flat_map (fun k => match dict_get m k with
                     | Some info => [Info.state info]
                     | None => []
                     end) o.

(** The condition under which a scanned entry is appended. *)
Definition ready (m : dict Info.t) (o : list string) (info : Info.t) : bool :=
  forallb (fun s => state_in s (placed m o)) (Info.inputs info) || Info.is_root info.

(** One step of the scan, one round, [n] rounds, when no lookup fails. *)
Definition scan_pure (m : dict Info.t) (o : list string) (item : string * Info.t)
  : list string :=
  if negb (str_in (fst item) o) && ready m o (snd item) then o ++ [fst item] else o.

Definition round_pure (m : dict Info.t) (o : list string) : list string :=
  fold_left (scan_pure m) m o.

Fixpoint rounds (m : dict Info.t) (n : nat) (o : list string) : list string :=
  match n with
  | 0 => o
  | S n' => rounds m n' (round_pure m o)
  end.

(** [n] rounds of the source's scan, from the names placed so far. *)
Fixpoint run_rounds (m : dict Info.t) (n : nat) (o : list string) : res (list string) :=
  match n with
  | 0 => Ret o
  | S n' => o' <- Graph.round m o ;; run_rounds m n' o'
  end.

(** Every placed name was ready when the names before it were placed. *)
Definition sound (m : dict Info.t) (o : list string) : Prop :=
  forall l1 k l2, o = l1 ++ k :: l2 ->
                  exists info, dict_get m k = Some info /\ ready m l1 info = true.

(** ** Dependencies *)

(** [reads i i']: one of the resolved input states of [i] is ([==])
    the state of [i']. *)
Definition reads (i i' : Info.t) : bool :=
  existsb (fun s => State_eqb (Info.state i') s) (Info.inputs i).

(** In the dependency map [m], the entry named [k] has to wait for the
    one named [k']: neither is a root and the first reads the second. *)
Definition waits_for (m : dict Info.t) (k k' : string) : Prop :=
  exists i i', dict_get m k = Some i /\ dict_get m k' = Some i'
               /\ Info.is_root i = false /\ Info.is_root i' = false
               /\ reads i i' = true.

Definition on_cycle (m : dict Info.t) (k : string) : Prop :=
  clos_trans string (waits_for m) k k.

(** The same between the nodes of a list. *)
Definition node_waits_for (nodes : list Node.t) (n n' : Node.t) : Prop :=
  In n nodes /\ In n' nodes
  /\ Node.is_root n = false /\ Node.is_root n' = false
  /\ reads (info_of n) (info_of n') = true.

(** A relation [R] between members of [U]. *)
Definition within {A : Type} (R : A -> A -> bool) (U : list A) (a b : A) : Prop :=
  In a U /\ In b U /\ R a b = true.

(** [reads] and [is_root] on the names of entries. *)
Definition reads_key (m : dict Info.t) (k k' : string) : bool :=
  match dict_get m k, dict_get m k' with
  | Some i, Some i' => reads i i'
  | _, _ => false
  end.

Definition root_key (m : dict Info.t) (k : string) : bool :=
  match dict_get m k with
  | Some i => Info.is_root i
  | None => false
  end.

(** What holds of the names placed so far, round after round. *)
Definition ordering_invariant (m : dict Info.t) (o : list string) : Prop :=
  (incl o (keys m) /\ NoDup o) /\ sound m o.

(** [n] reads [n']: one of the resolved input states of [n] is the
    state of [n']. *)
Definition node_reads (n n' : Node.t) : bool := reads (info_of n) (info_of n').

(** The dependency relation of a node list, and its acyclicity. *)
Definition depends_on (nodes : list Node.t) (n n' : Node.t) : Prop :=
  In n nodes /\ In n' nodes /\ node_reads n n' = true.

Definition acyclic (nodes : list Node.t) : Prop :=
  forall n, ~ clos_trans Node.t (depends_on nodes) n n.

(** Every resolved input of a node that is not a root is the state of
    one of the nodes. *)
Definition inputs_are_node_states (nodes : list Node.t) : Prop :=
  forall n s, In n nodes -> Node.is_root n = false ->
              In s (Inputs.states (Node.inputs n)) ->
              exists n', In n' nodes /\ State_eqb (Node.state n') s = true.

(** ** State trees *)

(** The states a hierarchical state iterates over. *)
Fixpoint states_of (l : list pyval) : list State :=
  match l with
  | [] => []
  | VState c :: r => c :: states_of r
  | _ :: r => states_of r
  end.

Definition substates (s : State) : list State :=
  if is_leaf s then []
  else match _value s with
       | VList l | VTuple l => states_of l
       | _ => []
       end.

(** A list or a tuple with the given items. *)
Definition container (tuple : bool) (items : list pyval) : pyval :=
  if tuple then VTuple items else VList items.

(** A value that gives a [for] loop no items: [None], a number, a
    [State]. *)
Definition no_items (v : pyval) : bool :=
  match v with
  | VList _ | VTuple _ => false
  | _ => true
  end.

(** Every state flagged as hierarchical holds a list, or a tuple, of
    states, so that the loops over its value run through. *)
Fixpoint shape_ok (s : State) : bool :=
  match s with
  | mkState _ _ _ v lf _ =>
      lf || match v with
            | VList l | VTuple l =>
                (fix each (l : list pyval) : bool :=
                   match l with
                   | [] => true
                   | VState c :: r => shape_ok c && each r
                   | _ :: _ => false
                   end) l
            | _ => false
            end
  end.

(** A name that can be a component of a path: not empty, no "/". *)
Fixpoint has_slash (s : string) : bool :=
  match s with
  | EmptyString => false
  | String c r => Ascii.eqb c slash || has_slash r
  end.

Definition name_ok (n : string) : bool := str_truthy n && negb (has_slash n).

Fixpoint distinctb (l : list string) : bool :=
  match l with
  | [] => true
  | x :: r => negb (str_in x r) && distinctb r
  end.

(** Every name in the tree can be a component of a path, and the
    substates of a state have pairwise distinct names. *)
Fixpoint names_ok (s : State) : bool :=
  match s with
  | mkState _ n _ v lf _ =>
      name_ok n
      && (lf || match v with
                | VList l | VTuple l =>
                    distinctb (map name (states_of l))
                    && (fix each (l : list pyval) : bool :=
                          match l with
                          | [] => true
                          | VState c :: r => names_ok c && each r
                          | _ :: r => each r
                          end) l
                | _ => true
                end)
  end.

(** The loops over substates: the first match, and the threading of
    an accumulator. *)
Fixpoint first_some (f : State -> res (option State)) (l : list State) : res (option State) :=
  match l with
  | [] => Ret None
  | c :: r =>
      x <- f c ;;
      match x with
      | Some y => Ret (Some y)
      | None => first_some f r
      end
  end.

Fixpoint fold_res {A : Type} (f : State -> A -> res A) (l : list State) (a : A) : res A :=
  match l with
  | [] => Ret a
  | c :: r => a' <- f c a ;; fold_res f r a'
  end.

(** [current_path] of [_collect_paths]. *)
Definition current_path (prefix n : string) : string :=
  if str_truthy prefix then (prefix ++ "/" ++ n)%string else n.

(** The leaves below a state, each with the names on the way to it. *)
Fixpoint leaf_routes (s : State) : list (list string * State) :=
  match s with
  | mkState _ n _ v lf _ =>
      if lf then [([n], s)]
      else
        match v with
        | VList l | VTuple l =>
            (fix each (l : list pyval) : list (list string * State) :=
               match l with
               | [] => []
               | VState c :: r =>
                   map (fun rt => (n :: fst rt, snd rt)) (leaf_routes c) ++ each r
               | _ :: r => each r
               end) l
        | _ => []
        end
  end.

(** ** Outcomes of Graph.resolve *)

(** Every input of an entry that is not a root is ([==]) the state of
    an entry of the map. *)
Definition entries_owned (m : dict Info.t) : Prop :=
  forall k i s, dict_get m k = Some i -> Info.is_root i = false ->
                In s (Info.inputs i) ->
                exists k' i', dict_get m k' = Some i'
                              /\ State_eqb (Info.state i') s = true.

(** No entries that are not roots wait for each other in a cycle. *)
Definition no_wait_cycle (m : dict Info.t) : Prop :=
  forall k, ~ clos_trans string (waits_for m) k k.

(** The nodes are declared in an order in which they can run: every
    resolved input of a node that is not a root is the state of a node
    declared before it. *)
Definition declared_in_order (nodes : list Node.t) : Prop :=
  forall before n after,
    nodes = before ++ n :: after -> Node.is_root n = false ->
    forall s, In s (Inputs.states (Node.inputs n)) ->
              exists n', In n' before /\ State_eqb (Node.state n') s = true.

(** ** Substates along a path *)

(** [at_route s parts r]: [r] is [s] or a state below it, and [parts]
    are the names from [s] down to [r]. *)
Inductive at_route : State -> list string -> State -> Prop :=
| route_here (s : State) : at_route s [name s] s
| route_below (s c r : State) (rest : list string) :
    is_leaf s = false -> In c (substates s) -> at_route c rest r ->
    at_route s (name s :: rest) r.

(** The loop of [search_by_path] over the elements of the value. *)
Fixpoint search_each (l : list pyval) (path : string) : res (option State) :=
  match l with
  | [] => Ret None
  | VState substate :: l' =>
      result <- search_by_path substate path ;;
      match result with
      | Some r => Ret (Some r)
      | None => search_each l' path
      end
  | _ :: _ => Raise AttributeError
  end.


(** ** Construction of a graph *)

(** What [Graph.__init__] makes of a declared node: the node with its
    inputs resolved against the catalog. *)
Definition resolved_from (catalog : list State) (n n' : Node.t) : Prop :=
  Node.state n' = Node.state n /\ Node.is_root n' = Node.is_root n
  /\ Node.transistor n' = Node.transistor n
  /\ Inputs.resolve (Node.inputs n) catalog = Ret (Node.inputs n').

(** Among the declared nodes, the one named [k] has to wait for the one
    named [k']: neither is a root, and the first declares a path whose
    single component is [k']. *)
Definition declared_waits (nodes : list Node.t) (k k' : string) : Prop :=
  exists n n', In n nodes /\ In n' nodes /\ node_name n = k /\ node_name n' = k'
               /\ Node.is_root n = false /\ Node.is_root n' = false
               /\ exists p, In p (Inputs.paths_to_states (Node.inputs n))
                            /\ path_parts p = [k'].

(** ** Reading a list of substates *)

(** The list comprehension of [value]: the outcome and the elements
    after the read. *)
Fixpoint value_each (symbolic : bool) (l : list pyval) : res (list descr) * list pyval :=
  match l with
  | [] => (Ret [], [])
  | VState substate :: l' =>
      let (r, substate') := value symbolic substate in
      match r with
      | Ret x =>
          let (rs, l'') := value_each symbolic l' in
          (xs <- rs ;; Ret (x :: xs), VState substate' :: l'')
      | Raise e => (Raise e, VState substate' :: l')
      end
  | x :: l' => (Raise AttributeError, x :: l')
  end.

(** ** States as the constructor makes them *)

(** A state made by [State(name, dims, _value)] and never assigned to,
    the states in a list given as [_value] made in the same way. *)
Inductive constructed : State -> Prop :=
| constructed_by (i : nat) (n : string) (d : option (list Z)) (v : pyval) (s : State) :
    State_init i n d v = Ret s ->
    (forall l c, v = VList l -> In (VState c) l -> constructed c) ->
    constructed s.

(** ** Assignment to a state held by another

    A [State] is an object: a hierarchical state holds its substates by
    reference, so [leaf.value = new_value] on a substate is seen from
    every state that holds it. *)

(** The state [s] after [target.value = new_value], where [target] is
    the identity of the object assigned to, which [s] may be or hold. *)
Fixpoint assign_val (target : nat) (new_value v : pyval) {struct v} : pyval :=
  match v with
  | VList l =>
      VList ((fix each (l : list pyval) : list pyval :=
                match l with
                | [] => []
                | x :: r => assign_val target new_value x :: each r
                end) l)
  | VState s => VState (assign target new_value s)
  | VTuple l =>
      VTuple ((fix each (l : list pyval) : list pyval :=
                 match l with
                 | [] => []
                 | x :: r => assign_val target new_value x :: each r
                 end) l)
  | _ => v
  end
with assign (target : nat) (new_value : pyval) (s : State) {struct s} : State :=
  match s with
  | mkState i n d v lf y =>
      if Nat.eqb i target then mkState i n d new_value lf y
      else mkState i n d (assign_val target new_value v) lf y
  end.

(** The identities of the states flagged as hierarchical that the
    traversals of [s] pass through. *)
Fixpoint hier_oids (s : State) : list nat :=
  match s with
  | mkState i _ _ v lf _ =>
      if lf then []
      else i :: match v with
                | VList l | VTuple l =>
                    (fix each (l : list pyval) : list nat :=
                       match l with
                       | [] => []
                       | VState c :: r => hier_oids c ++ each r
                       | _ :: r => each r
                       end) l
                | _ => []
                end
  end.

(** ** Examples *)

(** The chain A (root), B reads A, C reads B, declared as C, A, B. *)
Module Chain.
Definition sA : State := mkState 1 "A" None (VNum 0) true None.
Definition sB : State := mkState 2 "B" None VNone true None.
Definition sC : State := mkState 3 "C" None VNone true None.
Definition A : Node.t := Node.mk (Inputs.init []) sA true None.
Definition B : Node.t := Node.mk (Inputs.mk ["A"] [sA] true) sB false None.
Definition C : Node.t := Node.mk (Inputs.mk ["B"] [sB] true) sC false None.
Definition nodes : list Node.t := [C; A; B].
Definition rank (n : Node.t) : nat := oid (Node.state n).
End Chain.

(** plant with the leaf x and the hierarchical state sub holding y. *)
Module Plant.
Definition x : State := mkState 2 "x" None (VNum 1) true None.
Definition y : State := mkState 4 "y" None VNone true None.
Definition sub : State := mkState 3 "sub" None (VList [VState y]) false None.
Definition plant : State := mkState 1 "plant" None (VList [VState x; VState sub]) false None.
End Plant.

(** * Properties *)

(** ** State: construction and assignment *)

Lemma State_init_returns (i : nat) (n : string) (d : option (list Z)) (v : pyval) :
  State_init i n d v =
  Ret (mkState i n d v
         (negb (isinstance_list v && (0 <? py_len v) && all_State v)) None).
Proof.
  unfold State_init.
  destruct (isinstance_list v && (0 <? py_len v) && all_State v) eqn:E; cbn.
  - apply andb_true_iff in E as [_ E]. rewrite E. reflexivity.
  - reflexivity.
Qed.

(** The branch raising [TypeError] cannot be taken. *)
Lemma State_init_never_raises (i : nat) (n : string) (d : option (list Z)) (v : pyval) :
  ~ raises (State_init i n d v).
Proof. rewrite State_init_returns. intros [e H]. discriminate. Qed.

(** A non-empty list of states only makes a hierarchical state. *)
Lemma State_init_hierarchical (i : nat) (n : string) (d : option (list Z))
      (children : list State) :
  children <> [] ->
  exists s, State_init i n d (VList (map VState children)) = Ret s
            /\ is_leaf s = false /\ _value s = VList (map VState children).
Proof.
  intros Hne. rewrite State_init_returns. eexists. split; [reflexivity|].
  split; [|reflexivity]. cbn.
  destruct children as [|c cs]; [contradiction|]. cbn.
  assert (H : forallb isinstance_State (map VState cs) = true).
  { clear. induction cs; cbn; auto. }
  rewrite H. reflexivity.
Qed.

(** A list with an element that is not a state makes a leaf. *)
Lemma State_init_mixed_is_leaf (i : nat) (n : string) (d : option (list Z))
      (l : list pyval) (x : pyval) :
  In x l -> isinstance_State x = false ->
  State_init i n d (VList l) = Ret (mkState i n d (VList l) true None).
Proof.
  intros Hin Hx. rewrite State_init_returns. cbn.
  assert (H : forallb isinstance_State l = false).
  { destruct (forallb isinstance_State l) eqn:E; [|reflexivity].
    rewrite forallb_forall in E. rewrite (E x Hin) in Hx. discriminate. }
  rewrite H, andb_false_r. reflexivity.
Qed.

(** C4. [State("s", None, [State("a"), 5])]: the list in the value slot
    holds a state and a number, and the construction returns a leaf
    state instead of raising. *)
Theorem State_init_mixed_list_accepted :
  (a <- State_init 1 "a" None VNone ;;
   State_init 2 "s" None (VList [VState a; VNum 5]))
  = Ret (mkState 2 "s" None
           (VList [VState (mkState 1 "a" None VNone true None); VNum 5])
           true None).
Proof. reflexivity. Qed.

(** C10. Assigning through the [value] setter replaces the value slot
    and leaves [name], [dims], [is_leaf], the cached placeholder and
    the identity as they were; a leaf that is assigned a non-empty list
    of states stays a leaf, while constructing a state from the same
    list makes a hierarchical one. *)
Theorem set_value_frame (s : State) (new_value : pyval) :
  _value (set_value s new_value) = new_value
  /\ name (set_value s new_value) = name s
  /\ dims (set_value s new_value) = dims s
  /\ is_leaf (set_value s new_value) = is_leaf s
  /\ symbolic_value (set_value s new_value) = symbolic_value s
  /\ oid (set_value s new_value) = oid s
  /\ (forall children : list State,
        children <> [] -> is_leaf s = true ->
        is_leaf (set_value s (VList (map VState children))) = true
        /\ exists s', State_init (oid s) (name s) (dims s) (VList (map VState children))
                      = Ret s' /\ is_leaf s' = false).
Proof.
  destruct s as [i n d v lf y]. cbn. repeat (split; [reflexivity|]).
  intros children Hne Hlf. split; [exact Hlf|].
  destruct (State_init_hierarchical i n d children Hne) as [s' [H1 [H2 _]]].
  exists s'. split; assumption.
Qed.

Lemma set_value_frame_witness :
  let leaf := mkState 7 "plant" (Some [2%Z]) (VNum 3) true (Some (MX_sym "plant" [2%Z])) in
  let child := mkState 8 "x" None VNone true None in
  is_leaf (set_value leaf (VList (map VState [child]))) = true
  /\ exists s', State_init 7 "plant" (Some [2%Z]) (VList (map VState [child])) = Ret s'
                /\ is_leaf s' = false.
Proof.
  intros leaf child.
  apply (proj2 (proj2 (proj2 (proj2 (proj2 (proj2 (set_value_frame leaf VNone))))))
           [child]).
  - discriminate.
  - reflexivity.
Defined.

(** ** Inputs.collect *)

(** A new resolver is unresolved, and only a call of [resolve] that
    returns sets the flag. *)
Lemma Inputs_init_unresolved (paths : list string) :
  Inputs._resolved (Inputs.init paths) = false.
Proof. reflexivity. Qed.

Lemma Inputs_resolve_sets_flag (self self' : Inputs.t) (catalog : list State) :
  Inputs.resolve self catalog = Ret self' ->
  Inputs._resolved self' = true
  /\ Inputs.paths_to_states self' = Inputs.paths_to_states self
  /\ List.length (Inputs.states self') = List.length (Inputs.paths_to_states self)
  /\ forallb is_leaf (Inputs.states self') = true.
Proof.
  unfold Inputs.resolve. intros H.
  destruct (Inputs.find_states _ _ _) as [found|e]; cbn in H; [|discriminate].
  destruct (_ =? _) eqn:El; [|discriminate].
  destruct (forallb is_leaf found) eqn:Ef; [|discriminate].
  injection H as <-. cbn. apply Nat.eqb_eq in El. auto.
Qed.

(** C7. With at least one declared path and the resolved flag not yet
    set, [collect()] raises the [ValueError] and leaves the resolver as
    it is; with no declared path it returns the empty mapping, whatever
    the flag and the mode. *)
Theorem collect_before_resolve (symbolic : bool) (self : Inputs.t) :
  (Inputs.paths_to_states self <> [] -> Inputs._resolved self = false ->
   Inputs.collect symbolic self = (Raise ValueError_collect_unresolved, self))
  /\ (Inputs.paths_to_states self = [] ->
      Inputs.collect symbolic self = (Ret [], self)).
Proof.
  unfold Inputs.collect. split.
  - intros Hne Hres. destruct (Inputs.paths_to_states self); [contradiction|].
    cbn. rewrite Hres. reflexivity.
  - intros ->. reflexivity.
Qed.

Lemma collect_before_resolve_witness :
  Inputs.collect false (Inputs.init ["Clock"; "plant"])
  = (Raise ValueError_collect_unresolved, Inputs.init ["Clock"; "plant"])
  /\ Inputs.collect false (Inputs.init []) = (Ret [], Inputs.init []).
Proof.
  split.
  - apply (proj1 (collect_before_resolve false (Inputs.init ["Clock"; "plant"]))).
    + discriminate.
    + reflexivity.
  - apply (proj2 (collect_before_resolve false (Inputs.init []))). reflexivity.
Defined.

(** ** Node.__init__ *)

(** C8. [Node.__init__] raises when the instance has no [state]
    attribute and is given no [state]; with [is_root] set it returns
    exactly when every leaf of the node's state holds a value other
    than [None], and raises the [AssertionError] otherwise. *)
Theorem Node_init_checks (attr_inputs : option Inputs.t)
        (inputs : option (list string + Inputs.t)) :
  (forall is_root,
      Node.init attr_inputs None inputs None is_root = Raise ValueError_no_state)
  /\ (forall attr_state state s leaves,
        state_on_entry attr_state state = Some s ->
        get_all_states s = Ret leaves ->
        (Forall (fun leaf => _value leaf <> VNone) leaves ->
         exists node, Node.init attr_inputs attr_state inputs state true = Ret node
                      /\ Node.state node = s /\ Node.is_root node = true)
        /\ (~ Forall (fun leaf => _value leaf <> VNone) leaves ->
            Node.init attr_inputs attr_state inputs state true
            = Raise (AssertionError_root_undefined (name s)))).
Proof.
  split; [reflexivity|].
  intros attr_state state s leaves Hs Hl.
  assert (Hinit : Node.init attr_inputs attr_state inputs state true =
                  (defined <- is_defined s ;;
                   if defined
                   then Ret (Node.mk
                               match attr_inputs with
                               | Some i => i
                               | None =>
                                   match inputs with
                                   | Some (inl paths) => Inputs.init paths
                                   | Some (inr i) => i
                                   | None => Inputs.init []
                                   end
                               end s true None)
                   else Raise (AssertionError_root_undefined (name s)))).
  { unfold Node.init, state_on_entry in *.
    destruct attr_state as [a|]; [injection Hs as ->; reflexivity|].
    subst state. reflexivity. }
  rewrite Hinit. unfold is_defined. rewrite Hl. cbn.
  assert (Hall : forallb (fun st => negb (is_None (_value st))) leaves = true
                 <-> Forall (fun leaf => _value leaf <> VNone) leaves).
  { rewrite forallb_forall, Forall_forall.
    split; intros H x Hx; specialize (H x Hx); destruct (_value x); cbn in *;
      congruence. }
  split; intros H.
  - apply Hall in H. rewrite H. eexists. split; [reflexivity|]. split; reflexivity.
  - destruct (forallb _ leaves) eqn:E; [|reflexivity].
    exfalso. apply H, Hall. reflexivity.
Qed.

Lemma Node_init_checks_witness :
  let clock := mkState 1 "Clock" (Some [1%Z]) (VNum 0) true None in
  let plant := mkState 2 "plant" None VNone true None in
  (exists node, Node.init None (Some clock) None (Some clock) true = Ret node
                /\ Node.state node = clock /\ Node.is_root node = true)
  /\ Node.init None None (Some (inl ["Clock"])) (Some plant) true
     = Raise (AssertionError_root_undefined "plant").
Proof.
  intros clock plant. split.
  - apply (proj1 (proj2 (Node_init_checks None None) (Some clock) (Some clock)
                    clock [clock] eq_refl eq_refl)).
    repeat constructor. discriminate.
  - apply (proj2 (proj2 (Node_init_checks None (Some (inl ["Clock"]))) None (Some plant)
                    plant [plant] eq_refl eq_refl)).
    intros H. inversion H as [|? ? H1 _]. apply H1. reflexivity.
Defined.

(** ** Clock: the fundamental step size *)




(** ** Dictionaries *)

Section DictFacts.
Context {V : Type}.
Implicit Types (d : dict V) (k : string) (v : V).

Lemma str_in_In (x : string) (l : list string) : str_in x l = true <-> In x l.
Proof.
  unfold str_in. rewrite existsb_exists. split.
  - intros [y [Hy E]]. apply String.eqb_eq in E. subst. exact Hy.
  - intros H. exists x. split; [exact H|apply String.eqb_refl].
Qed.

Lemma str_in_false (x : string) (l : list string) : str_in x l = false <-> ~ In x l.
Proof.
  rewrite <- str_in_In. destruct (str_in x l); split; congruence.
Qed.

Lemma keys_dict_set d k v :
  keys (dict_set d k v) = if str_in k (keys d) then keys d else keys d ++ [k].
Proof.
  unfold keys, str_in. induction d as [|[k' v'] r IH]; [reflexivity|].
  cbn [dict_set map fst existsb].
  destruct (String.eqb k k') eqn:E; cbn [orb map fst]; [reflexivity|].
  rewrite IH. destruct (existsb (String.eqb k) (map fst r)); reflexivity.
Qed.

Lemma keys_dict_set_NoDup d k v : NoDup (keys d) -> NoDup (keys (dict_set d k v)).
Proof.
  intros H. rewrite keys_dict_set. destruct (str_in k (keys d)) eqn:E; [exact H|].
  apply str_in_false in E. apply NoDup_app; [exact H|repeat constructor; intros []|].
  intros x Hx [<-|[]]. exact (E Hx).
Qed.

Lemma dict_get_set_same d k v : dict_get (dict_set d k v) k = Some v.
Proof.
  induction d as [|[k' v'] r IH]; cbn.
  - rewrite String.eqb_refl. reflexivity.
  - destruct (String.eqb k k') eqn:E; cbn; rewrite E; [reflexivity|exact IH].
Qed.

Lemma dict_get_set_other d k k' v :
  k' <> k -> dict_get (dict_set d k v) k' = dict_get d k'.
Proof.
  intros Hne. induction d as [|[k0 v0] r IH]; cbn.
  - destruct (String.eqb k' k) eqn:E; [apply String.eqb_eq in E; contradiction|reflexivity].
  - destruct (String.eqb k k0) eqn:E; cbn.
    + apply String.eqb_eq in E. subst k0.
      destruct (String.eqb k' k) eqn:E'; [apply String.eqb_eq in E'; contradiction|].
      reflexivity.
    + destruct (String.eqb k' k0); [reflexivity|exact IH].
Qed.

Lemma dict_get_In d k v : dict_get d k = Some v -> In (k, v) d.
Proof.
  induction d as [|[k' v'] r IH]; cbn; [discriminate|].
  destruct (String.eqb k k') eqn:E.
  - apply String.eqb_eq in E. intros [= ->]. subst. left. reflexivity.
  - intros H. right. exact (IH H).
Qed.

Lemma In_dict_get d k v : NoDup (keys d) -> In (k, v) d -> dict_get d k = Some v.
Proof.
  induction d as [|[k' v'] r IH]; cbn; [intros _ []|].
  intros Hnd [H|H].
  - injection H as -> ->. rewrite String.eqb_refl. reflexivity.
  - inversion Hnd as [|? ? Hnotin Hnd']. subst.
    destruct (String.eqb k k') eqn:E.
    + apply String.eqb_eq in E. subst k'. exfalso. apply Hnotin.
      change k with (fst (k, v)). apply in_map. exact H.
    + exact (IH Hnd' H).
Qed.

Lemma dict_get_keys d k : In k (keys d) <-> exists v, dict_get d k = Some v.
Proof.
  induction d as [|[k' v'] r IH]; cbn.
  - split; [intros []|intros [v H]; discriminate].
  - destruct (String.eqb k k') eqn:E.
    + apply String.eqb_eq in E. subst. split; eauto.
    + rewrite <- IH. split; [intros [H|H]|]; auto.
      subst. rewrite String.eqb_refl in E. discriminate.
Qed.

Lemma set_of_NoDup (l : list string) : NoDup l -> set_of l = l.
Proof.
  induction 1 as [|x l Hx Hl IH]; cbn; [reflexivity|].
  apply str_in_false in Hx. rewrite Hx, IH. reflexivity.
Qed.

End DictFacts.

Section DictOf.
Context {V X : Type} (key : X -> string) (val : X -> V).

Lemma dict_of_fold_NoDup (xs : list X) (d : dict V) :
  NoDup (keys d) ->
  NoDup (keys (fold_left (fun d x => dict_set d (key x) (val x)) xs d)).
Proof.
  revert d. induction xs as [|x xs IH]; cbn; intros d H; [exact H|].
  apply IH, keys_dict_set_NoDup, H.
Qed.

(** The keys of a dict comprehension are distinct. *)
Lemma dict_of_NoDup (xs : list X) : NoDup (keys (dict_of key val xs)).
Proof. apply dict_of_fold_NoDup. constructor. Qed.

Lemma dict_of_fold_distinct (xs : list X) (d : dict V) :
  NoDup (keys d ++ map key xs) ->
  fold_left (fun d x => dict_set d (key x) (val x)) xs d
  = d ++ map (fun x => (key x, val x)) xs.
Proof.
  revert d. induction xs as [|x xs IH]; cbn; intros d H.
  - rewrite app_nil_r. reflexivity.
  - assert (Hk : ~ In (key x) (keys d)).
    { intros Hin. apply NoDup_remove_2 in H. apply H, in_or_app. left. exact Hin. }
    assert (Hset : dict_set d (key x) (val x) = d ++ [(key x, val x)]).
    { clear -Hk. induction d as [|[k' v'] r IHd]; cbn; [reflexivity|].
      destruct (String.eqb (key x) k') eqn:E.
      - apply String.eqb_eq in E. exfalso. apply Hk. left. symmetry. exact E.
      - rewrite IHd; [reflexivity|]. intros Hin. apply Hk. right. exact Hin. }
    rewrite Hset, IH.
    + rewrite <- app_assoc. reflexivity.
    + unfold keys. rewrite map_app. cbn. rewrite <- app_assoc. exact H.
Qed.

(** With distinct keys the comprehension has one entry for each
    element, in order. *)
Lemma dict_of_distinct (xs : list X) :
  NoDup (map key xs) -> dict_of key val xs = map (fun x => (key x, val x)) xs.
Proof. intros H. unfold dict_of. rewrite dict_of_fold_distinct; [reflexivity|exact H]. Qed.

End DictOf.

(** ** Graph.resolve: the scan as a function on lists of names *)

Lemma State_eqb_name (e s : State) : State_eqb e s = true -> name e = name s.
Proof.
  destruct e as [i n d v lf y], s as [i' n' d' v' lf' y']. cbn [State_eqb name].
  intros H. repeat (apply andb_true_iff in H as [H _]).
  apply String.eqb_eq. exact H.
Qed.

Lemma state_in_spec (x : State) (l : list State) :
  state_in x l = true <-> exists e, In e l /\ State_eqb e x = true.
Proof. unfold state_in. apply existsb_exists. Qed.

Section Scan.
Variable m : dict Info.t.

Lemma ordered_states_placed (o : list string) :
  incl o (keys m) -> Graph.ordered_states m o = Ret (placed m o).
Proof.
  induction o as [|k o IH]; intros Hin; [reflexivity|].
  cbn [Graph.ordered_states placed flat_map].
  assert (Hk : In k (keys m)) by (apply Hin; left; reflexivity).
  apply dict_get_keys in Hk as [info Hk]. rewrite Hk.
  rewrite IH; [reflexivity|]. intros x Hx. apply Hin. right. exact Hx.
Qed.

Lemma scan_scan_pure (o : list string) (item : string * Info.t) :
  incl o (keys m) -> Graph.scan m o item = Ret (scan_pure m o item).
Proof.
  intros Hin. destruct item as [k info]. unfold Graph.scan, scan_pure, ready.
  rewrite (ordered_states_placed o Hin). cbn [bind fst snd].
  destruct (negb (str_in k o)); cbn [andb]; [|reflexivity].
  destruct (_ || _); reflexivity.
Qed.

Lemma scan_pure_incl (o : list string) (item : string * Info.t) :
  incl o (keys m) -> In (fst item) (keys m) -> incl (scan_pure m o item) (keys m).
Proof.
  intros Ho Hk. unfold scan_pure. destruct (_ && _); [|exact Ho].
  intros x Hx. apply in_app_or in Hx as [Hx|[<-|[]]]; auto.
Qed.

Lemma fold_scan_incl (items : list (string * Info.t)) (o : list string) :
  incl o (keys m) -> incl (map fst items) (keys m) ->
  incl (fold_left (scan_pure m) items o) (keys m).
Proof.
  revert o. induction items as [|item items IH]; intros o Ho Hi; [exact Ho|].
  cbn [fold_left]. apply IH.
  - apply scan_pure_incl; [exact Ho|]. apply Hi. left. reflexivity.
  - intros x Hx. apply Hi. right. exact Hx.
Qed.

Lemma scan_items_fold (items : list (string * Info.t)) (o : list string) :
  incl o (keys m) -> incl (map fst items) (keys m) ->
  Graph.scan_items m items o = Ret (fold_left (scan_pure m) items o).
Proof.
  revert o. induction items as [|item items IH]; intros o Ho Hi; [reflexivity|].
  cbn [Graph.scan_items fold_left]. rewrite (scan_scan_pure o item Ho). cbn [bind].
  apply IH.
  - apply scan_pure_incl; [exact Ho|]. apply Hi. left. reflexivity.
  - intros x Hx. apply Hi. right. exact Hx.
Qed.

Lemma round_round_pure (o : list string) :
  incl o (keys m) -> Graph.round m o = Ret (round_pure m o).
Proof. intros Ho. apply scan_items_fold; [exact Ho|apply incl_refl]. Qed.

Lemma round_pure_incl (o : list string) :
  incl o (keys m) -> incl (round_pure m o) (keys m).
Proof. intros Ho. apply fold_scan_incl; [exact Ho|apply incl_refl]. Qed.

Lemma rounds_incl (n : nat) (o : list string) :
  incl o (keys m) -> incl (rounds m n o) (keys m).
Proof.
  revert o. induction n as [|n IH]; intros o Ho; [exact Ho|].
  cbn [rounds]. apply IH, round_pure_incl, Ho.
Qed.

(** The scan only appends. *)
Lemma scan_pure_extends (o : list string) (item : string * Info.t) :
  exists added, scan_pure m o item = o ++ added.
Proof.
  unfold scan_pure. destruct (_ && _); [eexists; reflexivity|].
  exists []. rewrite app_nil_r. reflexivity.
Qed.

Lemma fold_scan_extends (items : list (string * Info.t)) (o : list string) :
  exists added, fold_left (scan_pure m) items o = o ++ added.
Proof.
  revert o. induction items as [|item items IH]; intros o.
  - exists []. rewrite app_nil_r. reflexivity.
  - cbn [fold_left]. destruct (scan_pure_extends o item) as [a1 ->].
    destruct (IH (o ++ a1)) as [a2 ->]. exists (a1 ++ a2). rewrite app_assoc. reflexivity.
Qed.


Lemma scan_pure_NoDup (o : list string) (item : string * Info.t) :
  NoDup o -> NoDup (scan_pure m o item).
Proof.
  intros Ho. unfold scan_pure. destruct (negb (str_in (fst item) o)) eqn:E; [|exact Ho].
  destruct (ready m o (snd item)); [|exact Ho]. cbn [andb].
  apply negb_true_iff, str_in_false in E.
  apply NoDup_app; [exact Ho|repeat constructor; intros []|].
  intros x Hx [<-|[]]. exact (E Hx).
Qed.

Lemma fold_scan_NoDup (items : list (string * Info.t)) (o : list string) :
  NoDup o -> NoDup (fold_left (scan_pure m) items o).
Proof.
  revert o. induction items as [|item items IH]; intros o Ho; [exact Ho|].
  cbn [fold_left]. apply IH, scan_pure_NoDup, Ho.
Qed.

Lemma rounds_NoDup (n : nat) (o : list string) : NoDup o -> NoDup (rounds m n o).
Proof.
  revert o. induction n as [|n IH]; intros o Ho; [exact Ho|].
  cbn [rounds]. apply IH, fold_scan_NoDup, Ho.
Qed.

(** Readiness is kept when more names are placed. *)
Lemma placed_app (o a : list string) : placed m (o ++ a) = placed m o ++ placed m a.
Proof. unfold placed. apply flat_map_app. Qed.

Lemma ready_mono (o a : list string) (info : Info.t) :
  ready m o info = true -> ready m (o ++ a) info = true.
Proof.
  unfold ready. intros H. apply orb_true_iff in H as [H|H];
    apply orb_true_iff; [left|right; exact H].
  rewrite forallb_forall in *. intros s Hs. specialize (H s Hs).
  apply state_in_spec in H as [e [He Hes]]. apply state_in_spec.
  exists e. split; [|exact Hes]. rewrite placed_app. apply in_or_app. left. exact He.
Qed.

(** An entry that is ready when the scan starts is placed by it. *)
Lemma fold_scan_places (items : list (string * Info.t)) (o : list string)
      (k : string) (info : Info.t) :
  In (k, info) items -> ready m o info = true -> In k (fold_left (scan_pure m) items o).
Proof.
  revert o. induction items as [|item items IH]; intros o Hin Hr; [destruct Hin|].
  cbn [fold_left]. destruct (scan_pure_extends o item) as [a Ha].
  destruct Hin as [->|Hin].
  - destruct (fold_scan_extends items (scan_pure m o (k, info))) as [b ->].
    apply in_or_app. left. unfold scan_pure. cbn [fst snd]. rewrite Hr.
    destruct (str_in k o) eqn:E; cbn [negb andb].
    + apply str_in_In. exact E.
    + apply in_or_app. right. left. reflexivity.
  - apply IH; [exact Hin|]. rewrite Ha. apply ready_mono, Hr.
Qed.

End Scan.

(** ** Graph.resolve: the loop *)

Section Loop.
Variable m : dict Info.t.
Hypothesis m_keys : NoDup (keys m).

Lemma placed_all_length (o : list string) :
  NoDup o -> incl o (keys m) -> List.length o <= List.length m.
Proof.
  intros Hnd Hin. unfold keys in Hin.
  rewrite <- (length_map fst m). apply NoDup_incl_length; assumption.
Qed.

(** While names are missing, the loop runs its whole budget of rounds
    and then fails the assertion. *)
Lemma while_loop_raises (budget elapsed : nat) (o : list string) :
  incl o (keys m) ->
  (forall i, i <= budget -> List.length (rounds m i o) < List.length m) ->
  Graph.while_loop m budget elapsed o
  = Raise (AssertionError_unresolved (elapsed + budget)
             (Graph.unplaced m (rounds m budget o))).
Proof.
  revert elapsed o. induction budget as [|b IH]; intros elapsed o Ho Hlt.
  - cbn [Graph.while_loop rounds]. specialize (Hlt 0 (le_n 0)). cbn [rounds] in Hlt.
    apply Nat.ltb_lt in Hlt. rewrite Hlt, Nat.add_0_r. reflexivity.
  - cbn [Graph.while_loop rounds].
    pose proof (Hlt 0 (Nat.le_0_l _)) as H0. cbn [rounds] in H0.
    apply Nat.ltb_lt in H0. rewrite H0.
    rewrite (round_round_pure m o Ho). cbn [bind].
    rewrite IH.
    + replace (S elapsed + b) with (elapsed + S b) by lia. reflexivity.
    + apply round_pure_incl, Ho.
    + intros i Hi. apply (Hlt (S i)). lia.
Qed.

(** If every round places a name while one is missing, the loop
    returns within its budget. *)
Lemma while_loop_returns (Inv : list string -> Prop) :
  (forall o, Inv o -> incl o (keys m) /\ NoDup o) ->
  (forall o, Inv o -> Inv (round_pure m o)) ->
  (forall o, Inv o -> List.length o < List.length m ->
             List.length o < List.length (round_pure m o)) ->
  forall budget elapsed o,
    Inv o -> List.length m - List.length o <= budget ->
    exists j, j <= budget
              /\ Graph.while_loop m budget elapsed o = Ret (rounds m j o, elapsed + j)
              /\ Inv (rounds m j o)
              /\ List.length (rounds m j o) = List.length m.
Proof.
  intros Hinv Hstep Hprog. induction budget as [|b IH]; intros elapsed o Ho Hb.
  - exists 0. cbn [Graph.while_loop rounds].
    destruct (Hinv o Ho) as [Hi Hn]. pose proof (placed_all_length o Hn Hi).
    assert (E : (List.length o <? List.length m) = false) by (apply Nat.ltb_ge; lia).
    rewrite E, Nat.add_0_r. repeat split; auto. lia.
  - destruct (Hinv o Ho) as [Hi Hn]. pose proof (placed_all_length o Hn Hi) as Hle.
    cbn [Graph.while_loop].
    destruct (List.length o <? List.length m) eqn:E.
    + apply Nat.ltb_lt in E. pose proof (Hprog o Ho E) as Hp.
      rewrite (round_round_pure m o Hi). cbn [bind].
      destruct (IH (S elapsed) (round_pure m o) (Hstep o Ho)) as [j [Hj [Hw [HI Hl]]]];
        [lia|].
      exists (S j). cbn [rounds]. rewrite Hw.
      replace (S elapsed + j) with (elapsed + S j) by lia.
      repeat split; auto. lia.
    + apply Nat.ltb_ge in E. exists 0. cbn [rounds]. rewrite Nat.add_0_r.
      repeat split; auto; lia.
Qed.

Lemma sound_snoc (o : list string) (k : string) (info : Info.t) :
  sound m o -> dict_get m k = Some info -> ready m o info = true -> sound m (o ++ [k]).
Proof.
  intros Hs Hk Hr l1 k0 l2 E.
  destruct l2 as [|x l2].
  - apply app_inj_tail in E as [-> ->]. exists info. split; assumption.
  - assert (E' : o = l1 ++ k0 :: removelast (x :: l2)).
    { apply (f_equal (@removelast string)) in E.
      rewrite removelast_last in E. rewrite E.
      rewrite removelast_app by discriminate.
      change (k0 :: x :: l2) with ([k0] ++ x :: l2).
      rewrite (removelast_app [k0]) by discriminate. reflexivity. }
    exact (Hs _ _ _ E').
Qed.

Lemma scan_pure_sound (o : list string) (item : string * Info.t) :
  In item m -> sound m o -> sound m (scan_pure m o item).
Proof.
  intros Hin Hs. unfold scan_pure. destruct (negb _); cbn [andb]; [|exact Hs].
  destruct (ready m o (snd item)) eqn:Hr; [|exact Hs].
  apply (sound_snoc o (fst item) (snd item) Hs); [|exact Hr].
  apply In_dict_get; [exact m_keys|]. destruct item. exact Hin.
Qed.

Lemma fold_scan_sound (items : list (string * Info.t)) (o : list string) :
  incl items m -> sound m o -> sound m (fold_left (scan_pure m) items o).
Proof.
  revert o. induction items as [|item items IH]; intros o Hi Hs; [exact Hs|].
  cbn [fold_left]. apply IH.
  - intros x Hx. apply Hi. right. exact Hx.
  - apply scan_pure_sound; [apply Hi; left; reflexivity|exact Hs].
Qed.

Lemma round_pure_sound (o : list string) : sound m o -> sound m (round_pure m o).
Proof. apply fold_scan_sound, incl_refl. Qed.

End Loop.

(** ** The dependency map of a node list *)

Lemma map_unfold (nodes : list Node.t) :
  Graph.node_state_inputs_map nodes = dict_of node_name info_of nodes.
Proof. reflexivity. Qed.

Lemma map_keys_NoDup (nodes : list Node.t) :
  NoDup (keys (Graph.node_state_inputs_map nodes)).
Proof. apply dict_of_NoDup. Qed.

Lemma In_dict_set {V : Type} (d : dict V) (k k0 : string) (v v0 : V) :
  In (k0, v0) (dict_set d k v) -> In (k0, v0) d \/ (k0 = k /\ v0 = v).
Proof.
  induction d as [|[k' v'] r IH]; cbn.
  - intros [[= <- <-]|[]]. right. split; reflexivity.
  - destruct (String.eqb k k') eqn:E.
    + apply String.eqb_eq in E. subst k'. intros [[= <- <-]|H]; auto.
    + intros [H|H]; auto. destruct (IH H) as [H'|H']; auto.
Qed.

(** Every entry of the map is a node of the list under its name. *)
Lemma map_entries (nodes : list Node.t) (k : string) (info : Info.t) :
  In (k, info) (Graph.node_state_inputs_map nodes) ->
  exists node, In node nodes /\ k = node_name node /\ info = info_of node.
Proof.
  rewrite map_unfold. unfold dict_of.
  assert (G : forall xs (d : dict Info.t),
             In (k, info) (fold_left (fun d x => dict_set d (node_name x) (info_of x)) xs d) ->
             In (k, info) d
             \/ exists node, In node xs /\ k = node_name node /\ info = info_of node).
  { induction xs as [|x xs IH]; cbn [fold_left]; intros d H; [left; exact H|].
    destruct (IH _ H) as [H'|[node [Hn He]]].
    - apply In_dict_set in H' as [H'|[-> ->]]; [left; exact H'|].
      right. exists x. split; [left; reflexivity|split; reflexivity].
    - right. exists node. split; [right; exact Hn|exact He]. }
  intros H. destruct (G nodes [] H) as [[]|H']. exact H'.
Qed.

Lemma map_entry_name (nodes : list Node.t) (k : string) (info : Info.t) :
  In (k, info) (Graph.node_state_inputs_map nodes) -> name (Info.state info) = k.
Proof.
  intros H. apply map_entries in H as [node [_ [-> ->]]]. reflexivity.
Qed.

(** With distinct state names the map lists the nodes in order. *)
Lemma map_distinct (nodes : list Node.t) :
  NoDup (map node_name nodes) ->
  Graph.node_state_inputs_map nodes = map (fun n => (node_name n, info_of n)) nodes.
Proof. intros H. rewrite map_unfold. apply dict_of_distinct, H. Qed.

Lemma map_distinct_get (nodes : list Node.t) (node : Node.t) :
  NoDup (map node_name nodes) -> In node nodes ->
  In (node_name node, info_of node) (Graph.node_state_inputs_map nodes)
  /\ dict_get (Graph.node_state_inputs_map nodes) (node_name node) = Some (info_of node).
Proof.
  intros Hnd Hin.
  assert (H : In (node_name node, info_of node) (Graph.node_state_inputs_map nodes)).
  { rewrite (map_distinct nodes Hnd).
    apply (in_map (fun n => (node_name n, info_of n))), Hin. }
  split; [exact H|]. apply In_dict_get; [apply map_keys_NoDup|exact H].
Qed.

Lemma map_distinct_length (nodes : list Node.t) :
  NoDup (map node_name nodes) ->
  List.length (Graph.node_state_inputs_map nodes) = List.length nodes
  /\ keys (Graph.node_state_inputs_map nodes) = map node_name nodes.
Proof.
  intros H. rewrite (map_distinct nodes H). unfold keys.
  rewrite length_map, map_map. split; reflexivity.
Qed.

(** The assertion on the keys of the map cannot fail: the keys of a
    dictionary are distinct whatever the names of the nodes. *)
Lemma duplicates_assertion_holds (nodes : list Node.t) :
  Graph.order_names nodes
  = Graph.while_loop (Graph.node_state_inputs_map nodes)
      (List.length (Graph.node_state_inputs_map nodes)) 0 [].
Proof.
  unfold Graph.order_names. cbv zeta.
  rewrite (set_of_NoDup _ (map_keys_NoDup nodes)). unfold keys.
  rewrite length_map, Nat.eqb_refl. reflexivity.
Qed.

Lemma order_names_never_duplicates (nodes : list Node.t) :
  Graph.order_names nodes <> Raise AssertionError_duplicates.
Proof.
  rewrite duplicates_assertion_holds.
  generalize (List.length (Graph.node_state_inputs_map nodes)).
  generalize 0. generalize (@nil string).
  intros o e b. revert o e. induction b as [|b IH]; intros o e; cbn [Graph.while_loop].
  - destruct (_ <? _); discriminate.
  - destruct (_ <? _); [|discriminate].
    destruct (Graph.round _ o) as [o'|x] eqn:E; cbn [bind].
    + apply IH.
    + intros [= ->]. revert E. unfold Graph.round.
      generalize (Graph.node_state_inputs_map nodes) at 2.
      intros items. revert o. induction items as [|it items IHi]; intros o;
        cbn [Graph.scan_items]; [discriminate|].
      destruct (Graph.scan _ o it) as [o1|x] eqn:Es; cbn [bind]; [apply IHi|].
      intros [= ->]. revert Es. unfold Graph.scan. destruct it as [k i].
      destruct (Graph.ordered_states _ o) as [sts|x] eqn:Eo; cbn [bind].
      * destruct (negb _); [destruct (_ || _)|]; discriminate.
      * intros [= ->]. revert Eo. generalize (Graph.node_state_inputs_map nodes).
        intros d. clear. induction o as [|k o IHo]; cbn [Graph.ordered_states];
          [discriminate|].
        destruct (dict_get d k); [|discriminate].
        destruct (Graph.ordered_states d o); cbn [bind]; [discriminate|].
        intros [= ->]. apply IHo. reflexivity.
Qed.

(** C3. Two nodes whose states are both named "plant": constructing
    the graph raises nothing; it returns a graph whose execution order
    holds the first node only. *)
Theorem duplicate_names_accepted :
  (s1 <- State_init 1 "plant" None (VNum 1) ;;
   s2 <- State_init 2 "plant" None (VNum 2) ;;
   p1 <- Node.init None None None (Some s1) false ;;
   p2 <- Node.init None None None (Some s2) false ;;
   g <- Graph.init [p1; p2] ;;
   Ret (map (fun n => (oid (Node.state n), node_name n)) (Graph.ordered_nodes g),
        Graph.ordered_nodes_str g))
  = Ret ([(1, "plant")], "plant").
Proof. vm_compute. reflexivity. Qed.

(** ** Cycles in the dependency map *)

Lemma run_rounds_rounds (m : dict Info.t) (n : nat) (o : list string) :
  incl o (keys m) -> run_rounds m n o = Ret (rounds m n o).
Proof.
  revert o. induction n as [|n IH]; intros o Ho; [reflexivity|].
  cbn [run_rounds rounds]. rewrite (round_round_pure m o Ho). cbn [bind].
  apply IH, round_pure_incl, Ho.
Qed.

Lemma unplaced_spec (m : dict Info.t) (o : list string) (x : string) :
  In x (Graph.unplaced m o) <-> In x (keys m) /\ ~ In x o.
Proof.
  unfold Graph.unplaced. rewrite filter_In, negb_true_iff, str_in_false. reflexivity.
Qed.

Section Cycles.
Variable m : dict Info.t.
Hypothesis m_keys : NoDup (keys m).
Hypothesis m_names : forall k info, In (k, info) m -> name (Info.state info) = k.

Lemma on_cycle_next (k : string) :
  on_cycle m k -> exists k', waits_for m k k' /\ on_cycle m k'.
Proof.
  unfold on_cycle. intros H. apply clos_trans_t1n in H.
  inversion H as [y Hw|y z Hw Hrest]; subst.
  - exists k. split; [exact Hw|]. apply t_step. exact Hw.
  - exists y. split; [exact Hw|].
    apply clos_t1n_trans in Hrest.
    eapply t_trans; [exact Hrest|apply t_step; exact Hw].
Qed.

Lemma on_cycle_key (k : string) : on_cycle m k -> In k (keys m).
Proof.
  intros H. destruct (on_cycle_next k H) as [k' [[i [i' [Hi _]]] _]].
  apply dict_get_keys. exists i. exact Hi.
Qed.

(** An entry is placed on an input only after the entry whose state
    that input is. *)
Lemma ready_reads_placed (o : list string) (k k' : string) (i i' : Info.t) :
  dict_get m k' = Some i' -> Info.is_root i = false -> reads i i' = true ->
  ready m o i = true -> In k' o.
Proof.
  intros Hi' Hroot Hreads Hready. unfold ready in Hready. rewrite Hroot, orb_false_r in Hready.
  unfold reads in Hreads. apply existsb_exists in Hreads as [s [Hs Hes]].
  rewrite forallb_forall in Hready. specialize (Hready s Hs).
  apply state_in_spec in Hready as [e [He Hee]].
  unfold placed in He. apply in_flat_map in He as [k2 [Hk2 He]].
  destruct (dict_get m k2) as [i2|] eqn:E2; [|destruct He].
  destruct He as [<-|[]].
  assert (k2 = k'); [|subst; exact Hk2].
  rewrite <- (m_names k2 i2 (dict_get_In _ _ _ E2)).
  rewrite <- (m_names k' i' (dict_get_In _ _ _ Hi')).
  rewrite (State_eqb_name _ _ Hee), (State_eqb_name _ _ Hes). reflexivity.
Qed.

Lemma scan_pure_off_cycle (o : list string) (item : string * Info.t) :
  In item m ->
  (forall k, on_cycle m k -> ~ In k o) ->
  forall k, on_cycle m k -> ~ In k (scan_pure m o item).
Proof.
  intros Hitem Ho k Hk. unfold scan_pure.
  destruct (negb _); cbn [andb]; [|apply Ho, Hk].
  destruct (ready m o (snd item)) eqn:Hr; [|apply Ho, Hk].
  intros Hin. apply in_app_or in Hin as [Hin|[E|[]]]; [exact (Ho k Hk Hin)|].
  destruct item as [k0 i0]. cbn [fst snd] in *. subst k0.
  destruct (on_cycle_next k Hk) as [k' [[i [i' [Hi [Hi' [Hr1 [_ Hreads]]]]]] Hk']].
  assert (i0 = i).
  { pose proof (In_dict_get _ _ _ m_keys Hitem) as H. rewrite H in Hi. congruence. }
  subst i0. apply (Ho k' Hk').
  exact (ready_reads_placed o k k' i i' Hi' Hr1 Hreads Hr).
Qed.

Lemma fold_scan_off_cycle (items : list (string * Info.t)) (o : list string) :
  incl items m ->
  (forall k, on_cycle m k -> ~ In k o) ->
  forall k, on_cycle m k -> ~ In k (fold_left (scan_pure m) items o).
Proof.
  revert o. induction items as [|item items IH]; intros o Hi Ho; [exact Ho|].
  cbn [fold_left]. apply IH.
  - intros x Hx. apply Hi. right. exact Hx.
  - apply scan_pure_off_cycle; [apply Hi; left; reflexivity|exact Ho].
Qed.

Lemma rounds_off_cycle (n : nat) (o : list string) :
  (forall k, on_cycle m k -> ~ In k o) ->
  forall k, on_cycle m k -> ~ In k (rounds m n o).
Proof.
  revert o. induction n as [|n IH]; intros o Ho; [exact Ho|].
  cbn [rounds]. apply IH. apply fold_scan_off_cycle; [apply incl_refl|exact Ho].
Qed.

Lemma cycle_keeps_loop_short (k : string) (n : nat) :
  on_cycle m k -> List.length (rounds m n []) < List.length m.
Proof.
  intros Hk.
  assert (Hnd : NoDup (rounds m n [])) by (apply rounds_NoDup; constructor).
  assert (Hin : incl (rounds m n []) (keys m)) by (apply rounds_incl; intros x []).
  destruct (Nat.lt_ge_cases (List.length (rounds m n [])) (List.length m)) as [H|H];
    [exact H|].
  exfalso. apply (rounds_off_cycle n [] (fun _ _ H => H) k Hk).
  apply (@NoDup_length_incl _ (rounds m n []) (keys m) Hnd); [|exact Hin|apply on_cycle_key, Hk].
  unfold keys. rewrite length_map. exact H.
Qed.

Lemma cycle_while_loop (k : string) :
  on_cycle m k ->
  Graph.while_loop m (List.length m) 0 []
  = Raise (AssertionError_unresolved (List.length m)
             (Graph.unplaced m (rounds m (List.length m) []))).
Proof.
  intros Hk. rewrite while_loop_raises; [reflexivity|intros x []|].
  intros i _. apply (cycle_keeps_loop_short k i Hk).
Qed.

End Cycles.

Lemma resolve_raises (nodes : list Node.t) (e : exn) :
  Graph.order_names nodes = Raise e -> Graph.resolve nodes = Raise e.
Proof. unfold Graph.resolve. intros ->. reflexivity. Qed.

Lemma init_resolve (declared nodes : list Node.t) (lists : list (list State))
      (states : list State) :
  Graph.all_states declared = Ret lists ->
  Graph.reduce_concat lists = Ret states ->
  Graph.resolve_inputs declared states = Ret nodes ->
  Graph.init declared =
  (ordered_nodes <- Graph.resolve nodes ;;
   Ret (Graph.mk nodes ordered_nodes (Graph.join_arrow (map node_name ordered_nodes)))).
Proof.
  unfold Graph.init. intros H1 H2 H3.
  rewrite H1. cbn [bind]. rewrite H2. cbn [bind]. rewrite H3. reflexivity.
Qed.

Lemma node_cycle_key_cycle (nodes : list Node.t) (n n' : Node.t) :
  NoDup (map node_name nodes) ->
  clos_trans Node.t (node_waits_for nodes) n n' ->
  clos_trans string (waits_for (Graph.node_state_inputs_map nodes))
             (node_name n) (node_name n').
Proof.
  intros Hnd H. induction H as [a b [Ha [Hb [Hra [Hrb Hr]]]]|a b c _ IH1 _ IH2].
  - apply t_step. exists (info_of a), (info_of b).
    split; [apply (map_distinct_get nodes a Hnd Ha)|].
    split; [apply (map_distinct_get nodes b Hnd Hb)|].
    repeat split; assumption.
  - eapply t_trans; eassumption.
Qed.

(** C2, amended. For nodes with pairwise distinct state names, if nodes
    that are not roots wait for each other in a cycle, each having
    among its resolved inputs a state that is ([==]) the state of the
    next, [Graph.resolve] runs its N rounds (N the number of nodes) and
    raises the [AssertionError] of the loop; the names in its message
    are exactly the state names of the nodes not placed after these
    rounds, the names of the nodes on such cycles among them; and
    constructing a [Graph] whose nodes resolve their inputs to these
    raises this error. *)
Theorem cycle_rejected (nodes : list Node.t) (n : Node.t) :
  NoDup (map node_name nodes) ->
  clos_trans Node.t (node_waits_for nodes) n n ->
  exists o,
    run_rounds (Graph.node_state_inputs_map nodes) (List.length nodes) [] = Ret o
    /\ Graph.resolve nodes
       = Raise (AssertionError_unresolved
                  (List.length nodes)
                  (Graph.unplaced (Graph.node_state_inputs_map nodes) o))
    /\ (forall x, In x (Graph.unplaced (Graph.node_state_inputs_map nodes) o)
                  <-> In x (map node_name nodes) /\ ~ In x o)
    /\ (forall n', clos_trans Node.t (node_waits_for nodes) n' n' ->
                   In (node_name n') (Graph.unplaced (Graph.node_state_inputs_map nodes) o))
    /\ (forall declared lists states,
          Graph.all_states declared = Ret lists ->
          Graph.reduce_concat lists = Ret states ->
          Graph.resolve_inputs declared states = Ret nodes ->
          Graph.init declared
          = Raise (AssertionError_unresolved
                     (List.length nodes)
                     (Graph.unplaced (Graph.node_state_inputs_map nodes) o))).
Proof.
  intros Hnd Hn. destruct (map_distinct_length nodes Hnd) as [Hlen Hkeysn].
  rewrite <- Hlen, <- Hkeysn.
  set (m := Graph.node_state_inputs_map nodes) in *.
  pose proof (map_keys_NoDup nodes) as Hkeys. fold m in Hkeys.
  pose proof (map_entry_name nodes) as Hnames. fold m in Hnames.
  pose proof (node_cycle_key_cycle nodes n n Hnd Hn) as Hk. fold m in Hk.
  exists (rounds m (List.length m) []).
  assert (Hres : Graph.resolve nodes
                 = Raise (AssertionError_unresolved (List.length m)
                            (Graph.unplaced m (rounds m (List.length m) [])))).
  { apply resolve_raises. rewrite duplicates_assertion_holds. fold m.
    apply (cycle_while_loop m Hkeys Hnames _ Hk). }
  split; [apply run_rounds_rounds; intros x []|].
  split; [exact Hres|].
  split; [apply unplaced_spec|].
  split.
  - intros n' Hn'. pose proof (node_cycle_key_cycle nodes n' n' Hnd Hn') as Hk'.
    fold m in Hk'. apply unplaced_spec. split.
    + apply (on_cycle_key m _ Hk').
    + apply (rounds_off_cycle m Hkeys Hnames _ [] (fun _ _ H => H) _ Hk').
  - intros declared lists states H1 H2 H3.
    rewrite (init_resolve declared nodes lists states H1 H2 H3), Hres. reflexivity.
Qed.

(** B reads C, C reads B, neither is a root. *)
Lemma cycle_rejected_witness :
  let sB := mkState 1 "B" None VNone true None in
  let sC := mkState 2 "C" None VNone true None in
  Graph.init [Node.mk (Inputs.init ["C"]) sB false None;
              Node.mk (Inputs.init ["B"]) sC false None]
  = Raise (AssertionError_unresolved 2 ["B"; "C"]).
Proof.
  intros sB sC.
  pose (b := Node.mk (Inputs.mk ["C"] [sC] true) sB false None).
  pose (c := Node.mk (Inputs.mk ["B"] [sB] true) sC false None).
  assert (Hnd : NoDup (map node_name [b; c])).
  { repeat constructor; cbn; intuition discriminate. }
  assert (Hcycle : clos_trans Node.t (node_waits_for [b; c]) b b).
  { apply t_trans with c; apply t_step; unfold node_waits_for; cbn; intuition. }
  destruct (cycle_rejected [b; c] b Hnd Hcycle) as [o [Hrun [_ [_ [_ Hinit]]]]].
  vm_compute in Hrun. injection Hrun as <-.
  rewrite (Hinit _ [[sB]; [sC]] [sB; sC]); reflexivity.
Defined.

(** C2 as stated fails: a cycle among nodes that are not roots does not
    always make the construction fail.  With two nodes whose states are
    both named "B", the first reading C and C reading "B", the inputs
    resolve to a cycle between the first node and C, but the map keeps
    one entry for the name "B", that of the second node, which has no
    inputs: the graph is constructed, with the order B, C, in which
    the first node comes before the node it reads.  With distinct
    names, let plant hold the leaf x and read B, and let B read "x",
    which resolves to the leaf inside plant, while another node has a
    leaf state named "x" equal to it: B's input is owned by plant and
    plant's input is B's state, yet B is placed after the other node,
    whose state is equal to its input, and the graph is constructed. *)
Lemma node_cycle_accepted :
  let sB1 := mkState 1 "B" None VNone true None in
  let sB2 := mkState 2 "B" None VNone true None in
  let sC := mkState 3 "C" None VNone true None in
  let b1 := Node.mk (Inputs.mk ["C"] [sC] true) sB1 false None in
  let b2 := Node.mk (Inputs.mk [] [] true) sB2 false None in
  let c := Node.mk (Inputs.mk ["B"] [sB1] true) sC false None in
  let x := mkState 2 "x" None (VNum 1) true None in
  let plant := mkState 1 "plant" None (VList [VState x]) false None in
  let x' := mkState 5 "x" None (VNum 1) true None in
  let sB := mkState 3 "B" None VNone true None in
  let p := Node.mk (Inputs.mk ["B"] [sB] true) plant false None in
  let q := Node.mk (Inputs.mk [] [] true) x' false None in
  let b := Node.mk (Inputs.mk ["x"] [x] true) sB false None in
  (Graph.init [Node.mk (Inputs.init ["C"]) sB1 false None;
               Node.mk (Inputs.init []) sB2 false None;
               Node.mk (Inputs.init ["B"]) sC false None]
   = Ret (Graph.mk [b1; b2; c] [b1; c] "B -> C")
   /\ node_waits_for [b1; b2; c] b1 c /\ node_waits_for [b1; b2; c] c b1)
  /\ (Graph.init [Node.mk (Inputs.init ["B"]) plant false None;
                  Node.mk (Inputs.init []) x' false None;
                  Node.mk (Inputs.init ["x"]) sB false None]
      = Ret (Graph.mk [p; q; b] [q; b; p] "x -> B -> plant")
      /\ NoDup (map node_name [p; q; b])
      /\ get_all_states (Node.state p) = Ret [x]
      /\ Inputs.states (Node.inputs b) = [x]
      /\ Inputs.states (Node.inputs p) = [Node.state b]
      /\ Node.is_root p = false /\ Node.is_root b = false
      /\ x <> Node.state q).
Proof.
  cbv zeta. split.
  - split; [vm_compute; reflexivity|].
    unfold node_waits_for; cbn; intuition.
  - split; [vm_compute; reflexivity|].
    split; [repeat constructor; cbn; intuition discriminate|].
    repeat split; try reflexivity. discriminate.
Qed.

(** ** Roots *)

Lemma while_loop_ret (m : dict Info.t) (budget elapsed : nat) (o names : list string)
      (r : nat) :
  incl o (keys m) ->
  Graph.while_loop m budget elapsed o = Ret (names, r) ->
  exists j, names = rounds m j o /\ r = elapsed + j /\ j <= budget
            /\ List.length m <= List.length names
            /\ (List.length o < List.length m -> 1 <= j).
Proof.
  revert elapsed o. induction budget as [|b IH]; intros elapsed o Ho;
    cbn [Graph.while_loop]; destruct (List.length o <? List.length m) eqn:E.
  - discriminate.
  - apply Nat.ltb_ge in E. intros [= <- <-]. exists 0. cbn [rounds].
    repeat split; auto; lia.
  - rewrite (round_round_pure m o Ho). cbn [bind]. intros H.
    apply IH in H as [j [-> [-> [Hj [Hl _]]]]]; [|apply round_pure_incl, Ho].
    exists (S j). cbn [rounds]. repeat split; auto; lia.
  - apply Nat.ltb_ge in E. intros [= <- <-]. exists 0. cbn [rounds].
    repeat split; auto; lia.
Qed.



(** With pairwise distinct state names every node is an entry. *)
Lemma root_node_placed_first_round (nodes : list Node.t) (node : Node.t) :
  NoDup (map node_name nodes) -> In node nodes -> Node.is_root node = true ->
  exists first_round,
    Graph.round (Graph.node_state_inputs_map nodes) [] = Ret first_round
    /\ In (node_name node) first_round.
Proof.
  intros Hnd Hin Hroot. set (m := Graph.node_state_inputs_map nodes).
  exists (round_pure m []). split; [apply round_round_pure; intros x []|].
  apply (fold_scan_places m m [] (node_name node) (info_of node)).
  - apply (map_distinct_get nodes node Hnd Hin).
  - unfold ready. cbn [info_of Info.is_root]. rewrite Hroot. apply orb_true_r.
Qed.

(** ** Finite relations without cycles *)

Section Minimal.
Context {A : Type} (eq_dec : forall x y : A, {x = y} + {x <> y}).
Variable R : A -> A -> bool.
Variable U : list A.

(** A path that returns to one of its points makes a cycle. *)
Lemma repeated_point_cycle (l : list A) :
  StronglySorted (clos_trans A (within R U)) l -> ~ NoDup l ->
  exists x, clos_trans A (within R U) x x.
Proof.
  induction 1 as [|a l Hl IH Ha]; intros Hnd.
  - exfalso. apply Hnd. constructor.
  - destruct (in_dec eq_dec a l) as [Hin|Hnin].
    + exists a. rewrite Forall_forall in Ha. exact (Ha a Hin).
    + apply IH. intros Hl'. apply Hnd. constructor; assumption.
Qed.

(** If every member of [U] has a successor in [U], paths of any length
    start from every member. *)
Lemma long_path (n : nat) (u : A) :
  (forall x, In x U -> exists y, In y U /\ R x y = true) ->
  In u U ->
  exists l, List.length l = n /\ incl (u :: l) U
            /\ Sorted (clos_trans A (within R U)) (u :: l).
Proof.
  intros Hsucc. revert u. induction n as [|n IH]; intros u Hu.
  - exists []. split; [reflexivity|]. split; [|repeat constructor].
    intros x [<-|[]]. exact Hu.
  - destruct (Hsucc u Hu) as [v [Hv Huv]].
    destruct (IH v Hv) as [l [Hlen [Hincl Hsorted]]].
    exists (v :: l). split; [cbn; rewrite Hlen; reflexivity|]. split.
    + intros x [<-|Hx]; [exact Hu|apply Hincl, Hx].
    + constructor; [exact Hsorted|]. constructor. apply t_step.
      split; [exact Hu|split; assumption].
Qed.

(** A non-empty [U] has a member with no successor in [U], or [R] has
    a cycle within [U]. *)
Lemma minimal_or_cycle :
  U <> [] ->
  (exists u, In u U /\ forall v, In v U -> R u v = false)
  \/ (exists x, clos_trans A (within R U) x x).
Proof.
  intros Hne.
  destruct (existsb (fun u => negb (existsb (R u) U)) U) eqn:E.
  - left. apply existsb_exists in E as [u [Hu Hmin]]. exists u. split; [exact Hu|].
    intros v Hv. apply negb_true_iff in Hmin.
    destruct (R u v) eqn:Ruv; [|reflexivity].
    assert (H : existsb (R u) U = true) by (apply existsb_exists; eauto).
    congruence.
  - right.
    assert (Hsucc : forall x, In x U -> exists y, In y U /\ R x y = true).
    { intros x Hx. destruct (existsb (R x) U) eqn:Ex.
      - apply existsb_exists in Ex. exact Ex.
      - assert (H : existsb (fun u => negb (existsb (R u) U)) U = true).
        { apply existsb_exists. exists x. split; [exact Hx|]. rewrite Ex. reflexivity. }
        congruence. }
    destruct U as [|u0 U'] eqn:EU; [contradiction|]. rewrite <- EU in *.
    assert (Hu0 : In u0 U) by (rewrite EU; left; reflexivity).
    destruct (long_path (List.length U) u0 Hsucc Hu0) as [l [Hlen [Hincl Hsorted]]].
    apply (repeated_point_cycle (u0 :: l)).
    + apply Sorted_StronglySorted; [|exact Hsorted].
      intros x y z Hxy Hyz. eapply t_trans; eassumption.
    + intros Hnd. pose proof (NoDup_incl_length Hnd Hincl) as Hle.
      cbn in Hle. lia.
Qed.

End Minimal.

(** ** Graph.resolve on an acyclic dependency map *)

Section Progress.
Variable m : dict Info.t.
Hypothesis m_keys : NoDup (keys m).
Hypothesis m_names : forall k info, In (k, info) m -> name (Info.state info) = k.

(** Every input of an entry that is not a root is the state of an entry. *)
Hypothesis inputs_owned :
  forall k i s, dict_get m k = Some i -> Info.is_root i = false -> In s (Info.inputs i) ->
                exists k' i', dict_get m k' = Some i' /\ State_eqb (Info.state i') s = true.

Hypothesis no_cycle : forall k, ~ clos_trans string (waits_for m) k k.

(** While a name is missing, one of the missing entries is ready. *)
Lemma some_entry_ready (o : list string) :
  Graph.unplaced m o <> [] ->
  exists k i, In (k, i) m /\ ~ In k o /\ ready m o i = true.
Proof.
  intros Hne. set (U := Graph.unplaced m o) in *.
  assert (HU : forall k, In k U -> exists i, dict_get m k = Some i /\ ~ In k o).
  { intros k Hk. apply unplaced_spec in Hk as [Hk Hko].
    apply dict_get_keys in Hk as [i Hi]. exists i. split; assumption. }
  destruct (existsb (root_key m) U) eqn:Eroot.
  - apply existsb_exists in Eroot as [k [Hk Hr]]. destruct (HU k Hk) as [i [Hi Hko]].
    exists k, i. split; [apply dict_get_In, Hi|]. split; [exact Hko|].
    unfold root_key in Hr. rewrite Hi in Hr. unfold ready. rewrite Hr. apply orb_true_r.
  - assert (Hnr : forall k i, In k U -> dict_get m k = Some i -> Info.is_root i = false).
    { intros k i Hk Hi. destruct (Info.is_root i) eqn:E; [|reflexivity].
      assert (H : existsb (root_key m) U = true).
      { apply existsb_exists. exists k. split; [exact Hk|]. unfold root_key.
        rewrite Hi. exact E. }
      congruence. }
    destruct (minimal_or_cycle string_dec (reads_key m) U Hne) as [[u [Hu Hmin]]|[x Hx]].
    + destruct (HU u Hu) as [i [Hi Huo]]. exists u, i.
      split; [apply dict_get_In, Hi|]. split; [exact Huo|].
      unfold ready. apply orb_true_iff. left. apply forallb_forall. intros s Hs.
      destruct (inputs_owned u i s Hi (Hnr u i Hu Hi) Hs) as [k' [i' [Hi' Hes]]].
      apply state_in_spec. exists (Info.state i'). split; [|exact Hes].
      assert (Hk'o : In k' o).
      { destruct (str_in k' o) eqn:E; [apply str_in_In, E|]. exfalso.
        assert (Hk'U : In k' U).
        { apply unplaced_spec. split; [apply dict_get_keys; eauto|].
          apply str_in_false, E. }
        specialize (Hmin k' Hk'U). unfold reads_key in Hmin. rewrite Hi, Hi' in Hmin.
        unfold reads in Hmin.
        assert (H : existsb (fun s0 => State_eqb (Info.state i') s0) (Info.inputs i) = true).
        { apply existsb_exists. exists s. split; assumption. }
        congruence. }
      unfold placed. apply in_flat_map. exists k'. split; [exact Hk'o|].
      rewrite Hi'. left. reflexivity.
    + exfalso. apply (no_cycle x). clear -Hx HU Hnr.
      assert (G : forall a b, clos_trans string (within (reads_key m) U) a b ->
                              clos_trans string (waits_for m) a b); [|exact (G x x Hx)].
      clear Hx. intros a b Hx.
      induction Hx as [a b [Ha [Hb Hab]]|a b c _ IH1 _ IH2].
      * apply t_step. destruct (HU a Ha) as [i [Hi _]]. destruct (HU b Hb) as [i' [Hi' _]].
        exists i, i'. unfold reads_key in Hab. rewrite Hi, Hi' in Hab.
        split; [exact Hi|]. split; [exact Hi'|].
        split; [exact (Hnr a i Ha Hi)|]. split; [exact (Hnr b i' Hb Hi')|exact Hab].
      * eapply t_trans; eassumption.
Qed.

Lemma round_keeps_invariant (o : list string) :
  ordering_invariant m o -> ordering_invariant m (round_pure m o).
Proof.
  intros [[Hi Hn] Hs]. split; [split|].
  - apply round_pure_incl, Hi.
  - apply fold_scan_NoDup, Hn.
  - apply round_pure_sound; assumption.
Qed.

Lemma round_makes_progress (o : list string) :
  ordering_invariant m o -> List.length o < List.length m ->
  List.length o < List.length (round_pure m o).
Proof.
  intros [[Hi Hn] _] Hlt.
  assert (Hne : Graph.unplaced m o <> []).
  { intros E.
    assert (Hall : incl (keys m) o).
    { intros k Hk. destruct (str_in k o) eqn:Ek; [apply str_in_In, Ek|].
      assert (H : In k (Graph.unplaced m o)).
      { apply unplaced_spec. split; [exact Hk|apply str_in_false, Ek]. }
      rewrite E in H. destruct H. }
    pose proof (NoDup_incl_length m_keys Hall) as H. unfold keys in H.
    rewrite length_map in H. lia. }
  destruct (some_entry_ready o Hne) as [k [i [Hki [Hko Hr]]]].
  pose proof (fold_scan_places m m o k i Hki Hr) as Hin.
  destruct (fold_scan_extends m m o) as [added Ha]. unfold round_pure.
  rewrite Ha in *. rewrite length_app.
  apply in_app_or in Hin as [Hin|Hin]; [contradiction|].
  destruct added; [destruct Hin|cbn; lia].
Qed.

(** The loop returns, after at most as many rounds as there are
    entries, an order that holds every name once, each after the names
    it was waiting for. *)
Lemma while_loop_orders :
  exists j, j <= List.length m
            /\ Graph.while_loop m (List.length m) 0 [] = Ret (rounds m j [], j)
            /\ Permutation (rounds m j []) (keys m)
            /\ sound m (rounds m j []).
Proof.
  destruct (while_loop_returns m (ordering_invariant m)
              (fun o H => proj1 H) round_keeps_invariant round_makes_progress
              (List.length m) 0 [])
    as [j [Hj [Hw [[[Hi Hn] Hs] Hl]]]].
  - split; [split; [intros x []|constructor]|].
    intros l1 k l2 E. destruct l1; discriminate.
  - lia.
  - exists j. split; [exact Hj|]. split; [exact Hw|]. split; [|exact Hs].
    apply NoDup_Permutation_bis; [exact Hn| |exact Hi].
    unfold keys. rewrite length_map. lia.
Qed.

End Progress.

(** ** Graph.resolve on nodes with distinct state names *)

Section DistinctNames.
Variable nodes : list Node.t.
Hypothesis distinct : NoDup (map node_name nodes).

Lemma node_name_inj (x y : Node.t) :
  In x nodes -> In y nodes -> node_name x = node_name y -> x = y.
Proof.
  clear -distinct. induction nodes as [|a l IH]; [intros []|].
  inversion distinct as [|? ? Ha Hl]; subst.
  intros [->|Hx] [->|Hy] E; auto.
  - exfalso. apply Ha. rewrite E. apply in_map, Hy.
  - exfalso. apply Ha. rewrite <- E. apply in_map, Hx.
Qed.

Lemma key_node (k : string) (i : Info.t) :
  dict_get (Graph.node_state_inputs_map nodes) k = Some i ->
  exists n, In n nodes /\ node_name n = k /\ info_of n = i.
Proof.
  intros H. apply dict_get_In, map_entries in H as [n [Hn [-> ->]]]. eauto.
Qed.

Lemma node_named_distinct (n : Node.t) :
  In n nodes -> Graph.node_named nodes (node_name n) = Ret n.
Proof.
  intros Hn. unfold Graph.node_named.
  assert (G : forall l, incl l nodes -> In n l ->
              exists rest,
                filter (fun node => String.eqb (name (Node.state node)) (node_name n)) l
                = n :: rest).
  { induction l as [|a l IH]; intros Hl Hin; [destruct Hin|]. cbn [filter].
    destruct (String.eqb (name (Node.state a)) (node_name n)) eqn:E.
    - apply String.eqb_eq in E. eexists. f_equal.
      apply node_name_inj; [apply Hl; left; reflexivity|exact Hn|exact E].
    - destruct Hin as [->|Hin].
      + unfold node_name in E. rewrite String.eqb_refl in E. discriminate.
      + apply IH; [|exact Hin]. intros x Hx. apply Hl. right. exact Hx. }
  destruct (G nodes (incl_refl _) Hn) as [rest ->]. reflexivity.
Qed.

Lemma nodes_named_distinct (o : list string) :
  incl o (map node_name nodes) ->
  exists ordered, Graph.nodes_named nodes o = Ret ordered
                  /\ map node_name ordered = o /\ incl ordered nodes.
Proof.
  induction o as [|k o IH]; intros Ho.
  - exists []. repeat split. intros x [].
  - assert (Hk : In k (map node_name nodes)) by (apply Ho; left; reflexivity).
    apply in_map_iff in Hk as [n [<- Hn]].
    destruct IH as [ordered [H1 [H2 H3]]]; [intros x Hx; apply Ho; right; exact Hx|].
    exists (n :: ordered). cbn [Graph.nodes_named].
    rewrite (node_named_distinct n Hn). cbn [bind]. rewrite H1. cbn [bind].
    split; [reflexivity|]. split; [cbn; rewrite H2; reflexivity|].
    intros x [<-|Hx]; auto.
Qed.

Lemma ordered_permutation (ordered : list Node.t) :
  incl ordered nodes -> Permutation (map node_name ordered) (map node_name nodes) ->
  Permutation ordered nodes.
Proof.
  intros Hincl Hperm.
  assert (Hnd : NoDup (map node_name ordered)).
  { apply (Permutation_NoDup (Permutation_sym Hperm) distinct). }
  apply NoDup_Permutation.
  - apply (NoDup_map_inv _ _ Hnd).
  - apply (NoDup_map_inv _ _ distinct).
  - intros x. split; [apply Hincl|]. intros Hx.
    assert (H : In (node_name x) (map node_name ordered)).
    { apply (Permutation_in _ (Permutation_sym Hperm)), in_map, Hx. }
    apply in_map_iff in H as [y [E Hy]].
    rewrite <- (node_name_inj y x (Hincl y Hy) Hx E). exact Hy.
Qed.

(** A cycle of entries is a cycle of nodes. *)
Lemma key_cycle_node_cycle (k k' : string) :
  clos_trans string (waits_for (Graph.node_state_inputs_map nodes)) k k' ->
  exists n n', In n nodes /\ In n' nodes /\ node_name n = k /\ node_name n' = k'
               /\ clos_trans Node.t (depends_on nodes) n n'.
Proof.
  induction 1 as [a b [i [i' [Hi [Hi' [_ [_ Hr]]]]]]|a b c _ IH1 _ IH2].
  - destruct (key_node a i Hi) as [n [Hn [Ea Ei]]].
    destruct (key_node b i' Hi') as [n' [Hn' [Eb Ei']]].
    exists n, n'. repeat split; auto. apply t_step.
    split; [exact Hn|]. split; [exact Hn'|]. unfold node_reads. rewrite Ei, Ei'. exact Hr.
  - destruct IH1 as [n [n1 [Hn [Hn1 [Ea [Eb H1]]]]]].
    destruct IH2 as [n2 [n' [Hn2 [Hn' [Eb' [Ec H2]]]]]].
    assert (n1 = n2) by (apply node_name_inj; congruence). subst n2.
    exists n, n'. repeat split; auto. eapply t_trans; eassumption.
Qed.

Lemma acyclic_no_key_cycle :
  acyclic nodes ->
  forall k, ~ clos_trans string (waits_for (Graph.node_state_inputs_map nodes)) k k.
Proof.
  intros Hacyc k Hk.
  destruct (key_cycle_node_cycle k k Hk) as [n [n' [Hn [Hn' [E [E' H]]]]]].
  assert (n = n') by (apply node_name_inj; congruence). subst n'.
  exact (Hacyc n H).
Qed.

Lemma node_inputs_owned :
  inputs_are_node_states nodes ->
  forall k i s,
    dict_get (Graph.node_state_inputs_map nodes) k = Some i ->
    Info.is_root i = false -> In s (Info.inputs i) ->
    exists k' i', dict_get (Graph.node_state_inputs_map nodes) k' = Some i'
                  /\ State_eqb (Info.state i') s = true.
Proof.
  intros Hown k i s Hi Hroot Hs.
  destruct (key_node k i Hi) as [n [Hn [_ <-]]].
  destruct (Hown n s Hn Hroot Hs) as [n' [Hn' He]].
  exists (node_name n'), (info_of n').
  split; [apply (map_distinct_get nodes n' distinct Hn')|exact He].
Qed.

(** C1, amended. For nodes with pairwise distinct state names, whose
    dependency relation is acyclic and in which every resolved input of
    a node that is not a root is the state of one of the nodes,
    [Graph.resolve] returns after at most N rounds (N the number of
    nodes); the order is a permutation of the nodes in which every node
    that is not a root comes strictly after each node whose state is
    one of its resolved inputs. *)
Theorem resolve_acyclic :
  inputs_are_node_states nodes -> acyclic nodes ->
  exists ordered rounds_run,
    Graph.order_names nodes = Ret (map node_name ordered, rounds_run)
    /\ rounds_run <= List.length nodes
    /\ Graph.resolve nodes = Ret ordered
    /\ Permutation ordered nodes
    /\ forall before n after,
        ordered = before ++ n :: after -> Node.is_root n = false ->
        forall n', In n' nodes -> node_reads n n' = true -> In n' before.
Proof.
  intros Hown Hacyc. set (m := Graph.node_state_inputs_map nodes).
  pose proof (map_keys_NoDup nodes) as Hkeys. fold m in Hkeys.
  pose proof (map_entry_name nodes) as Hnames. fold m in Hnames.
  destruct (map_distinct_length nodes distinct) as [Hlen Hk]. fold m in Hlen, Hk.
  destruct (while_loop_orders m Hkeys (node_inputs_owned Hown)
              (acyclic_no_key_cycle Hacyc)) as [j [Hj [Hw [Hperm Hsound]]]].
  rewrite Hk in Hperm.
  destruct (nodes_named_distinct (rounds m j [])) as [ordered [Hnamed [Hmap Hincl]]].
  { intros x Hx. apply (Permutation_in _ Hperm Hx). }
  assert (Horder : Graph.order_names nodes = Ret (map node_name ordered, j)).
  { rewrite duplicates_assertion_holds. fold m. rewrite Hw, Hmap. reflexivity. }
  exists ordered, j. split; [exact Horder|]. split; [lia|].
  split; [unfold Graph.resolve; rewrite Horder; cbn [bind fst]; rewrite Hmap; exact Hnamed|].
  split; [apply ordered_permutation; [exact Hincl|rewrite Hmap; exact Hperm]|].
  intros before n after E Hroot n' Hn' Hreads.
  assert (Hn : In n nodes) by (apply Hincl; rewrite E; apply in_elt).
  assert (Eo : rounds m j [] = map node_name before ++ node_name n :: map node_name after).
  { rewrite <- Hmap, E, map_app. reflexivity. }
  destruct (Hsound _ _ _ Eo) as [i [Hi Hready]].
  destruct (map_distinct_get nodes n distinct Hn) as [_ Hget]. fold m in Hget.
  rewrite Hget in Hi. injection Hi as <-.
  destruct (map_distinct_get nodes n' distinct Hn') as [_ Hget'].
  pose proof (ready_reads_placed m Hnames (map node_name before) (node_name n)
                (node_name n') (info_of n) (info_of n') Hget' Hroot Hreads Hready) as Hin.
  apply in_map_iff in Hin as [x [Ex Hx]].
  assert (x = n'); [|subst; exact Hx].
  apply node_name_inj; [|exact Hn'|exact Ex].
  apply Hincl. rewrite E. apply in_or_app. left. exact Hx.
Qed.

End DistinctNames.

(** A numbering that decreases along the dependencies excludes cycles. *)
Lemma acyclic_by_rank (nodes : list Node.t) (rank : Node.t -> nat) :
  (forall n n', depends_on nodes n n' -> rank n' < rank n) -> acyclic nodes.
Proof.
  intros Hrank n Hn.
  assert (G : forall a b, clos_trans Node.t (depends_on nodes) a b -> rank b < rank a).
  { induction 1 as [a b H|a b c _ IH1 _ IH2]; [apply Hrank, H|lia]. }
  specialize (G n n Hn). lia.
Qed.


(** The chain A (root), B reads A, C reads B, declared as C, A, B. *)
Lemma chain_names_distinct : NoDup (map node_name Chain.nodes).
Proof. repeat constructor; cbn; intuition discriminate. Qed.

Lemma chain_states_owned : inputs_are_node_states Chain.nodes.
Proof.
  intros n s Hn _ Hs.
  destruct Hn as [<-|[<-|[<-|[]]]]; cbn in Hs.
  - destruct Hs as [<-|[]]. exists Chain.B. split; [cbn; auto|reflexivity].
  - destruct Hs.
  - destruct Hs as [<-|[]]. exists Chain.A. split; [cbn; auto|reflexivity].
Qed.

Lemma chain_acyclic : acyclic Chain.nodes.
Proof.
  apply (acyclic_by_rank Chain.nodes Chain.rank). intros n n' [Hn [Hn' Hr]].
  destruct Hn as [<-|[<-|[<-|[]]]]; destruct Hn' as [<-|[<-|[<-|[]]]];
    vm_compute in Hr; try discriminate; vm_compute; lia.
Qed.

Example chain_order : Graph.resolve Chain.nodes = Ret [Chain.A; Chain.B; Chain.C].
Proof. reflexivity. Qed.

(** The same chain constructed from its declared paths. *)
Example chain_constructed :
  (g <- Graph.init [Node.mk (Inputs.init ["B"]) Chain.sC false None;
                    Node.mk (Inputs.init []) Chain.sA true None;
                    Node.mk (Inputs.init ["A"]) Chain.sB false None] ;;
   Ret (map Node.inputs (Graph.ordered_nodes g), Graph.ordered_nodes_str g))
  = Ret ([Inputs.mk [] [] true; Inputs.mk ["A"] [Chain.sA] true;
          Inputs.mk ["B"] [Chain.sB] true], "A -> B -> C").
Proof. reflexivity. Qed.

(** The catalog holds leaves, so the leaf x of plant is found under the
    path x.  It is not the state of a node, and is never found among
    the states of the placed nodes: B, which reads it, stays unplaced
    although the node of plant is a root. *)
Example inner_leaf_input_unplaced :
  Graph.init [Node.mk (Inputs.init []) Plant.plant true None;
              Node.mk (Inputs.init ["x"]) Chain.sB false None]
  = Raise (AssertionError_unresolved 2 ["B"]).
Proof. reflexivity. Qed.

Lemma resolve_acyclic_witness :
  exists ordered rounds_run,
    Graph.order_names Chain.nodes = Ret (map node_name ordered, rounds_run)
    /\ rounds_run <= 3
    /\ Graph.resolve Chain.nodes = Ret ordered
    /\ Permutation ordered Chain.nodes
    /\ forall before n after,
        ordered = before ++ n :: after -> Node.is_root n = false ->
        forall n', In n' Chain.nodes -> node_reads n n' = true -> In n' before.
Proof.
  exact (resolve_acyclic Chain.nodes chain_names_distinct chain_states_owned
           chain_acyclic).
Defined.

(** C1 as stated fails for a root: R is a root and reads the state of
    B, which reads nothing.  The dependencies are acyclic and there is
    a root, and the order is R, B: R comes before the node that owns
    its input.  It also fails for an input inside a hierarchical state:
    B reads the leaf x of the state of the root P; no node waits for
    itself, and [Graph.resolve] raises with B unplaced. *)
Lemma acyclic_with_root_not_ordered :
  let sR := mkState 1 "R" None (VNum 0) true None in
  let sB := mkState 2 "B" None VNone true None in
  let R := Node.mk (Inputs.mk ["B"] [sB] true) sR true None in
  let B := Node.mk (Inputs.init []) sB false None in
  let P := Node.mk (Inputs.mk [] [] true) Plant.plant true None in
  let B' := Node.mk (Inputs.mk ["x"] [Plant.x] true) sB false None in
  (acyclic [R; B]
   /\ Node.is_root R = true
   /\ Graph.resolve [R; B] = Ret [R; B]
   /\ node_reads R B = true
   /\ ~ (forall before n after,
           [R; B] = before ++ n :: after ->
           forall n', In n' [R; B] -> node_reads n n' = true -> In n' before))
  /\ (acyclic [P; B']
      /\ Node.is_root P = true
      /\ get_all_states (Node.state P) = Ret [Plant.x; Plant.y]
      /\ Inputs.states (Node.inputs B') = [Plant.x]
      /\ Graph.resolve [P; B'] = Raise (AssertionError_unresolved 2 ["B"])).
Proof.
  intros sR sB R B P B'. split.
  - split.
    { apply (acyclic_by_rank [R; B] (fun n => 2 - oid (Node.state n))).
      intros n n' [Hn [Hn' Hr]].
      destruct Hn as [<-|[<-|[]]]; destruct Hn' as [<-|[<-|[]]];
        vm_compute in Hr; try discriminate; vm_compute; lia. }
    split; [reflexivity|]. split; [reflexivity|]. split; [reflexivity|].
    intros H. apply (H [] R [B] eq_refl B); [right; left; reflexivity|reflexivity].
  - split.
    { apply (acyclic_by_rank [P; B'] (fun _ => 0)).
      intros n n' [Hn [Hn' Hr]].
      destruct Hn as [<-|[<-|[]]]; destruct Hn' as [<-|[<-|[]]];
        vm_compute in Hr; discriminate. }
    repeat split; reflexivity.
Qed.

(** ** Paths and search *)

Lemma State_substates_ind (P : State -> Prop) :
  (forall s, (forall c, In c (substates s) -> P c) -> P s) -> forall s, P s.
Proof.
  intros H. fix IH 1. intros s. apply H. destruct s as [i n d v lf y].
  unfold substates. cbn [is_leaf _value]. destruct lf; [intros c []|].
  destruct v as [|z|l|st|l]; try (intros c []);
    (induction l as [|x l IHl]; [intros c []|];
     destruct x as [|z|l'|c'|t']; cbn [states_of]; try exact IHl;
     intros c [<-|Hc]; [apply IH|exact (IHl c Hc)]).
Qed.

Lemma distinctb_NoDup (l : list string) : distinctb l = true -> NoDup l.
Proof.
  induction l as [|x l IH]; cbn; [constructor|].
  intros H. apply andb_true_iff in H as [H1 H2]. apply negb_true_iff, str_in_false in H1.
  constructor; auto.
Qed.

Lemma shape_ok_items (l : list pyval) :
  forallb (fun x => match x with VState c => shape_ok c | _ => false end) l = true ->
  l = map VState (states_of l)
  /\ forall c, In c (states_of l) -> shape_ok c = true.
Proof.
  induction l as [|x l IHl]; [split; [reflexivity|intros c []]|].
  cbn [forallb]. destruct x as [|z|l'|c'|t']; try discriminate.
  intros H. apply andb_true_iff in H as [Hc Hl]. destruct (IHl Hl) as [E Hall].
  cbn [states_of map]. split.
  - rewrite <- E. reflexivity.
  - intros c [<-|Hin]; auto.
Qed.

Lemma shape_ok_hier (i : nat) (n : string) (d : option (list Z)) (tuple : bool)
      (l : list pyval) (y : option Sym) :
  shape_ok (mkState i n d (container tuple l) false y)
  = forallb (fun x => match x with VState c => shape_ok c | _ => false end) l.
Proof.
  destruct tuple; cbn [container shape_ok orb];
    (induction l as [|x l IH]; [reflexivity|];
     cbn [forallb]; destruct x as [|z|l1|c|t']; try reflexivity; rewrite IH; reflexivity).
Qed.

Lemma shape_ok_inv (s : State) :
  shape_ok s = true -> is_leaf s = false ->
  exists tuple,
    _value s = container tuple (map VState (substates s))
    /\ forall c, In c (substates s) -> shape_ok c = true.
Proof.
  destruct s as [i n d v lf y]. cbn [is_leaf _value]. intros H ->.
  unfold substates. cbn [is_leaf _value].
  destruct v as [|z|l|st|l]; try discriminate; [exists false|exists true];
    cbn [container];
    [rewrite (shape_ok_hier i n d false l y
               : shape_ok (mkState i n d (VList l) false y) = _) in H
    |rewrite (shape_ok_hier i n d true l y
               : shape_ok (mkState i n d (VTuple l) false y) = _) in H];
    destruct (shape_ok_items l H) as [E Hall]; (split; [rewrite <- E; reflexivity|exact Hall]).
Qed.

Lemma names_ok_inv (s : State) :
  names_ok s = true ->
  name_ok (name s) = true
  /\ NoDup (map name (substates s))
  /\ forall c, In c (substates s) -> names_ok c = true.
Proof.
  destruct s as [i n d v lf y]. cbn [names_ok name]. intros H.
  apply andb_true_iff in H as [Hn H]. split; [exact Hn|].
  unfold substates. cbn [is_leaf _value].
  destruct lf; [split; [constructor|intros c []]|]. cbn [orb] in H.
  destruct v as [|z|l|st|l]; try (split; [constructor|intros c []]);
    (apply andb_true_iff in H as [Hd H]; split; [apply distinctb_NoDup, Hd|];
     clear Hd; induction l as [|x l IHl]; [intros c []|];
     destruct x as [|z|l'|c'|t']; cbn [states_of]; try exact (IHl H);
     apply andb_true_iff in H as [Hc Hl]; intros c [<-|Hin]; auto).
Qed.

(** *** Splitting and joining *)

Lemma split_slash_plain (a : string) : has_slash a = false -> split_slash a = [a].
Proof.
  induction a as [|c a IH]; cbn; [reflexivity|]. intros H.
  apply orb_false_iff in H as [Hc Ha]. unfold slash in *. rewrite Hc, (IH Ha). reflexivity.
Qed.

Lemma split_slash_app (a b : string) :
  has_slash a = false ->
  split_slash (a ++ String slash b) = a :: split_slash b.
Proof.
  induction a as [|c a IH]; cbn; intros H.
  - reflexivity.
  - apply orb_false_iff in H as [Hc Ha]. unfold slash in *. rewrite Hc, (IH Ha). reflexivity.
Qed.

Lemma split_slash_parts (s : string) :
  Forall (fun p => has_slash p = false) (split_slash s).
Proof.
  induction s as [|c s IH]; cbn; [repeat constructor|].
  destruct (Ascii.eqb c slash) eqn:E; [constructor; [reflexivity|exact IH]|].
  destruct (split_slash s) as [|h t]; [repeat constructor; cbn; rewrite E; reflexivity|].
  inversion IH as [|? ? Hh Ht]; subst. constructor; [|exact Ht]. cbn. rewrite E, Hh.
  reflexivity.
Qed.

Lemma path_parts_ok (path : string) : Forall (fun p => name_ok p = true) (path_parts path).
Proof.
  unfold path_parts. pose proof (split_slash_parts path) as H.
  induction H as [|x l Hx Hl IH]; cbn; [constructor|].
  destruct (str_truthy x) eqn:E; [|exact IH].
  constructor; [|exact IH]. unfold name_ok. rewrite E, Hx. reflexivity.
Qed.

Lemma path_parts_join (parts : list string) :
  Forall (fun p => name_ok p = true) parts -> path_parts (join_slash parts) = parts.
Proof.
  induction 1 as [|x l Hx Hl IH]; [reflexivity|].
  apply andb_true_iff in Hx as [Ht Hs]. apply negb_true_iff in Hs.
  destruct l as [|y l].
  - cbn [join_slash]. unfold path_parts. rewrite (split_slash_plain x Hs).
    cbn [filter]. rewrite Ht. reflexivity.
  - change (join_slash (x :: y :: l)) with (x ++ String slash (join_slash (y :: l)))%string.
    unfold path_parts in *. rewrite (split_slash_app x _ Hs). cbn [filter].
    rewrite Ht, IH. reflexivity.
Qed.

(** *** The methods on leaves and on hierarchical states *)

Lemma search_by_path_leaf (s : State) (path : string) :
  is_leaf s = true ->
  search_by_path s path =
  match path_parts path with
  | [] => Ret None
  | p0 :: rest =>
      if String.eqb p0 (name s) && (List.length rest =? 0) then Ret (Some s) else Ret None
  end.
Proof.
  destruct s as [i n d v lf y]. cbn [is_leaf name search_by_path]. intros ->.
  destruct (path_parts path) as [|p0 rest]; [reflexivity|].
  destruct (String.eqb p0 n); [|reflexivity]. cbn [List.length Nat.eqb andb].
  destruct (List.length rest =? 0); reflexivity.
Qed.

Lemma search_by_path_hier (i : nat) (n : string) (d : option (list Z)) (tuple : bool)
      (cs : list State) (y : option Sym) (path : string) :
  search_by_path (mkState i n d (container tuple (map VState cs)) false y) path =
  match path_parts path with
  | [] => Ret None
  | p0 :: rest =>
      if String.eqb p0 n then
        if List.length rest =? 0
        then Ret (Some (mkState i n d (container tuple (map VState cs)) false y))
        else first_some (fun c => search_by_path c (join_slash rest)) cs
      else Ret None
  end.
Proof.
  destruct tuple; cbn [container search_by_path];
    (destruct (path_parts path) as [|p0 rest]; [reflexivity|];
     destruct (String.eqb p0 n); [|reflexivity]; cbn [List.length Nat.eqb];
     destruct (List.length rest =? 0); [reflexivity|];
     induction cs as [|c cs IH]; [reflexivity|];
     cbn [map first_some]; destruct (search_by_path c (join_slash rest)) as [[r|]|e];
     cbn [bind]; try reflexivity; exact IH).
Qed.

Lemma collect_paths_leaf (s : State) (prefix : string) (acc : list string) :
  is_leaf s = true ->
  _collect_paths s prefix acc = Ret (acc ++ [current_path prefix (name s)]).
Proof. destruct s as [i n d v lf y]. cbn. intros ->. reflexivity. Qed.

Lemma collect_paths_hier (i : nat) (n : string) (d : option (list Z)) (tuple : bool)
      (cs : list State) (y : option Sym) (prefix : string) (acc : list string) :
  _collect_paths (mkState i n d (container tuple (map VState cs)) false y) prefix acc =
  fold_res (fun c paths => _collect_paths c (current_path prefix n) paths) cs acc.
Proof.
  destruct tuple; cbn [container _collect_paths]; fold (current_path prefix n);
    (revert acc; induction cs as [|c cs IH]; intros acc; [reflexivity|];
     cbn [map fold_res];
     destruct (_collect_paths c (current_path prefix n) acc) as [paths'|e]; cbn [bind];
     [apply IH|reflexivity]).
Qed.

Lemma collect_states_leaf (s : State) (acc : list State) :
  is_leaf s = true -> _collect_states s acc = Ret (acc ++ [s]).
Proof. destruct s as [i n d v lf y]. cbn. intros ->. reflexivity. Qed.

Lemma collect_states_hier (i : nat) (n : string) (d : option (list Z)) (tuple : bool)
      (cs : list State) (y : option Sym) (acc : list State) :
  _collect_states (mkState i n d (container tuple (map VState cs)) false y) acc =
  fold_res (fun c states => _collect_states c states) cs acc.
Proof.
  destruct tuple; cbn [container _collect_states];
    (revert acc; induction cs as [|c cs IH]; intros acc; [reflexivity|];
     cbn [map fold_res];
     destruct (_collect_states c acc) as [states'|e]; cbn [bind]; [apply IH|reflexivity]).
Qed.

Lemma string_app_assoc (a b c : string) : ((a ++ b) ++ c = a ++ (b ++ c))%string.
Proof. induction a as [|x a IH]; cbn; [reflexivity|]. rewrite IH. reflexivity. Qed.

Lemma str_truthy_app (a b : string) : str_truthy b = true -> str_truthy (a ++ b) = true.
Proof. destruct a; [auto|reflexivity]. Qed.

Lemma collect_paths_shape :
  forall s prefix acc ps, _collect_paths s prefix acc = Ret ps -> shape_ok s = true.
Proof.
  fix IH 1. intros [i n d v lf y] prefix acc ps. cbn [_collect_paths shape_ok].
  destruct lf; [reflexivity|]. cbn [orb].
  destruct v as [|z|l|st|l]; try discriminate;
    (revert acc; induction l as [|x l IHl]; intros acc H; [reflexivity|];
     destruct x as [|z|l'|c|t']; try discriminate;
     destruct (_collect_paths c _ acc) as [paths'|e] eqn:E; cbn [bind] in H; [|discriminate];
     rewrite (IH c _ _ _ E); exact (IHl _ H)).
Qed.

Lemma leaf_routes_leaf (s : State) :
  is_leaf s = true -> leaf_routes s = [([name s], s)].
Proof. destruct s as [i n d v lf y]. cbn. intros ->. reflexivity. Qed.

Lemma leaf_routes_hier (i : nat) (n : string) (d : option (list Z)) (tuple : bool)
      (cs : list State) (y : option Sym) :
  leaf_routes (mkState i n d (container tuple (map VState cs)) false y) =
  flat_map (fun c => map (fun rt => (n :: fst rt, snd rt)) (leaf_routes c)) cs.
Proof.
  destruct tuple; cbn [container leaf_routes];
    (induction cs as [|c cs IH]; [reflexivity|];
     cbn [map flat_map]; rewrite IH; reflexivity).
Qed.

Lemma fold_res_appends {A : Type} (f : State -> list A -> res (list A))
      (g : State -> list A) (cs : list State) :
  (forall c, In c cs -> forall acc, f c acc = Ret (acc ++ g c)) ->
  forall acc, fold_res f cs acc = Ret (acc ++ flat_map g cs).
Proof.
  induction cs as [|c cs IH]; intros H acc; cbn [fold_res flat_map].
  - rewrite app_nil_r. reflexivity.
  - rewrite (H c (or_introl eq_refl)). cbn [bind].
    rewrite IH; [rewrite app_assoc; reflexivity|].
    intros c' Hc'. apply H. right. exact Hc'.
Qed.

Lemma first_some_skip (f : State -> res (option State)) (l1 l2 : list State) (c : State) :
  (forall c', In c' l1 -> f c' = Ret None) ->
  first_some f (l1 ++ c :: l2) = first_some f (c :: l2).
Proof.
  induction l1 as [|a l1 IH]; intros H; [reflexivity|].
  cbn [app first_some]. rewrite (H a (or_introl eq_refl)). cbn [bind].
  apply IH. intros c' Hc'. apply H. right. exact Hc'.
Qed.

Lemma search_other_name (s : State) (p0 : string) (rest : list string) :
  Forall (fun p => name_ok p = true) (p0 :: rest) -> p0 <> name s ->
  search_by_path s (join_slash (p0 :: rest)) = Ret None.
Proof.
  intros Hok Hne. destruct s as [i n d v lf y]. cbn [search_by_path name] in *.
  rewrite (path_parts_join _ Hok).
  destruct (String.eqb p0 n) eqn:E; [apply String.eqb_eq in E; contradiction|reflexivity].
Qed.

Lemma route_path (prefix n : string) (rc : list string) :
  name_ok n = true -> rc <> [] ->
  current_path (current_path prefix n) (join_slash rc)
  = current_path prefix (join_slash (n :: rc)).
Proof.
  intros Hn Hrc. apply andb_true_iff in Hn as [Hn _].
  destruct rc as [|r rc]; [contradiction|].
  change (join_slash (n :: r :: rc)) with (n ++ "/" ++ join_slash (r :: rc))%string.
  unfold current_path. destruct (str_truthy prefix) eqn:Ep.
  - rewrite str_truthy_app by (apply (str_truthy_app "/"), Hn).
    rewrite string_app_assoc. reflexivity.
  - rewrite Hn. reflexivity.
Qed.

Lemma flat_map_map_in {X Y Z W : Type} (g : X -> list Y) (k : Y -> Z) (h1 : Y -> W)
      (h2 : Z -> W) (cs : list X) :
  (forall c, In c cs -> forall y, In y (g c) -> h1 y = h2 (k y)) ->
  flat_map (fun c => map h1 (g c)) cs = map h2 (flat_map (fun c => map k (g c)) cs).
Proof.
  induction cs as [|c cs IH]; intros H; [reflexivity|]. cbn [flat_map].
  rewrite map_app, map_map, IH.
  - f_equal. apply map_ext_in. intros y Hy. apply (H c (or_introl eq_refl) y Hy).
  - intros c' Hc'. apply H. right. exact Hc'.
Qed.

(** What [paths], [get_all_states] and [search_by_path] compute on a
    state whose names are fit for paths. *)
Lemma routes_spec :
  forall s, shape_ok s = true -> names_ok s = true ->
    (forall prefix acc,
        _collect_paths s prefix acc
        = Ret (acc ++ map (fun rt => current_path prefix (join_slash (fst rt)))
                          (leaf_routes s)))
    /\ (forall acc, _collect_states s acc = Ret (acc ++ map snd (leaf_routes s)))
    /\ (forall rt, In rt (leaf_routes s) ->
                   (exists tl, fst rt = name s :: tl)
                   /\ Forall (fun p => name_ok p = true) (fst rt)
                   /\ search_by_path s (join_slash (fst rt)) = Ret (Some (snd rt))).
Proof.
  induction s as [s IH] using State_substates_ind. intros Hshape Hnames.
  destruct (names_ok_inv s Hnames) as [Hn [Hdistinct Hsub]].
  destruct (is_leaf s) eqn:Hleaf.
  - rewrite (leaf_routes_leaf s Hleaf). split; [|split].
    + intros prefix acc. apply collect_paths_leaf, Hleaf.
    + intros acc. apply collect_states_leaf, Hleaf.
    + intros rt [<-|[]]. cbn [fst snd]. split; [exists []; reflexivity|].
      split; [repeat constructor; exact Hn|].
      rewrite (search_by_path_leaf s _ Hleaf).
      rewrite (path_parts_join [name s]) by (repeat constructor; exact Hn).
      rewrite String.eqb_refl. reflexivity.
  - destruct (shape_ok_inv s Hshape Hleaf) as [tuple [Hv Hsh]].
    remember (substates s) as cs eqn:Ecs in *. clear Ecs.
    destruct s as [i n d v lf y]. cbn [is_leaf _value name] in *. subst v lf.
    assert (IHc : forall c, In c cs ->
                (forall prefix acc,
                    _collect_paths c prefix acc
                    = Ret (acc ++ map (fun rt => current_path prefix (join_slash (fst rt)))
                                      (leaf_routes c)))
                /\ (forall acc, _collect_states c acc = Ret (acc ++ map snd (leaf_routes c)))
                /\ (forall rt, In rt (leaf_routes c) ->
                               (exists tl, fst rt = name c :: tl)
                               /\ Forall (fun p => name_ok p = true) (fst rt)
                               /\ search_by_path c (join_slash (fst rt))
                                  = Ret (Some (snd rt)))).
    { intros c Hc. apply IH; auto. }
    clear IH. rewrite leaf_routes_hier. split; [|split].
    + intros prefix acc. rewrite collect_paths_hier.
      rewrite (fold_res_appends _
                 (fun c => map (fun rt => current_path (current_path prefix n)
                                                       (join_slash (fst rt)))
                               (leaf_routes c))).
      * f_equal. f_equal. apply flat_map_map_in. intros c Hc rt Hrt. cbn [fst].
        destruct (IHc c Hc) as [_ [_ Hr]].
        destruct (Hr rt Hrt) as [[tl Etl] _].
        apply route_path; [exact Hn|]. rewrite Etl. discriminate.
      * intros c Hc acc'. apply (IHc c Hc).
    + intros acc. rewrite collect_states_hier.
      rewrite (fold_res_appends _ (fun c => map snd (leaf_routes c))).
      * f_equal. f_equal. apply flat_map_map_in. reflexivity.
      * intros c Hc acc'. apply (IHc c Hc).
    + intros rt Hrt. apply in_flat_map in Hrt as [c [Hc Hrt]].
      apply in_map_iff in Hrt as [rc [<- Hrc]]. cbn [fst snd].
      destruct (IHc c Hc) as [_ [_ Hr]]. destruct (Hr rc Hrc) as [[tl Etl] [Hok Hsearch]].
      split; [eexists; reflexivity|].
      assert (Hoks : Forall (fun p => name_ok p = true) (n :: fst rc))
        by (constructor; assumption).
      split; [exact Hoks|].
      rewrite search_by_path_hier, (path_parts_join _ Hoks), String.eqb_refl.
      rewrite Etl. cbn [List.length Nat.eqb]. rewrite <- Etl.
      apply in_split in Hc as [l1 [l2 Ecs]]. rewrite Ecs.
      rewrite first_some_skip.
      * cbn [first_some]. rewrite Hsearch. reflexivity.
      * intros c' Hc'. rewrite Etl. apply search_other_name; [rewrite <- Etl; exact Hok|].
        intros E. rewrite Ecs, map_app in Hdistinct. cbn [map] in Hdistinct.
        apply NoDup_remove_2 in Hdistinct. apply Hdistinct, in_or_app. left.
        rewrite E. apply in_map, Hc'.
Qed.

(** C6, amended. In a state tree in which no name is empty or contains
    "/" and the substates of each state have pairwise distinct names,
    every path that [paths] returns is found by [search_by_path], and
    what is found is the leaf at the same position in
    [get_all_states()], the one the path was produced from. *)
Theorem paths_search_round_trip (t : State) (ps : list string) :
  names_ok t = true ->
  paths t = Ret ps ->
  exists leaves,
    get_all_states t = Ret leaves
    /\ List.length leaves = List.length ps
    /\ forall i p, nth_error ps i = Some p ->
                   exists leaf, nth_error leaves i = Some leaf
                                /\ is_leaf leaf = true
                                /\ search_by_path t p = Ret (Some leaf).
Proof.
  intros Hnames Hps. unfold paths in Hps.
  pose proof (collect_paths_shape t _ _ _ Hps) as Hshape.
  destruct (routes_spec t Hshape Hnames) as [Hpaths [Hstates Hsearch]].
  rewrite Hpaths in Hps. injection Hps as <-. cbn [app].
  exists (map snd (leaf_routes t)). split; [apply Hstates|].
  split; [rewrite !length_map; reflexivity|].
  intros i p Hi. rewrite nth_error_map in Hi.
  destruct (nth_error (leaf_routes t) i) as [rt|] eqn:Ert; [|discriminate].
  injection Hi as <-. exists (snd rt). rewrite nth_error_map, Ert.
  split; [reflexivity|].
  destruct (Hsearch rt (nth_error_In _ _ Ert)) as [_ [_ Hs]].
  unfold current_path. cbn [str_truthy String.eqb negb]. split; [|exact Hs].
  clear -Ert. apply nth_error_In in Ert. revert rt Ert.
  induction t as [s IH] using State_substates_ind. intros rt Hrt.
  destruct s as [j n d v lf y]. destruct lf.
  - cbn in Hrt. destruct Hrt as [<-|[]]. reflexivity.
  - cbn [leaf_routes] in Hrt. unfold substates in IH. cbn [is_leaf _value] in IH.
    destruct v as [|z|l|st|l]; try (destruct Hrt);
      (induction l as [|x l IHl]; [destruct Hrt|];
       destruct x as [|z|l'|c|t']; cbn [states_of] in IH; try (apply IHl; assumption);
       apply in_app_or in Hrt as [Hrt|Hrt];
       [apply in_map_iff in Hrt as [rc [<- Hrc]]; cbn [snd];
        apply (IH c (or_introl eq_refl) rc Hrc)
       |apply IHl; [|exact Hrt]; intros c' Hc'; apply IH; right; exact Hc']).
Qed.


(** plant with the leaf x and the hierarchical state sub holding y. *)
Example plant_built :
  (x' <- State_init 2 "x" None (VNum 1) ;;
   y' <- State_init 4 "y" None VNone ;;
   sub' <- State_init 3 "sub" None (VList [VState y']) ;;
   State_init 1 "plant" None (VList [VState x'; VState sub']))
  = Ret Plant.plant.
Proof. reflexivity. Qed.

Example plant_paths : paths Plant.plant = Ret ["plant/x"; "plant/sub/y"].
Proof. reflexivity. Qed.

Lemma paths_search_round_trip_witness :
  exists leaves,
    get_all_states Plant.plant = Ret leaves
    /\ List.length leaves = 2
    /\ forall i p, nth_error ["plant/x"; "plant/sub/y"] i = Some p ->
                   exists leaf, nth_error leaves i = Some leaf
                                /\ is_leaf leaf = true
                                /\ search_by_path Plant.plant p = Ret (Some leaf).
Proof.
  apply (paths_search_round_trip Plant.plant ["plant/x"; "plant/sub/y"]).
  - vm_compute. reflexivity.
  - vm_compute. reflexivity.
Defined.

(** C6 as stated fails: a leaf named "a/b" has the path "a/b", which
    [search_by_path] splits into "a" and "b" and does not find; a leaf
    with the empty name has the empty path, which is not found either;
    and of two leaves named "a" under one state, the path of the second
    finds the first. *)
Lemma paths_not_found :
  let ab := mkState 1 "a/b" None (VNum 1) true None in
  let anon := mkState 1 "" None (VNum 1) true None in
  let a1 := mkState 2 "a" None (VNum 1) true None in
  let a2 := mkState 3 "a" None (VNum 2) true None in
  let r := mkState 1 "r" None (VList [VState a1; VState a2]) false None in
  (State_init 1 "a/b" None (VNum 1) = Ret ab
   /\ paths ab = Ret ["a/b"] /\ get_all_states ab = Ret [ab]
   /\ search_by_path ab "a/b" = Ret None)
  /\ (paths anon = Ret [""] /\ get_all_states anon = Ret [anon]
      /\ search_by_path anon "" = Ret None)
  /\ (State_init 1 "r" None (VList [VState a1; VState a2]) = Ret r
      /\ paths r = Ret ["r/a"; "r/a"] /\ get_all_states r = Ret [a1; a2]
      /\ search_by_path r "r/a" = Ret (Some a1) /\ a1 <> a2).
Proof.
  cbv zeta. repeat split; try reflexivity. discriminate.
Qed.

(** * Further properties *)

(** ** When Graph.resolve returns *)

Lemma rounds_sound (m : dict Info.t) (n : nat) (o : list string) :
  NoDup (keys m) -> sound m o -> sound m (rounds m n o).
Proof.
  intros Hk. revert o. induction n as [|n IH]; intros o Ho; [exact Ho|].
  cbn [rounds]. apply IH, round_pure_sound; assumption.
Qed.

Lemma sound_nil (m : dict Info.t) : sound m [].
Proof. intros l1 k l2 E. destruct l1; discriminate. Qed.

(** The loop returns the names placed after some rounds, or fails its
    assertion after the whole budget with a name still missing. *)
Lemma while_loop_outcome (m : dict Info.t) (budget elapsed : nat) (o : list string) :
  incl o (keys m) ->
  (exists j, j <= budget
             /\ Graph.while_loop m budget elapsed o = Ret (rounds m j o, elapsed + j)
             /\ List.length m <= List.length (rounds m j o))
  \/ (Graph.while_loop m budget elapsed o
      = Raise (AssertionError_unresolved (elapsed + budget)
                 (Graph.unplaced m (rounds m budget o)))
      /\ List.length (rounds m budget o) < List.length m).
Proof.
  revert elapsed o. induction budget as [|b IH]; intros elapsed o Ho;
    cbn [Graph.while_loop]; destruct (List.length o <? List.length m) eqn:E.
  - right. apply Nat.ltb_lt in E. rewrite Nat.add_0_r. split; [reflexivity|exact E].
  - left. apply Nat.ltb_ge in E. exists 0. rewrite Nat.add_0_r. cbn [rounds].
    repeat split; auto; lia.
  - rewrite (round_round_pure m o Ho). cbn [bind].
    destruct (IH (S elapsed) (round_pure m o) (round_pure_incl m o Ho))
      as [[j [Hj [Hw Hl]]]|[Hw Hl]].
    + left. exists (S j). cbn [rounds]. rewrite Hw.
      replace (S elapsed + j) with (elapsed + S j) by lia. repeat split; auto. lia.
    + right. cbn [rounds]. rewrite Hw.
      replace (S elapsed + b) with (elapsed + S b) by lia. split; [reflexivity|exact Hl].
  - left. apply Nat.ltb_ge in E. exists 0. rewrite Nat.add_0_r. cbn [rounds].
    repeat split; auto; lia.
Qed.

(** Each key of the map is the name of a node, so the nodes of an
    order of keys are found. *)
Lemma nodes_named_keys (nodes : list Node.t) (o : list string) :
  incl o (keys (Graph.node_state_inputs_map nodes)) ->
  exists ordered, Graph.nodes_named nodes o = Ret ordered
                  /\ map node_name ordered = o /\ incl ordered nodes.
Proof.
  induction o as [|k o IH]; intros Ho.
  - exists []. repeat split. intros x [].
  - assert (Hk : In k (keys (Graph.node_state_inputs_map nodes)))
      by (apply Ho; left; reflexivity).
    apply dict_get_keys in Hk as [i Hi]. apply dict_get_In, map_entries in Hi
      as [node [Hnode [-> _]]].
    destruct IH as [ordered [H1 [H2 H3]]]; [intros x Hx; apply Ho; right; exact Hx|].
    assert (Hf : exists n rest,
               filter (fun n0 => String.eqb (name (Node.state n0)) (node_name node)) nodes
               = n :: rest /\ In n nodes /\ node_name n = node_name node).
    { clear -Hnode. induction nodes as [|a l IHl]; [destruct Hnode|]. cbn [filter].
      destruct (String.eqb (name (Node.state a)) (node_name node)) eqn:E.
      - apply String.eqb_eq in E. exists a. eexists. split; [reflexivity|].
        split; [left; reflexivity|exact E].
      - destruct Hnode as [->|Hin].
        + unfold node_name in E. rewrite String.eqb_refl in E. discriminate.
        + destruct (IHl Hin) as [n [rest [Hf [Hn En]]]]. exists n, rest.
          split; [exact Hf|]. split; [right; exact Hn|exact En]. }
    destruct Hf as [n [rest [Hf [Hn En]]]].
    exists (n :: ordered). cbn [Graph.nodes_named]. unfold Graph.node_named. rewrite Hf.
    cbn [bind]. rewrite H1. cbn [bind]. split; [reflexivity|].
    split; [cbn [map]; rewrite H2, En; reflexivity|].
    intros x [<-|Hx]; auto.
Qed.

(** An order in which every name was ready in its turn shows that the
    inputs of the entries are states of entries. *)
Lemma sound_all_owned (m : dict Info.t) (o : list string) :
  NoDup (keys m) -> sound m o -> incl (keys m) o -> entries_owned m.
Proof.
  intros Hk Hs Hall k i s Hi Hroot Hin.
  assert (Hko : In k o) by (apply Hall, dict_get_keys; eauto).
  apply in_split in Hko as [l1 [l2 E]].
  destruct (Hs l1 k l2 E) as [i' [Hi' Hr]]. rewrite Hi in Hi'. injection Hi' as <-.
  unfold ready in Hr. rewrite Hroot, orb_false_r in Hr. rewrite forallb_forall in Hr.
  specialize (Hr s Hin). apply state_in_spec in Hr as [e [He Hes]].
  unfold placed in He. apply in_flat_map in He as [k2 [_ He]].
  destruct (dict_get m k2) as [i2|] eqn:E2; [|destruct He]. destruct He as [<-|[]].
  exists k2, i2. split; [exact E2|exact Hes].
Qed.

Lemma loop_ret_resolves (nodes : list Node.t) (names : list string) (j : nat) :
  incl names (keys (Graph.node_state_inputs_map nodes)) ->
  Graph.while_loop (Graph.node_state_inputs_map nodes)
                   (List.length (Graph.node_state_inputs_map nodes)) 0 [] = Ret (names, j) ->
  exists ordered, Graph.resolve nodes = Ret ordered.
Proof.
  intros Hincl Hw. destruct (nodes_named_keys nodes names Hincl) as [ordered [Hn _]].
  exists ordered. unfold Graph.resolve. rewrite duplicates_assertion_holds.
  rewrite Hw. exact Hn.
Qed.

(** [Graph.resolve] returns when every input is the state of an entry
    and no entries wait for each other in a cycle. *)
Lemma owned_acyclic_resolves (nodes : list Node.t) :
  entries_owned (Graph.node_state_inputs_map nodes) ->
  no_wait_cycle (Graph.node_state_inputs_map nodes) ->
  exists ordered, Graph.resolve nodes = Ret ordered.
Proof.
  intros Hown Hcyc.
  destruct (while_loop_orders (Graph.node_state_inputs_map nodes)
              (map_keys_NoDup nodes) Hown Hcyc) as [j [_ [Hw [Hp _]]]].
  apply (loop_ret_resolves nodes (rounds (Graph.node_state_inputs_map nodes) j []) j);
    [|exact Hw].
  apply rounds_incl. intros x [].
Qed.

(** It returns in no other case. *)
Lemma resolve_ret_owned_acyclic (nodes ordered : list Node.t) :
  Graph.resolve nodes = Ret ordered ->
  entries_owned (Graph.node_state_inputs_map nodes)
  /\ no_wait_cycle (Graph.node_state_inputs_map nodes).
Proof.
  set (m := Graph.node_state_inputs_map nodes).
  pose proof (map_keys_NoDup nodes) as Hkeys. fold m in Hkeys.
  pose proof (map_entry_name nodes) as Hnames. fold m in Hnames.
  assert (Hnil : incl [] (keys m)) by (intros x []).
  intros Hres. unfold Graph.resolve in Hres.
  rewrite duplicates_assertion_holds in Hres. fold m in Hres.
  destruct (Graph.while_loop m (List.length m) 0 []) as [[names r]|e] eqn:Hw;
    [|discriminate].
  pose proof Hw as Hw'. apply while_loop_ret in Hw' as [j [-> [_ [_ [Hl _]]]]];
    [|exact Hnil].
  split.
  - apply (sound_all_owned m (rounds m j []) Hkeys).
    + apply rounds_sound; [exact Hkeys|apply sound_nil].
    + apply (@NoDup_length_incl _ (rounds m j []) (keys m)).
      * apply rounds_NoDup. constructor.
      * unfold keys. rewrite length_map. exact Hl.
      * apply rounds_incl, Hnil.
  - intros k Hk. rewrite (cycle_while_loop m Hkeys Hnames k Hk) in Hw. discriminate.
Qed.

(** X1. [Graph.resolve] returns exactly when, in the dependency map of
    the nodes, every input of an entry that is not a root is the state
    of an entry and no such entries wait for each other in a cycle;
    otherwise it raises the [AssertionError] of the loop, after as many
    rounds as the map has entries and with a name unplaced, and nothing
    else. *)
Theorem resolve_returns_iff (nodes : list Node.t) :
  ((exists ordered, Graph.resolve nodes = Ret ordered)
   <-> entries_owned (Graph.node_state_inputs_map nodes)
       /\ no_wait_cycle (Graph.node_state_inputs_map nodes))
  /\ ((exists ordered, Graph.resolve nodes = Ret ordered)
      \/ exists missing,
          missing <> []
          /\ Graph.resolve nodes
             = Raise (AssertionError_unresolved
                        (List.length (Graph.node_state_inputs_map nodes)) missing)).
Proof.
  set (m := Graph.node_state_inputs_map nodes).
  pose proof (map_keys_NoDup nodes) as Hkeys. fold m in Hkeys.
  assert (Hnil : incl [] (keys m)) by (intros x []).
  split.
  - split.
    + intros [ordered Hres]. apply (resolve_ret_owned_acyclic nodes ordered Hres).
    + intros [Hown Hcyc]. apply (owned_acyclic_resolves nodes Hown Hcyc).
  - destruct (while_loop_outcome m (List.length m) 0 [] Hnil)
      as [[j [_ [Hw Hl]]]|[Hw Hl]].
    + left. apply (loop_ret_resolves nodes (rounds m j []) j); [|exact Hw].
      apply rounds_incl, Hnil.
    + right. exists (Graph.unplaced m (rounds m (List.length m) [])). split.
      * intros E.
        assert (Hall : incl (keys m) (rounds m (List.length m) [])).
        { intros k Hk. destruct (str_in k (rounds m (List.length m) [])) eqn:Ek;
            [apply str_in_In, Ek|].
          assert (H : In k (Graph.unplaced m (rounds m (List.length m) []))).
          { apply unplaced_spec. split; [exact Hk|apply str_in_false, Ek]. }
          rewrite E in H. destruct H. }
        pose proof (NoDup_incl_length Hkeys Hall) as H. unfold keys in H.
        rewrite length_map in H. lia.
      * unfold Graph.resolve. rewrite duplicates_assertion_holds. fold m. rewrite Hw.
        reflexivity.
Qed.

(** ** Orders that Graph.resolve keeps *)

(** Items that are ready one after the other are all placed by one scan. *)
Lemma scan_in_order (m : dict Info.t) (items : list (string * Info.t)) (o : list string) :
  NoDup (o ++ map fst items) ->
  (forall l1 it l2, items = l1 ++ it :: l2 -> ready m (o ++ map fst l1) (snd it) = true) ->
  fold_left (scan_pure m) items o = o ++ map fst items.
Proof.
  revert o. induction items as [|it items IH]; intros o Hnd Hr.
  - cbn. rewrite app_nil_r. reflexivity.
  - cbn [fold_left map].
    assert (Hstep : scan_pure m o it = o ++ [fst it]).
    { unfold scan_pure. specialize (Hr [] it items eq_refl). cbn [map] in Hr.
      rewrite app_nil_r in Hr. rewrite Hr.
      assert (Hk : str_in (fst it) o = false).
      { apply str_in_false. intros Hin. apply NoDup_remove_2 in Hnd.
        apply Hnd, in_or_app. left. exact Hin. }
      rewrite Hk. reflexivity. }
    rewrite Hstep, IH.
    + rewrite <- app_assoc. reflexivity.
    + rewrite <- app_assoc. exact Hnd.
    + intros l1 it' l2 E. rewrite <- app_assoc. apply (Hr (it :: l1) it' l2).
      rewrite E. reflexivity.
Qed.

(** If the first round places every name, the loop runs one round. *)
Lemma one_round (m : dict Info.t) :
  round_pure m [] = keys m ->
  Graph.while_loop m (List.length m) 0 []
  = Ret (keys m, if List.length m =? 0 then 0 else 1).
Proof.
  intros H. destruct (List.length m) as [|b] eqn:El.
  - apply length_zero_iff_nil in El. subst m. reflexivity.
  - cbn [Graph.while_loop]. rewrite El. cbn [List.length Nat.ltb Nat.leb].
    rewrite round_round_pure by (intros x []). cbn [bind]. rewrite H.
    assert (E : (List.length (keys m) <? List.length m) = false).
    { unfold keys. rewrite length_map. apply Nat.ltb_irrefl. }
    destruct b; cbn [Graph.while_loop]; rewrite E; reflexivity.
Qed.

Section KeptOrders.
Variable nodes : list Node.t.
Hypothesis distinct : NoDup (map node_name nodes).

Lemma placed_nodes (before : list Node.t) (n' : Node.t) :
  incl before nodes -> In n' before ->
  In (Node.state n') (placed (Graph.node_state_inputs_map nodes) (map node_name before)).
Proof.
  intros Hincl Hin. unfold placed. apply in_flat_map. exists (node_name n').
  split; [apply in_map, Hin|].
  destruct (map_distinct_get nodes n' distinct (Hincl n' Hin)) as [_ ->].
  left. reflexivity.
Qed.

(** Nodes declared in an order in which they can run are ready in turn. *)
Lemma declared_order_ready (before : list Node.t) (n : Node.t) (after : list Node.t) :
  declared_in_order nodes -> nodes = before ++ n :: after ->
  ready (Graph.node_state_inputs_map nodes) (map node_name before) (info_of n) = true.
Proof.
  intros Hord E. unfold ready. cbn [info_of Info.inputs Info.is_root].
  destruct (Node.is_root n) eqn:Hroot; [apply orb_true_r|]. rewrite orb_false_r.
  apply forallb_forall. intros s Hs.
  destruct (Hord before n after E Hroot s Hs) as [n' [Hn' He]].
  apply state_in_spec. exists (Node.state n'). split; [|exact He].
  apply placed_nodes; [|exact Hn'].
  intros x Hx. rewrite E. apply in_or_app. left. exact Hx.
Qed.

(** Names placed when ready belong to nodes in an order in which they
    can run. *)
Lemma sound_declared_in_order (ordered : list Node.t) :
  incl ordered nodes ->
  sound (Graph.node_state_inputs_map nodes) (map node_name ordered) ->
  declared_in_order ordered.
Proof.
  intros Hincl Hs before n after E Hroot s Hin.
  assert (Hn : In n nodes) by (apply Hincl; rewrite E; apply in_elt).
  assert (E' : map node_name ordered
               = map node_name before ++ node_name n :: map node_name after).
  { rewrite E, map_app. reflexivity. }
  destruct (Hs _ _ _ E') as [i [Hi Hr]].
  destruct (map_distinct_get nodes n distinct Hn) as [_ Hget]. rewrite Hget in Hi.
  injection Hi as <-. unfold ready in Hr. cbn [info_of Info.inputs Info.is_root] in Hr.
  rewrite Hroot, orb_false_r in Hr. rewrite forallb_forall in Hr. specialize (Hr s Hin).
  apply state_in_spec in Hr as [e [He Hes]]. unfold placed in He.
  apply in_flat_map in He as [k [Hk He]]. apply in_map_iff in Hk as [n' [<- Hn']].
  assert (Hn'n : In n' nodes).
  { apply Hincl. rewrite E. apply in_or_app. left. exact Hn'. }
  destruct (map_distinct_get nodes n' distinct Hn'n) as [_ Hget']. rewrite Hget' in He.
  destruct He as [<-|[]]. exists n'. split; [exact Hn'|exact Hes].
Qed.

Lemma nodes_named_themselves (l : list Node.t) :
  incl l nodes -> Graph.nodes_named nodes (map node_name l) = Ret l.
Proof.
  induction l as [|n l IH]; intros Hl; [reflexivity|].
  cbn [map Graph.nodes_named].
  rewrite (node_named_distinct nodes distinct n) by (apply Hl; left; reflexivity).
  cbn [bind]. rewrite IH; [reflexivity|]. intros x Hx. apply Hl. right. exact Hx.
Qed.

(** The names a returning [Graph.resolve] has placed. *)
Lemma resolve_ret_names (ordered : list Node.t) :
  Graph.resolve nodes = Ret ordered ->
  exists j, j <= List.length nodes
            /\ Graph.order_names nodes = Ret (map node_name ordered, j)
            /\ map node_name ordered = rounds (Graph.node_state_inputs_map nodes) j []
            /\ incl ordered nodes
            /\ Permutation ordered nodes.
Proof.
  intros Hres. set (m := Graph.node_state_inputs_map nodes) in *.
  destruct (map_distinct_length nodes distinct) as [Hlen Hkeys]. fold m in Hlen, Hkeys.
  assert (Hnil : incl [] (keys m)) by (intros x []).
  unfold Graph.resolve in Hres.
  destruct (Graph.order_names nodes) as [[names r]|e] eqn:Ho; [|discriminate].
  cbn [bind fst] in Hres. pose proof Ho as Hw. rewrite duplicates_assertion_holds in Hw.
  fold m in Hw. apply while_loop_ret in Hw as [j [-> [-> [Hj [Hl _]]]]]; [|exact Hnil].
  pose proof (rounds_incl m j [] Hnil) as Hin. rewrite Hkeys in Hin.
  destruct (nodes_named_distinct nodes distinct _ Hin) as [ordered' [Hn [Hmap Hincl]]].
  rewrite Hn in Hres. injection Hres as ->.
  exists j. split; [lia|]. split; [rewrite Hmap; reflexivity|]. split; [exact Hmap|].
  split; [exact Hincl|].
  apply (ordered_permutation nodes distinct ordered Hincl). rewrite Hmap, <- Hkeys.
  apply NoDup_Permutation_bis.
  - apply rounds_NoDup. constructor.
  - unfold keys. rewrite length_map. exact Hl.
  - apply rounds_incl, Hnil.
Qed.

(** Nodes declared in an order in which they can run are all placed in
    the first round, as declared. *)
Lemma declared_order_resolves :
  declared_in_order nodes ->
  Graph.order_names nodes
  = Ret (map node_name nodes, match nodes with [] => 0 | _ :: _ => 1 end)
  /\ Graph.resolve nodes = Ret nodes.
Proof.
  intros Hord. set (m := Graph.node_state_inputs_map nodes).
  assert (Hm : m = map (fun n => (node_name n, info_of n)) nodes)
    by apply (map_distinct nodes distinct).
  assert (Hround : round_pure m [] = map node_name nodes).
  { unfold round_pure. rewrite scan_in_order.
    - cbn [app]. rewrite Hm, map_map. reflexivity.
    - cbn [app]. rewrite Hm, map_map. exact distinct.
    - intros l1 it l2 E. cbn [app]. rewrite Hm in E.
      apply map_eq_app in E as [before [rest [En [<- E]]]].
      apply map_eq_cons in E as [n [after [-> [<- _]]]]. cbn [snd].
      rewrite map_map.
      change (map (fun x => fst (node_name x, info_of x)) before)
        with (map node_name before).
      exact (declared_order_ready before n after Hord En). }
  assert (Horder : Graph.order_names nodes
                   = Ret (map node_name nodes, match nodes with [] => 0 | _ :: _ => 1 end)).
  { rewrite duplicates_assertion_holds. fold m. rewrite (one_round m).
    - rewrite Hm. unfold keys. rewrite map_map, length_map.
      destruct nodes; reflexivity.
    - rewrite Hround, Hm. unfold keys. rewrite map_map. reflexivity. }
  split; [exact Horder|].
  unfold Graph.resolve. rewrite Horder. cbn [bind fst].
  apply nodes_named_themselves, incl_refl.
Qed.

End KeptOrders.

(** X2. For nodes with pairwise distinct state names, [Graph.resolve]
    returns the nodes as they were declared exactly when they are
    declared in an order in which they can run, every resolved input of
    a node that is not a root being the state of a node declared before
    it; it then needs one round (none for no nodes). *)
Theorem resolve_keeps_valid_order (nodes : list Node.t) :
  NoDup (map node_name nodes) ->
  (Graph.resolve nodes = Ret nodes <-> declared_in_order nodes)
  /\ (declared_in_order nodes ->
      Graph.order_names nodes
      = Ret (map node_name nodes, match nodes with [] => 0 | _ :: _ => 1 end)).
Proof.
  intros Hnd. split; [split|].
  - intros Hres.
    destruct (resolve_ret_names nodes Hnd nodes Hres) as [j [_ [_ [Hr _]]]].
    apply (sound_declared_in_order nodes Hnd nodes (incl_refl _)).
    rewrite Hr. apply rounds_sound; [apply map_keys_NoDup|apply sound_nil].
  - intros Hord. apply (declared_order_resolves nodes Hnd Hord).
  - intros Hord. apply (declared_order_resolves nodes Hnd Hord).
Qed.

Lemma resolve_keeps_valid_order_witness :
  declared_in_order [Chain.A; Chain.B; Chain.C]
  /\ Graph.order_names [Chain.A; Chain.B; Chain.C] = Ret (["A"; "B"; "C"], 1).
Proof.
  assert (Hnd : NoDup (map node_name [Chain.A; Chain.B; Chain.C])).
  { repeat constructor; cbn; intuition discriminate. }
  destruct (resolve_keeps_valid_order [Chain.A; Chain.B; Chain.C] Hnd) as [Hiff Hone].
  assert (Hord : declared_in_order [Chain.A; Chain.B; Chain.C]).
  { apply Hiff. reflexivity. }
  split; [exact Hord|exact (Hone Hord)].
Defined.

(** X3. For nodes with pairwise distinct state names, the order
    [Graph.resolve] returns is a fixed point: resolving it again
    returns it unchanged, in one round at most. *)
Theorem resolve_idempotent (nodes ordered : list Node.t) :
  NoDup (map node_name nodes) ->
  Graph.resolve nodes = Ret ordered ->
  Graph.resolve ordered = Ret ordered
  /\ exists r, r <= 1 /\ Graph.order_names ordered = Ret (map node_name ordered, r).
Proof.
  intros Hnd Hres.
  destruct (resolve_ret_names nodes Hnd ordered Hres) as [j [_ [_ [Hr [Hincl Hperm]]]]].
  assert (Hord : declared_in_order ordered).
  { apply (sound_declared_in_order nodes Hnd ordered Hincl).
    rewrite Hr. apply rounds_sound; [apply map_keys_NoDup|apply sound_nil]. }
  assert (Hnd' : NoDup (map node_name ordered)).
  { apply (Permutation_NoDup (Permutation_map node_name (Permutation_sym Hperm)) Hnd). }
  destruct (declared_order_resolves ordered Hnd' Hord) as [Ho Hres'].
  split; [exact Hres'|].
  eexists. split; [|exact Ho]. destruct ordered; lia.
Qed.

Lemma resolve_idempotent_witness :
  Graph.resolve [Chain.A; Chain.B; Chain.C] = Ret [Chain.A; Chain.B; Chain.C]
  /\ exists r, r <= 1
               /\ Graph.order_names [Chain.A; Chain.B; Chain.C]
                  = Ret (map node_name [Chain.A; Chain.B; Chain.C], r).
Proof.
  apply (resolve_idempotent Chain.nodes [Chain.A; Chain.B; Chain.C]).
  - repeat constructor; cbn; intuition discriminate.
  - reflexivity.
Defined.

(** ** The order within a round *)

Lemma fold_scan_declared_order (m : dict Info.t) (items : list (string * Info.t))
      (o : list string) :
  NoDup (map fst items) ->
  exists added,
    fold_left (scan_pure m) items o = o ++ added
    /\ added = filter (fun k => str_in k added) (map fst items)
    /\ (forall k, In k added -> ~ In k o)
    /\ incl added (map fst items).
Proof.
  revert o. induction items as [|it items IH]; intros o Hnd.
  - exists []. cbn. rewrite app_nil_r. repeat split; auto. intros x [].
  - inversion Hnd as [|? ? Hk Hnd']; subst. cbn [fold_left map].
    assert (Hskip : forall added', incl added' (map fst items) ->
                                   str_in (fst it) added' = false).
    { intros added' Hincl. apply str_in_false. intros Hin. exact (Hk (Hincl _ Hin)). }
    unfold scan_pure at 2.
    destruct (negb (str_in (fst it) o) && ready m o (snd it)) eqn:E.
    + apply andb_true_iff in E as [Ho _]. apply negb_true_iff, str_in_false in Ho.
      destruct (IH (o ++ [fst it]) Hnd') as [added' [Hf [Hfil [Hdis Hincl]]]].
      exists (fst it :: added'). split; [rewrite Hf, <- app_assoc; reflexivity|].
      split; [|split].
      * cbn [filter str_in existsb]. rewrite String.eqb_refl. cbn [orb]. f_equal.
        rewrite Hfil at 1. apply filter_ext_in. intros x Hx.
        destruct (String.eqb x (fst it)) eqn:Ex; [|reflexivity].
        apply String.eqb_eq in Ex. subst x. contradiction.
      * intros k [<-|Hin]; [exact Ho|]. intros Hko. apply (Hdis k Hin).
        apply in_or_app. left. exact Hko.
      * intros k [<-|Hin]; [left; reflexivity|right; apply Hincl, Hin].
    + destruct (IH o Hnd') as [added' [Hf [Hfil [Hdis Hincl]]]].
      exists added'. split; [exact Hf|]. split; [|split].
      * cbn [filter]. rewrite (Hskip added' Hincl). exact Hfil.
      * exact Hdis.
      * intros k Hin. right. apply Hincl, Hin.
Qed.

(** X4. A scanning round appends names in the order in which the map
    lists them, the order of declaration: what it appends is the list
    of the keys restricted to the names appended, none of them placed
    before. *)
Theorem round_in_declared_order (nodes : list Node.t) (o : list string) :
  incl o (keys (Graph.node_state_inputs_map nodes)) ->
  exists added,
    Graph.round (Graph.node_state_inputs_map nodes) o = Ret (o ++ added)
    /\ added = filter (fun k => str_in k added) (keys (Graph.node_state_inputs_map nodes))
    /\ forall k, In k added -> ~ In k o.
Proof.
  intros Ho. set (m := Graph.node_state_inputs_map nodes) in *.
  destruct (fold_scan_declared_order m m o (map_keys_NoDup nodes))
    as [added [Hf [Hfil [Hdis _]]]].
  exists added. split; [|split; assumption].
  rewrite (round_round_pure m o Ho). unfold round_pure. rewrite Hf. reflexivity.
Qed.

Lemma round_in_declared_order_witness :
  exists added,
    Graph.round (Graph.node_state_inputs_map Chain.nodes) ["A"] = Ret ("A" :: added)
    /\ added = filter (fun k => str_in k added) ["C"; "A"; "B"]
    /\ forall k, In k added -> ~ In k ["A"].
Proof.
  apply (round_in_declared_order Chain.nodes ["A"]).
  intros x [<-|[]]. right. left. reflexivity.
Defined.

(** ** search_by_path *)

Lemma search_by_path_unfold (s : State) (path : string) :
  search_by_path s path =
  match path_parts path with
  | [] => Ret None
  | p0 :: rest =>
      if String.eqb p0 (name s) then
        if List.length rest =? 0 then Ret (Some s)
        else if is_leaf s then Ret None
        else match _value s with
             | VList l | VTuple l => search_each l (join_slash rest)
             | v => Raise (iter_error v)
             end
      else Ret None
  end.
Proof.
  destruct s as [i n d v lf y]. cbn [search_by_path name is_leaf _value].
  destruct (path_parts path) as [|p0 rest]; [reflexivity|].
  destruct (String.eqb p0 n); [|reflexivity]. cbn [List.length Nat.eqb].
  destruct (List.length rest =? 0); [reflexivity|]. destruct lf; [reflexivity|].
  destruct v as [|z|l|st|l]; try reflexivity;
    (induction l as [|x l IH]; [reflexivity|];
     destruct x as [|z|l'|c|t']; try reflexivity; cbn [search_each];
     destruct (search_by_path c (join_slash rest)) as [[r|]|e]; cbn [bind];
     try reflexivity; exact IH).
Qed.

(** The result depends on the path through its non-empty components. *)
Lemma search_by_path_parts (s : State) (p q : string) :
  path_parts p = path_parts q -> search_by_path s p = search_by_path s q.
Proof. intros E. rewrite !search_by_path_unfold, E. reflexivity. Qed.

Lemma search_each_found (l : list pyval) (path : string) (r : State) :
  search_each l path = Ret (Some r) ->
  exists c, In c (states_of l) /\ search_by_path c path = Ret (Some r).
Proof.
  induction l as [|x l IH]; cbn [search_each]; [discriminate|].
  destruct x as [|z|l'|c|t']; try discriminate. cbn [states_of].
  destruct (search_by_path c path) as [[r'|]|e] eqn:E; cbn [bind]; try discriminate.
  - intros [= <-]. exists c. split; [left; reflexivity|exact E].
  - intros H. destruct (IH H) as [c' [Hc' Hs]]. exists c'. split; [right; exact Hc'|exact Hs].
Qed.

Lemma at_route_head (s r : State) (parts : list string) :
  at_route s parts r -> exists tl, parts = name s :: tl.
Proof. intros H. destruct H; eexists; reflexivity. Qed.

Lemma at_route_last (s r : State) (parts : list string) :
  at_route s parts r -> last parts "" = name r.
Proof.
  induction 1 as [s|s c r rest Hleaf Hc Hr IH]; [reflexivity|].
  destruct (at_route_head _ _ _ Hr) as [tl ->]. exact IH.
Qed.

(** What is found lies at the route of the components of the path. *)
Lemma search_at_route (s : State) :
  forall path r, search_by_path s path = Ret (Some r) -> at_route s (path_parts path) r.
Proof.
  induction s as [s IH] using State_substates_ind. intros path r.
  rewrite search_by_path_unfold. pose proof (path_parts_ok path) as Hok.
  destruct (path_parts path) as [|p0 rest]; [discriminate|].
  destruct (String.eqb p0 (name s)) eqn:E; [|discriminate].
  apply String.eqb_eq in E. subst p0.
  destruct rest as [|p1 rest]; cbn [List.length Nat.eqb].
  - intros [= <-]. constructor.
  - destruct (is_leaf s) eqn:Hleaf; [discriminate|].
    destruct (_value s) as [|z|l|st|l] eqn:Hv; try discriminate;
      (intros Hs; apply search_each_found in Hs as [c [Hc Hs]];
       assert (Hc' : In c (substates s)) by (unfold substates; rewrite Hleaf, Hv; exact Hc);
       apply (route_below s c r (p1 :: rest) Hleaf Hc');
       pose proof (Forall_inv_tail Hok) as Hok';
       rewrite <- (path_parts_join (p1 :: rest) Hok'); apply (IH c Hc' _ _ Hs)).
Qed.

(** X5. What [search_by_path] finds lies where the path says: the
    non-empty components of the path are the names from the state
    searched down to the state found. *)
Theorem search_by_path_sound (s : State) (path : string) (r : State) :
  search_by_path s path = Ret (Some r) ->
  at_route s (path_parts path) r
  /\ hd "" (path_parts path) = name s
  /\ last (path_parts path) "" = name r.
Proof.
  intros H. pose proof (search_at_route s path r H) as G.
  split; [exact G|]. split.
  - destruct (at_route_head _ _ _ G) as [tl ->]. reflexivity.
  - apply (at_route_last _ _ _ G).
Qed.

Lemma search_by_path_sound_witness :
  at_route Plant.plant (path_parts "plant/sub/y") Plant.y
  /\ hd "" (path_parts "plant/sub/y") = name Plant.plant
  /\ last (path_parts "plant/sub/y") "" = name Plant.y.
Proof. apply (search_by_path_sound Plant.plant "plant/sub/y" Plant.y). reflexivity. Defined.

Lemma at_route_names (s r : State) (parts : list string) :
  names_ok s = true -> at_route s parts r ->
  Forall (fun p => name_ok p = true) parts.
Proof.
  intros Hn H. induction H as [s|s c r rest Hleaf Hc Hr IH].
  - repeat constructor. apply (names_ok_inv s Hn).
  - destruct (names_ok_inv s Hn) as [H1 [_ H3]]. constructor; auto.
Qed.

(** In a well-shaped, well-named tree the state at a route is found. *)
Lemma at_route_found (s r : State) (parts : list string) :
  shape_ok s = true -> names_ok s = true -> at_route s parts r ->
  search_by_path s (join_slash parts) = Ret (Some r).
Proof.
  intros Hshape Hnames H. induction H as [s|s c r rest Hleaf Hc Hr IH].
  - rewrite search_by_path_unfold.
    rewrite (path_parts_join [name s])
      by (repeat constructor; apply (names_ok_inv s Hnames)).
    rewrite String.eqb_refl. reflexivity.
  - pose proof (at_route_names s r (name s :: rest) Hnames
                  (route_below s c r rest Hleaf Hc Hr)) as Hok.
    destruct (names_ok_inv s Hnames) as [_ [Hdistinct Hsub]].
    destruct (shape_ok_inv s Hshape Hleaf) as [tuple [Hv Hsh]].
    specialize (IH (Hsh c Hc) (Hsub c Hc)).
    destruct (at_route_head _ _ _ Hr) as [tl Etl].
    remember (substates s) as cs eqn:Ecs. clear Ecs.
    destruct s as [i n d v lf y]. cbn [is_leaf _value name] in *. subst v lf.
    rewrite search_by_path_hier, (path_parts_join _ Hok), String.eqb_refl.
    rewrite Etl. cbn [List.length Nat.eqb]. rewrite <- Etl.
    apply in_split in Hc as [l1 [l2 Ecs]]. rewrite Ecs, first_some_skip.
    + cbn [first_some]. rewrite IH. reflexivity.
    + intros c' Hc'. pose proof (Forall_inv_tail Hok) as Hok'.
      rewrite Etl. apply search_other_name; [rewrite <- Etl; exact Hok'|].
      intros E. rewrite Ecs, map_app in Hdistinct. cbn [map] in Hdistinct.
      apply NoDup_remove_2 in Hdistinct. apply Hdistinct, in_or_app. left.
      rewrite E. apply in_map, Hc'.
Qed.

(** X6. In a tree in which every hierarchical state holds a list of
    states, no name is empty or contains "/" and the substates of a
    state have distinct names, every state of the tree, leaf or
    hierarchical, is found by [search_by_path] under a path whose
    non-empty components are the names leading to it. *)
Theorem search_by_path_complete (s : State) (path : string) (r : State) :
  shape_ok s = true -> names_ok s = true ->
  at_route s (path_parts path) r ->
  search_by_path s path = Ret (Some r).
Proof.
  intros Hshape Hnames H. rewrite <- (at_route_found s r _ Hshape Hnames H).
  apply search_by_path_parts. symmetry. apply path_parts_join, path_parts_ok.
Qed.

(** The hierarchical state sub of plant, under a path with empty
    components. *)
Lemma search_by_path_complete_witness :
  search_by_path Plant.plant "/plant//sub/" = Ret (Some Plant.sub).
Proof.
  apply (search_by_path_complete Plant.plant "/plant//sub/" Plant.sub).
  - reflexivity.
  - reflexivity.
  - apply (route_below Plant.plant Plant.sub Plant.sub ["sub"]).
    + reflexivity.
    + right. left. reflexivity.
    + apply (route_here Plant.sub).
Defined.

(** *** Empty components *)

Lemma split_slash_cons (s : string) : exists h t, split_slash s = h :: t.
Proof.
  induction s as [|c s [h [t IH]]]; cbn; [eauto|].
  destruct (Ascii.eqb c slash); [eauto|]. rewrite IH. eauto.
Qed.

Lemma split_slash_concat (p q : string) :
  split_slash (p ++ String slash q) = split_slash p ++ split_slash q.
Proof.
  induction p as [|c p IH]; [reflexivity|].
  cbn [append split_slash]. rewrite IH.
  destruct (Ascii.eqb c slash); [reflexivity|].
  destruct (split_slash_cons p) as [h [t ->]]. reflexivity.
Qed.

Lemma path_parts_concat (p q : string) :
  path_parts (p ++ String slash q) = path_parts p ++ path_parts q.
Proof. unfold path_parts. rewrite split_slash_concat. apply filter_app. Qed.

(** X7. [search_by_path] ignores empty components: a slash in front, a
    slash at the end and a doubled slash change nothing, and the empty
    path finds nothing. *)
Theorem search_by_path_empty_components (s : State) (p q : string) :
  search_by_path s "" = Ret None
  /\ search_by_path s ("/" ++ p) = search_by_path s p
  /\ search_by_path s (p ++ "/") = search_by_path s p
  /\ search_by_path s (p ++ "//" ++ q) = search_by_path s (p ++ "/" ++ q).
Proof.
  split; [rewrite search_by_path_unfold; reflexivity|].
  split; [apply search_by_path_parts; reflexivity|].
  split; apply search_by_path_parts.
  - change (p ++ "/")%string with (p ++ String slash "")%string.
    rewrite path_parts_concat. apply app_nil_r.
  - change (p ++ "//" ++ q)%string with (p ++ String slash (String slash q))%string.
    change (p ++ "/" ++ q)%string with (p ++ String slash q)%string.
    rewrite !path_parts_concat. reflexivity.
Qed.

(** ** paths, get_all_states, is_defined *)

Lemma collect_states_shape :
  forall s acc ls, _collect_states s acc = Ret ls -> shape_ok s = true.
Proof.
  fix IH 1. intros [i n d v lf y] acc ls. cbn [_collect_states shape_ok].
  destruct lf; [reflexivity|]. cbn [orb].
  destruct v as [|z|l|st|l]; try discriminate;
    (revert acc; induction l as [|x l IHl]; intros acc H; [reflexivity|];
     destruct x as [|z|l'|c|t']; try discriminate;
     destruct (_collect_states c acc) as [states'|e] eqn:E; cbn [bind] in H; [|discriminate];
     rewrite (IH c _ _ E); exact (IHl _ H)).
Qed.

Lemma leaf_routes_leaves (s : State) (rt : list string * State) :
  In rt (leaf_routes s) -> is_leaf (snd rt) = true.
Proof.
  revert rt. induction s as [s IH] using State_substates_ind. intros rt Hrt.
  destruct s as [j n d v lf y]. destruct lf.
  - cbn in Hrt. destruct Hrt as [<-|[]]. reflexivity.
  - cbn [leaf_routes] in Hrt. unfold substates in IH. cbn [is_leaf _value] in IH.
    destruct v as [|z|l|st|l]; try (destruct Hrt);
      (induction l as [|x l IHl]; [destruct Hrt|];
       destruct x as [|z|l'|c|t']; cbn [states_of] in IH; try (apply IHl; assumption);
       apply in_app_or in Hrt as [Hrt|Hrt];
       [apply in_map_iff in Hrt as [rc [<- Hrc]]; cbn [snd];
        apply (IH c (or_introl eq_refl) rc Hrc)
       |apply IHl; [|exact Hrt]; intros c' Hc'; apply IH; right; exact Hc']).
Qed.

(** On a well-shaped state both traversals return, one entry for each
    leaf. *)
Lemma shape_traversals (s : State) :
  shape_ok s = true ->
  (forall prefix, exists l,
      (forall acc, _collect_paths s prefix acc = Ret (acc ++ l))
      /\ List.length l = List.length (leaf_routes s))
  /\ (forall acc, _collect_states s acc = Ret (acc ++ map snd (leaf_routes s))).
Proof.
  induction s as [s IH] using State_substates_ind. intros Hshape.
  destruct (is_leaf s) eqn:Hleaf.
  - rewrite (leaf_routes_leaf s Hleaf). split.
    + intros prefix. exists [current_path prefix (name s)]. split; [|reflexivity].
      intros acc. apply collect_paths_leaf, Hleaf.
    + intros acc. apply collect_states_leaf, Hleaf.
  - destruct (shape_ok_inv s Hshape Hleaf) as [tuple [Hv Hsh]].
    remember (substates s) as cs eqn:Ecs in *. clear Ecs.
    destruct s as [i n d v lf y]. cbn [is_leaf _value name] in *. subst v lf.
    assert (IHc : forall c, In c cs ->
                (forall prefix, exists l,
                    (forall acc, _collect_paths c prefix acc = Ret (acc ++ l))
                    /\ List.length l = List.length (leaf_routes c))
                /\ (forall acc, _collect_states c acc = Ret (acc ++ map snd (leaf_routes c)))).
    { intros c Hc. apply IH; auto. }
    clear IH Hsh Hshape. rewrite leaf_routes_hier. split.
    + intros prefix.
      assert (G : exists l,
                 (forall acc,
                     fold_res (fun c paths => _collect_paths c (current_path prefix n) paths)
                              cs acc = Ret (acc ++ l))
                 /\ List.length l
                    = List.length
                        (flat_map (fun c => map (fun rt => (n :: fst rt, snd rt))
                                                (leaf_routes c)) cs)).
      { induction cs as [|c cs IHcs].
        - exists []. split; [intros acc; cbn; rewrite app_nil_r; reflexivity|reflexivity].
        - destruct (IHc c (or_introl eq_refl)) as [Hp _].
          destruct (Hp (current_path prefix n)) as [lc [Hlc Hlen]].
          destruct (IHcs (fun c' Hc' => IHc c' (or_intror Hc'))) as [l [Hl Hlenl]].
          exists (lc ++ l). split.
          + intros acc. cbn [fold_res]. rewrite Hlc. cbn [bind]. rewrite Hl, app_assoc.
            reflexivity.
          + cbn [flat_map]. rewrite !length_app, length_map, Hlen, Hlenl. reflexivity. }
      destruct G as [l [Hl Hlen]]. exists l. split; [|exact Hlen].
      intros acc. rewrite collect_paths_hier. apply Hl.
    + intros acc. rewrite collect_states_hier.
      rewrite (fold_res_appends _ (fun c => map snd (leaf_routes c))).
      * f_equal. f_equal. apply flat_map_map_in. reflexivity.
      * intros c Hc acc'. apply (IHc c Hc).
Qed.

(** What the traversals raise: the error of a loop over a value that
    has no items, or that of an item that is not a state. *)
Lemma collect_paths_error :
  forall s prefix acc e,
    _collect_paths s prefix acc = Raise e ->
    e = TypeError_not_iterable \/ e = AttributeError.
Proof.
  fix IH 1. intros [i n d v lf y] prefix acc e. cbn [_collect_paths].
  destruct lf; [discriminate|].
  destruct v as [|z|l|st|l]; try (intros [= <-]; cbn [iter_error]; auto);
    (revert acc; induction l as [|x l IHl]; intros acc H; [discriminate|];
     destruct x as [|z|l'|c|t']; try (injection H as <-; auto);
     destruct (_collect_paths c _ acc) as [paths'|e'] eqn:E; cbn [bind] in H;
     [exact (IHl _ H)|injection H as <-; exact (IH c _ _ _ E)]).
Qed.

Lemma collect_states_error :
  forall s acc e,
    _collect_states s acc = Raise e ->
    e = TypeError_not_iterable \/ e = AttributeError.
Proof.
  fix IH 1. intros [i n d v lf y] acc e. cbn [_collect_states].
  destruct lf; [discriminate|].
  destruct v as [|z|l|st|l]; try (intros [= <-]; cbn [iter_error]; auto);
    (revert acc; induction l as [|x l IHl]; intros acc H; [discriminate|];
     destruct x as [|z|l'|c|t']; try (injection H as <-; auto);
     destruct (_collect_states c acc) as [states'|e'] eqn:E; cbn [bind] in H;
     [exact (IHl _ H)|injection H as <-; exact (IH c _ _ E)]).
Qed.

(** X8. [paths] and [get_all_states()] return on the same states: those
    in which every state flagged as hierarchical holds a list, or
    another container (a tuple; an empty string), whose items are all
    states of this kind.  They then have the same length, and
    [get_all_states()] holds states flagged as leaves only.  On every
    other state both raise: the [TypeError] of a loop over [None] or a
    number, or the [AttributeError] of an item that is not a state (or
    of a loop over a [State]). *)
Theorem traversals_agree (t : State) :
  ((exists ps, paths t = Ret ps) <-> shape_ok t = true)
  /\ ((exists ls, get_all_states t = Ret ls) <-> shape_ok t = true)
  /\ (forall ps ls, paths t = Ret ps -> get_all_states t = Ret ls ->
                    List.length ps = List.length ls
                    /\ Forall (fun leaf => is_leaf leaf = true) ls)
  /\ (shape_ok t = false ->
      exists e e', paths t = Raise e /\ get_all_states t = Raise e'
                   /\ (e = TypeError_not_iterable \/ e = AttributeError)
                   /\ (e' = TypeError_not_iterable \/ e' = AttributeError)).
Proof.
  split; [|split; [|split]].
  - split.
    + intros [ps H]. apply (collect_paths_shape t _ _ _ H).
    + intros H. destruct (shape_traversals t H) as [Hp _].
      destruct (Hp "") as [l [Hl _]]. exists l. apply (Hl []).
  - split.
    + intros [ls H]. apply (collect_states_shape t _ _ H).
    + intros H. destruct (shape_traversals t H) as [_ Hs]. eexists. apply (Hs []).
  - intros ps ls Hps Hls. pose proof (collect_paths_shape t _ _ _ Hps) as Hshape.
    destruct (shape_traversals t Hshape) as [Hp Hs].
    destruct (Hp "") as [l [Hl Hlen]]. unfold paths in Hps. rewrite Hl in Hps.
    injection Hps as <-. unfold get_all_states in Hls. rewrite Hs in Hls.
    injection Hls as <-. cbn [app]. split; [rewrite Hlen, length_map; reflexivity|].
    apply Forall_forall. intros leaf Hin. apply in_map_iff in Hin as [rt [<- Hrt]].
    apply (leaf_routes_leaves t rt Hrt).
  - intros Hshape. unfold paths, get_all_states.
    destruct (_collect_paths t "" []) as [ps|e] eqn:Ep.
    { rewrite (collect_paths_shape t _ _ _ Ep) in Hshape. discriminate. }
    destruct (_collect_states t []) as [ls|e'] eqn:Es.
    { rewrite (collect_states_shape t _ _ Es) in Hshape. discriminate. }
    exists e, e'. repeat split.
    + apply (collect_paths_error t _ _ _ Ep).
    + apply (collect_states_error t _ _ Es).
Qed.

(** A hierarchical state assigned a tuple of states is walked, one
    assigned a number is not. *)
Lemma traversals_agree_witness :
  (exists e e', paths (set_value Plant.plant (VNum 3)) = Raise e
                /\ get_all_states (set_value Plant.plant (VNum 3)) = Raise e'
                /\ (e = TypeError_not_iterable \/ e = AttributeError)
                /\ (e' = TypeError_not_iterable \/ e' = AttributeError))
  /\ List.length ["plant/y"] = List.length [Plant.y]
  /\ Forall (fun leaf => is_leaf leaf = true) [Plant.y].
Proof.
  destruct (traversals_agree (set_value Plant.plant (VNum 3))) as [_ [_ [_ H]]].
  split; [apply H; reflexivity|].
  destruct (traversals_agree (set_value Plant.plant (VTuple [VState Plant.y])))
    as [_ [_ [H' _]]].
  apply (H' ["plant/y"] [Plant.y]); reflexivity.
Defined.

(** The leaves listed are the leaves that can be reached. *)
Lemma leaf_routes_at_route (s : State) :
  shape_ok s = true ->
  forall parts r, In (parts, r) (leaf_routes s) <-> at_route s parts r /\ is_leaf r = true.
Proof.
  induction s as [s IH] using State_substates_ind. intros Hshape parts r.
  destruct (is_leaf s) eqn:Hleaf.
  - rewrite (leaf_routes_leaf s Hleaf). split.
    + intros [[= <- <-]|[]]. split; [constructor|exact Hleaf].
    + intros [H _]. inversion H as [|? c ? rest Hl]; subst; [left; reflexivity|congruence].
  - destruct (shape_ok_inv s Hshape Hleaf) as [tuple [Hv Hsh]].
    assert (Hat : forall parts r,
               at_route s parts r <->
               (parts = [name s] /\ r = s)
               \/ exists c rest, parts = name s :: rest /\ In c (substates s)
                                 /\ at_route c rest r).
    { intros p q. split.
      - intros H. inversion H as [|? c ? rest _ Hc Hr]; subst; [left; auto|].
        right. exists c, rest. auto.
      - intros [[-> ->]|[c [rest [-> [Hc Hr]]]]]; [constructor|].
        apply (route_below s c q rest Hleaf Hc Hr). }
    rewrite Hat. clear Hat.
    remember (substates s) as cs eqn:Ecs in *. clear Ecs.
    destruct s as [i n d v lf y]. cbn [is_leaf _value name] in *. subst v lf.
    rewrite leaf_routes_hier. split.
    + intros Hin. apply in_flat_map in Hin as [c [Hc Hin]].
      apply in_map_iff in Hin as [rc [[= <- <-] Hrc]].
      destruct rc as [pc rcs]. apply (IH c Hc (Hsh c Hc)) in Hrc as [Hr Hl].
      split; [|exact Hl]. right. exists c, pc. auto.
    + intros [[[-> ->]|[c [rest [-> [Hc Hr]]]]] Hl]; [discriminate|].
      apply in_flat_map. exists c. split; [exact Hc|].
      apply in_map_iff. exists (rest, r). split; [reflexivity|].
      apply (IH c Hc (Hsh c Hc)). split; assumption.
Qed.

(** X9. On a state in which every hierarchical state holds a list of
    states, [is_defined] returns, and it is true exactly when no leaf
    that can be reached from the state holds [None]. *)
Theorem is_defined_spec (t : State) :
  shape_ok t = true ->
  exists b, is_defined t = Ret b
            /\ (b = true <->
                forall parts leaf, at_route t parts leaf -> is_leaf leaf = true ->
                                   _value leaf <> VNone).
Proof.
  intros Hshape. destruct (shape_traversals t Hshape) as [_ Hs].
  unfold is_defined, get_all_states. rewrite Hs. cbn [bind app].
  eexists. split; [reflexivity|]. rewrite forallb_forall. split.
  - intros H parts leaf Hr Hl Hnone.
    assert (Hin : In leaf (map snd (leaf_routes t))).
    { apply in_map_iff. exists (parts, leaf). split; [reflexivity|].
      apply (leaf_routes_at_route t Hshape). auto. }
    apply H in Hin. rewrite Hnone in Hin. discriminate.
  - intros H leaf Hin. apply in_map_iff in Hin as [[parts l] [<- Hrt]]. cbn [snd].
    apply (leaf_routes_at_route t Hshape) in Hrt as [Hr Hl].
    specialize (H parts l Hr Hl). destruct (_value l); try reflexivity. congruence.
Qed.

Lemma is_defined_spec_witness :
  exists b, is_defined Plant.plant = Ret b
            /\ (b = true <->
                forall parts leaf, at_route Plant.plant parts leaf -> is_leaf leaf = true ->
                                   _value leaf <> VNone).
Proof. apply (is_defined_spec Plant.plant). reflexivity. Defined.

(** ** Inputs: resolve, __getitem__, collect *)

Lemma find_states_acc (paths : list string) (catalog : list State) :
  forall acc fs,
    Inputs.find_states paths catalog acc = Ret fs ->
    exists hits, fs = acc ++ hits
                 /\ List.length hits <= List.length paths
                 /\ (List.length hits = List.length paths ->
                     Forall2 (fun p s => Inputs.first_found catalog p = Ret (Some s))
                             paths hits).
Proof.
  induction paths as [|p paths IH]; intros acc fs H; cbn [Inputs.find_states] in H.
  - injection H as <-. exists []. rewrite app_nil_r. repeat split; auto.
  - destruct (Inputs.first_found catalog p) as [[f|]|e] eqn:Ef; cbn [bind] in H;
      [| |discriminate].
    + destruct (IH _ _ H) as [hits [-> [Hle Hall]]]. exists (f :: hits).
      rewrite <- app_assoc. cbn [app List.length]. repeat split; [lia|].
      intros Hlen. constructor; [exact Ef|]. apply Hall. lia.
    + destruct (IH _ _ H) as [hits [-> [Hle Hall]]]. exists hits.
      cbn [List.length]. repeat split; [lia|]. intros Hlen. lia.
Qed.

Lemma find_states_all (paths : list string) (catalog sts : list State) :
  Forall2 (fun p s => Inputs.first_found catalog p = Ret (Some s)) paths sts ->
  forall acc, Inputs.find_states paths catalog acc = Ret (acc ++ sts).
Proof.
  induction 1 as [|p s paths sts Hp _ IH]; intros acc; cbn [Inputs.find_states].
  - rewrite app_nil_r. reflexivity.
  - rewrite Hp. cbn [bind]. rewrite IH, <- app_assoc. reflexivity.
Qed.

Lemma Forall2_and_right {A B : Type} (P : A -> B -> Prop) (Q : B -> Prop)
      (l : list A) (l' : list B) :
  Forall2 (fun a b => P a b /\ Q b) l l' <-> Forall2 P l l' /\ Forall Q l'.
Proof.
  split.
  - induction 1 as [|a b l l' [Hp Hq] _ [IH1 IH2]]; split; constructor; auto.
  - intros [H1 H2]. induction H1 as [|a b l l' Hp _ IH]; constructor.
    + split; [exact Hp|exact (Forall_inv H2)].
    + apply IH. exact (Forall_inv_tail H2).
Qed.

(** What a call of [resolve] that returns has stored. *)
Lemma resolve_ret (self r : Inputs.t) (catalog : list State) :
  Inputs.resolve self catalog = Ret r <->
  Inputs.paths_to_states r = Inputs.paths_to_states self
  /\ Inputs._resolved r = true
  /\ Forall2 (fun p s => Inputs.first_found catalog p = Ret (Some s))
             (Inputs.paths_to_states self) (Inputs.states r)
  /\ forallb is_leaf (Inputs.states r) = true.
Proof.
  unfold Inputs.resolve. split.
  - intros H.
    destruct (Inputs.find_states _ _ _) as [found|e] eqn:Ef; cbn [bind] in H; [|discriminate].
    destruct (_ =? _) eqn:El; [|discriminate].
    destruct (forallb is_leaf found) eqn:Elf; [|discriminate].
    injection H as <-. cbn. apply Nat.eqb_eq in El.
    destruct (find_states_acc _ _ _ _ Ef) as [hits [-> [_ Hall]]]. cbn [app] in *.
    repeat split; auto.
  - destruct r as [ps sts fl]. cbn. intros [-> [-> [Hall Hlf]]].
    rewrite (find_states_all _ _ _ Hall). cbn [bind app].
    rewrite (Forall2_length Hall), Nat.eqb_refl, Hlf. reflexivity.
Qed.

(** X10. [resolve] returns exactly when every declared path is found in
    some state of the catalog and the state found first is flagged as
    a leaf; the resolver then holds, for each path in turn, the state
    found in the first state of the catalog in which the path is
    found.  When a path is found nowhere, nothing is raised at once:
    the call goes on and raises the [ValueError] at its end; a state
    found that is not a leaf makes it raise the [AssertionError]. *)
Theorem Inputs_resolve_first_match (self : Inputs.t) (catalog : list State) :
  (forall r,
      Inputs.resolve self catalog = Ret r <->
      r = Inputs.mk (Inputs.paths_to_states self) (Inputs.states r) true
      /\ Forall2 (fun p s => Inputs.first_found catalog p = Ret (Some s)
                             /\ is_leaf s = true)
                 (Inputs.paths_to_states self) (Inputs.states r))
  /\ (forall p, In p (Inputs.paths_to_states self) ->
                Inputs.first_found catalog p = Ret None ->
                (forall q e, In q (Inputs.paths_to_states self) ->
                             Inputs.first_found catalog q <> Raise e) ->
                exists missing,
                  Inputs.resolve self catalog = Raise (ValueError_missing_paths missing))
  /\ (forall sts,
         Forall2 (fun p s => Inputs.first_found catalog p = Ret (Some s))
                 (Inputs.paths_to_states self) sts ->
         Exists (fun s => is_leaf s = false) sts ->
         Inputs.resolve self catalog = Raise AssertionError_inputs_not_leaf).
Proof.
  split; [|split].
  - intros [ps sts fl]. rewrite resolve_ret. cbn [Inputs.paths_to_states Inputs.states
                                                    Inputs._resolved].
    rewrite Forall2_and_right, Forall_forall, forallb_forall. split.
    + intros [-> [-> [Hall Hlf]]]. auto.
    + intros [[= <-] [Hall Hlf]]. auto.
  - intros p Hp Hnone Hnoexn. unfold Inputs.resolve.
    destruct (Inputs.find_states _ _ _) as [found|e] eqn:Ef; cbn [bind].
    + destruct (_ =? _) eqn:El; [|eexists; reflexivity]. exfalso.
      apply Nat.eqb_eq in El.
      destruct (find_states_acc _ _ _ _ Ef) as [hits [-> [_ Hall]]]. cbn [app] in *.
      specialize (Hall (eq_sym El)). clear -Hall Hp Hnone.
      induction Hall as [|q s ps sts Hq Hall IH]; [destruct Hp|].
      destruct Hp as [->|Hp]; [congruence|auto].
    + exfalso. clear -Ef Hnoexn. revert Ef. generalize (@nil State).
      induction (Inputs.paths_to_states self) as [|q ps IH]; intros acc Ef;
        cbn [Inputs.find_states] in Ef; [discriminate|].
      destruct (Inputs.first_found catalog q) as [f|e'] eqn:Eq; cbn [bind] in Ef.
      * apply (IH (fun q' e' Hq' => Hnoexn q' e' (or_intror Hq')) _ Ef).
      * apply (Hnoexn q e' (or_introl eq_refl) Eq).
  - intros sts Hall Hex. unfold Inputs.resolve.
    rewrite (find_states_all _ _ _ Hall). cbn [bind app].
    rewrite (Forall2_length Hall), Nat.eqb_refl.
    destruct (forallb is_leaf sts) eqn:Hlf; [|reflexivity]. exfalso.
    rewrite forallb_forall in Hlf. apply Exists_exists in Hex as [s [Hs Hl]].
    rewrite (Hlf s Hs) in Hl. discriminate.
Qed.

(** Against a catalog of leaves a path is found when it has one
    component, the name of a leaf. *)
Lemma first_found_leaves (catalog : list State) (p : string) :
  Forall (fun c => is_leaf c = true) catalog ->
  Inputs.first_found catalog p
  = Ret (find (fun c => match path_parts p with
                        | [p0] => String.eqb p0 (name c)
                        | _ => false
                        end) catalog).
Proof.
  induction 1 as [|c catalog Hc _ IH]; [reflexivity|]. cbn [Inputs.first_found find].
  rewrite (search_by_path_leaf c p Hc).
  destruct (path_parts p) as [|p0 [|p1 rest]]; cbn [bind List.length Nat.eqb andb].
  - rewrite IH. clear. induction catalog; cbn; auto.
  - destruct (String.eqb p0 (name c)); cbn [andb bind]; [reflexivity|exact IH].
  - rewrite andb_false_r. cbn [bind]. rewrite IH. clear. induction catalog; cbn; auto.
Qed.

Lemma first_found_leaves_some (catalog : list State) (p : string) (s : State) :
  Forall (fun c => is_leaf c = true) catalog ->
  Inputs.first_found catalog p = Ret (Some s) ->
  In s catalog /\ path_parts p = [name s].
Proof.
  intros Hl H. rewrite (first_found_leaves catalog p Hl) in H. injection H as H.
  apply find_some in H as [Hin H]. split; [exact Hin|].
  destruct (path_parts p) as [|p0 [|p1 rest]]; try discriminate.
  apply String.eqb_eq in H. congruence.
Qed.

Lemma first_found_leaves_none (catalog : list State) (p : string) :
  Forall (fun c => is_leaf c = true) catalog ->
  Inputs.first_found catalog p = Ret None ->
  forall c, In c catalog -> path_parts p <> [name c].
Proof.
  intros Hl H c Hc Hp. rewrite (first_found_leaves catalog p Hl) in H. injection H as H.
  apply (find_none _ _ H) in Hc. rewrite Hp, String.eqb_refl in Hc. discriminate.
Qed.

Lemma path_parts_single (p n : string) : path_parts p = [n] -> path_parts n = [n].
Proof.
  intros H. pose proof (path_parts_ok p) as Hok. rewrite H in Hok.
  apply Forall_inv in Hok. unfold name_ok in Hok. apply andb_true_iff in Hok as [Ht Hs].
  apply negb_true_iff in Hs. unfold path_parts. rewrite (split_slash_plain n Hs).
  cbn [filter]. rewrite Ht. reflexivity.
Qed.

Lemma leaves_resolve (self : Inputs.t) (catalog : list State) :
  Forall (fun c => is_leaf c = true) catalog ->
  Forall (fun p => exists c, In c catalog /\ path_parts p = [name c])
         (Inputs.paths_to_states self) ->
  exists r, Inputs.resolve self catalog = Ret r.
Proof.
  intros Hl Hall.
  assert (G : forall ps,
             Forall (fun p => exists c, In c catalog /\ path_parts p = [name c]) ps ->
             exists sts,
               Forall2 (fun p s => Inputs.first_found catalog p = Ret (Some s)) ps sts
               /\ forallb is_leaf sts = true).
  { clear -Hl. induction 1 as [|p ps [c [Hc Hp]] _ [sts [IH1 IH2]]].
    - exists []. split; [constructor|reflexivity].
    - destruct (find (fun c => match path_parts p with
                               | [p0] => String.eqb p0 (name c)
                               | _ => false
                               end) catalog) as [s|] eqn:Ef.
      + exists (s :: sts). split.
        * constructor; [|exact IH1].
          rewrite (first_found_leaves catalog p Hl), Ef. reflexivity.
        * cbn [forallb]. rewrite IH2, andb_true_r.
          apply find_some in Ef as [Hs _]. rewrite Forall_forall in Hl. auto.
      + exfalso. apply (find_none _ _ Ef) in Hc.
        rewrite Hp, String.eqb_refl in Hc. discriminate. }
  destruct (G _ Hall) as [sts [H1 H2]].
  exists (Inputs.mk (Inputs.paths_to_states self) sts true).
  apply resolve_ret. cbn. auto.
Qed.

(** X11. Against a catalog of leaves, as [Graph.__init__] passes one,
    [resolve] returns exactly when every declared path has a single
    component that is the name of a state of the catalog, and it
    stores states of the catalog; otherwise it raises the
    [ValueError], whose message lists every path that was not found.
    A path with two components or more is never found. *)
Theorem resolve_against_leaves (self : Inputs.t) (catalog : list State) :
  Forall (fun c => is_leaf c = true) catalog ->
  ((exists r, Inputs.resolve self catalog = Ret r) <->
   Forall (fun p => exists c, In c catalog /\ path_parts p = [name c])
          (Inputs.paths_to_states self))
  /\ (forall r, Inputs.resolve self catalog = Ret r ->
                Forall2 (fun p s => In s catalog /\ path_parts p = [name s])
                        (Inputs.paths_to_states self) (Inputs.states r))
  /\ ((exists r, Inputs.resolve self catalog = Ret r)
      \/ exists missing,
          Inputs.resolve self catalog = Raise (ValueError_missing_paths missing)
          /\ forall p, In p (Inputs.paths_to_states self) ->
                       (forall c, In c catalog -> path_parts p <> [name c]) ->
                       In p missing).
Proof.
  intros Hl.
  assert (Hret : forall r, Inputs.resolve self catalog = Ret r ->
                           Forall2 (fun p s => In s catalog /\ path_parts p = [name s])
                                   (Inputs.paths_to_states self) (Inputs.states r)).
  { intros r Hr. apply resolve_ret in Hr as [_ [_ [Hall _]]].
    revert Hall. generalize (Inputs.states r). generalize (Inputs.paths_to_states self).
    induction 1 as [|p s ps sts Hps Hall IH]; constructor; auto.
    apply (first_found_leaves_some catalog p s Hl Hps). }
  assert (Hfound : forall acc,
             Inputs.find_states (Inputs.paths_to_states self) catalog acc
             = Ret (acc ++ flat_map
                      (fun p => match find (fun c => match path_parts p with
                                                     | [p0] => String.eqb p0 (name c)
                                                     | _ => false
                                                     end) catalog with
                                | Some s => [s]
                                | None => []
                                end) (Inputs.paths_to_states self))).
  { clear Hret. induction (Inputs.paths_to_states self) as [|p ps IH]; intros acc;
      cbn [Inputs.find_states flat_map]; [rewrite app_nil_r; reflexivity|].
    rewrite (first_found_leaves catalog p Hl). cbn [bind].
    destruct (find _ catalog) as [s|]; rewrite IH; [|reflexivity].
    rewrite <- app_assoc. reflexivity. }
  split; [|split; [exact Hret|]].
  - split.
    + intros [r Hr]. specialize (Hret r Hr). clear -Hret. revert Hret.
      generalize (Inputs.states r). generalize (Inputs.paths_to_states self).
      induction 1 as [|p s ps sts [Hin Hp] _ IH]; constructor; eauto.
    + intros Hall. apply (leaves_resolve self catalog Hl Hall).
  - unfold Inputs.resolve. rewrite Hfound. cbn [bind app].
    set (found := flat_map _ _).
    assert (Hleaves : forallb is_leaf found = true).
    { apply forallb_forall. intros s Hs. apply in_flat_map in Hs as [p [_ Hs]].
      destruct (find _ catalog) as [s'|] eqn:Ef; [|destruct Hs].
      destruct Hs as [<-|[]]. apply find_some in Ef as [Hin _].
      rewrite Forall_forall in Hl. auto. }
    rewrite Hleaves. destruct (_ =? _); [left; eexists; reflexivity|].
    right. eexists. split; [reflexivity|].
    intros p Hp Hno. apply filter_In. split.
    + clear -Hp. induction (Inputs.paths_to_states self) as [|q ps IH]; [destruct Hp|].
      cbn [set_of]. destruct (str_in q ps) eqn:Eq.
      * destruct Hp as [->|Hp]; [|auto]. apply IH. apply str_in_In. exact Eq.
      * destruct Hp as [->|Hp]; [left; reflexivity|right; auto].
    + apply negb_true_iff. apply str_in_false. intros Hin.
      apply in_map_iff in Hin as [s [Hname Hs]].
      apply in_flat_map in Hs as [q [_ Hs]].
      destruct (find _ catalog) as [s'|] eqn:Ef; [|destruct Hs].
      destruct Hs as [<-|[]]. apply find_some in Ef as [Hin Hq].
      destruct (path_parts q) as [|q0 [|q1 rest]] eqn:Eparts; try discriminate.
      apply String.eqb_eq in Hq. subst q0.
      apply (Hno s' Hin). rewrite <- Hname. apply (path_parts_single q). exact Eparts.
Qed.

Lemma resolve_against_leaves_witness :
  ((exists r, Inputs.resolve (Inputs.init ["plant/x"]) [Plant.x; Plant.y] = Ret r) <->
   Forall (fun p => exists c, In c [Plant.x; Plant.y] /\ path_parts p = [name c])
          ["plant/x"])
  /\ (forall r, Inputs.resolve (Inputs.init ["plant/x"]) [Plant.x; Plant.y] = Ret r ->
                Forall2 (fun p s => In s [Plant.x; Plant.y] /\ path_parts p = [name s])
                        ["plant/x"] (Inputs.states r))
  /\ ((exists r, Inputs.resolve (Inputs.init ["plant/x"]) [Plant.x; Plant.y] = Ret r)
      \/ exists missing,
          Inputs.resolve (Inputs.init ["plant/x"]) [Plant.x; Plant.y]
          = Raise (ValueError_missing_paths missing)
          /\ forall p, In p ["plant/x"] ->
                       (forall c, In c [Plant.x; Plant.y] -> path_parts p <> [name c]) ->
                       In p missing).
Proof.
  apply (resolve_against_leaves (Inputs.init ["plant/x"]) [Plant.x; Plant.y]).
  repeat constructor.
Defined.

Lemma index_spec (key : string) (l : list string) :
  match Inputs.index key l with
  | Some i => nth_error l i = Some key /\ ~ In key (firstn i l)
  | None => ~ In key l
  end.
Proof.
  induction l as [|x l IH]; cbn [Inputs.index]; [intros []|].
  destruct (String.eqb x key) eqn:E.
  - apply String.eqb_eq in E. subst. split; [reflexivity|intros []].
  - apply String.eqb_neq in E. destruct (Inputs.index key l) as [i|].
    + destruct IH as [Hn Hf]. split; [exact Hn|]. cbn [firstn]. intros [H|H]; auto.
    + intros [H|H]; auto.
Qed.

Lemma Forall2_nth_error {A B : Type} (P : A -> B -> Prop) (l : list A) (l' : list B) :
  Forall2 P l l' ->
  forall i a, nth_error l i = Some a -> exists b, nth_error l' i = Some b /\ P a b.
Proof.
  induction 1 as [|x y l l' Hxy _ IH]; intros [|i] a Ha; cbn in *; try discriminate.
  - injection Ha as <-. eauto.
  - eauto.
Qed.

(** X12. After a call of [resolve] that returned, looking up a declared
    path gives the leaf found for this path in the catalog, first
    match first, also when the path is declared twice; looking up
    anything else, the state's own name included when it differs from
    the path as written, raises the [KeyError]. *)
Theorem getitem_after_resolve (self r : Inputs.t) (catalog : list State) :
  Inputs.resolve self catalog = Ret r ->
  forall key,
    (In key (Inputs.paths_to_states self) ->
     exists s, Inputs.getitem r key = Ret s
               /\ Inputs.first_found catalog key = Ret (Some s)
               /\ is_leaf s = true)
    /\ (~ In key (Inputs.paths_to_states self) ->
        Inputs.getitem r key = Raise (KeyError_input key)).
Proof.
  intros Hr key. apply resolve_ret in Hr as [Hp [Hfl [Hall Hlf]]].
  unfold Inputs.getitem. rewrite Hfl, Hp. cbn [negb].
  pose proof (index_spec key (Inputs.paths_to_states self)) as Hi.
  destruct (Inputs.index key (Inputs.paths_to_states self)) as [i|].
  - destruct Hi as [Hn _].
    destruct (Forall2_nth_error _ _ _ Hall i key Hn) as [s [Hs Hfound]].
    rewrite Hs. split.
    + intros _. exists s. repeat split; auto.
      rewrite forallb_forall in Hlf. apply Hlf. apply (nth_error_In _ _ Hs).
    + intros Hno. exfalso. apply Hno. apply (nth_error_In _ _ Hn).
  - split; [intros Hin; contradiction|reflexivity].
Qed.

Lemma getitem_after_resolve_witness :
  (exists s, Inputs.getitem (Inputs.mk ["/x"; "y"] [Plant.x; Plant.y] true) "/x" = Ret s
             /\ Inputs.first_found [Plant.x; Plant.y] "/x" = Ret (Some s)
             /\ is_leaf s = true)
  /\ Inputs.getitem (Inputs.mk ["/x"; "y"] [Plant.x; Plant.y] true) "x"
     = Raise (KeyError_input "x").
Proof.
  pose proof (getitem_after_resolve (Inputs.init ["/x"; "y"])
                (Inputs.mk ["/x"; "y"] [Plant.x; Plant.y] true) [Plant.x; Plant.y]
                eq_refl) as H.
  split.
  - apply (proj1 (H "/x")). left. reflexivity.
  - apply (proj2 (H "x")). cbn. intuition discriminate.
Defined.

(** Reading a leaf. *)
Lemma value_leaf (symbolic : bool) (s : State) :
  is_leaf s = true ->
  value symbolic s
  = if symbolic
    then (Ret (Leaf_descr (name s) (dims s) (Symbolic (fst (to_casadi_symbolic s)))),
          snd (to_casadi_symbolic s))
    else (Ret (Leaf_descr (name s) (dims s) (Concrete (_value s))), s).
Proof.
  destruct s as [i n d v lf y]. cbn [is_leaf]. intros ->. cbn [value name dims _value].
  destruct symbolic; [|reflexivity].
  destruct (to_casadi_symbolic _) as [val s']. reflexivity.
Qed.

(** The value a read of a leaf puts in the dictionary. *)
Lemma collect_states_leaves (symbolic : bool) (sts : list State) :
  Forall (fun s => is_leaf s = true) sts ->
  forall acc,
    Inputs.collect_states symbolic sts acc
    = (Ret (fold_left (fun d s => dict_set d (name s)
                                    (if symbolic
                                     then Symbolic (fst (to_casadi_symbolic s))
                                     else Concrete (_value s))) sts acc),
       map (fun s => if symbolic then snd (to_casadi_symbolic s) else s) sts).
Proof.
  induction 1 as [|s sts Hs _ IH]; intros acc; [reflexivity|].
  cbn [Inputs.collect_states fold_left map]. rewrite (value_leaf symbolic s Hs).
  destruct symbolic; cbn [bind descr_value]; rewrite IH; reflexivity.
Qed.

Lemma dict_get_fold_set {X V : Type} (key : X -> string) (val : X -> V) (xs : list X) :
  forall (d : dict V) (k : string) (v : V),
    dict_get (fold_left (fun d x => dict_set d (key x) (val x)) xs d) k = Some v <->
    (exists before x after,
        xs = before ++ x :: after /\ key x = k /\ val x = v
        /\ ~ In k (map key after))
    \/ (dict_get d k = Some v /\ ~ In k (map key xs)).
Proof.
  induction xs as [|x xs IH]; intros d k v; cbn [fold_left map].
  - split; [intros H; right; auto|].
    intros [[before [x [after [H _]]]]|[H _]]; [destruct before; discriminate|exact H].
  - rewrite IH. split.
    + intros [[before [x' [after [-> [Hk [Hv Hno]]]]]]|[Hget Hno]].
      * left. exists (x :: before), x', after. auto.
      * destruct (String.eqb k (key x)) eqn:E.
        -- apply String.eqb_eq in E. subst k. rewrite dict_get_set_same in Hget.
           injection Hget as <-. left. exists [], x, xs. auto.
        -- apply String.eqb_neq in E. rewrite dict_get_set_other in Hget by congruence.
           right. split; [exact Hget|]. intros [H|H]; [congruence|auto].
    + intros [[before [x' [after [Hxs [Hk [Hv Hno]]]]]]|[Hget Hno]].
      * destruct before as [|b before]; cbn [app] in Hxs; injection Hxs as -> ->.
        -- right. subst k v. rewrite dict_get_set_same. auto.
        -- left. exists before, x', after. auto.
      * right. split; [|intros H; apply Hno; right; exact H].
        rewrite dict_get_set_other; [exact Hget|]. intros ->. apply Hno. left. reflexivity.
Qed.

(** X13. After a call of [resolve] that returned, [collect()] returns in
    either mode: the dictionary has one entry for each name among the
    resolved states, holding what reading the last resolved state of
    this name gives, and in concrete mode the resolver is left as it
    is. *)
Theorem collect_after_resolve (symbolic : bool) (self r : Inputs.t)
        (catalog : list State) :
  Inputs.resolve self catalog = Ret r ->
  exists out r',
    Inputs.collect symbolic r = (Ret out, r')
    /\ (forall k v,
           dict_get out k = Some v <->
           exists before s after,
             Inputs.states r = before ++ s :: after /\ name s = k
             /\ ~ In k (map name after)
             /\ fst (value symbolic s) = Ret (Leaf_descr (name s) (dims s) v))
    /\ (symbolic = false -> r' = r)
    /\ Inputs._resolved r' = true
    /\ Inputs.paths_to_states r' = Inputs.paths_to_states r
    /\ map name (Inputs.states r') = map name (Inputs.states r).
Proof.
  intros Hr. apply resolve_ret in Hr as [Hp [Hfl [Hall Hlf]]].
  assert (Hleaves : Forall (fun s => is_leaf s = true) (Inputs.states r)).
  { apply Forall_forall. rewrite forallb_forall in Hlf. exact Hlf. }
  unfold Inputs.collect. destruct (0 <? _) eqn:Hlen.
  - rewrite Hfl. cbn [negb]. rewrite (collect_states_leaves symbolic _ Hleaves).
    eexists. eexists. split; [reflexivity|]. split; [|split; [|split; [|split]]].
    + intros k v. rewrite dict_get_fold_set. split.
      * intros [[before [s [after [Hs [Hk [Hv Hno]]]]]]|[H _]]; [|discriminate].
        exists before, s, after. repeat split; auto.
        rewrite (value_leaf symbolic s); [|rewrite Forall_forall in Hleaves;
                                           apply Hleaves; rewrite Hs; apply in_elt].
        destruct symbolic; cbn [fst]; rewrite Hv; reflexivity.
      * intros [before [s [after [Hs [Hk [Hno Hv]]]]]]. left.
        exists before, s, after. repeat split; auto.
        rewrite (value_leaf symbolic s) in Hv; [|rewrite Forall_forall in Hleaves;
                                                 apply Hleaves; rewrite Hs; apply in_elt].
        destruct symbolic; cbn [fst] in Hv; congruence.
    + intros ->. destruct r as [ps sts fl]. cbn [Inputs.paths_to_states Inputs.states
                                                    Inputs._resolved] in *.
      subst fl. rewrite map_id. reflexivity.
    + reflexivity.
    + reflexivity.
    + cbn [Inputs.states]. rewrite map_map. apply map_ext. intros s.
      destruct symbolic; [|reflexivity].
      unfold to_casadi_symbolic. destruct (symbolic_value s); [reflexivity|].
      destruct s; reflexivity.
  - apply Nat.ltb_ge in Hlen. rewrite Hp in Hlen.
    assert (Hnil : Inputs.states r = []).
    { apply Forall2_length in Hall. destruct (Inputs.states r); [reflexivity|].
      cbn in *. lia. }
    exists [], r. split; [reflexivity|]. split; [|auto].
    intros k v. split; [discriminate|].
    intros [before [s [after [Hs _]]]]. rewrite Hnil in Hs. destruct before; discriminate.
Qed.

Lemma collect_after_resolve_witness :
  exists out r',
    Inputs.collect true (Inputs.mk ["/x"; "y"] [Plant.x; Plant.y] true) = (Ret out, r')
    /\ (forall k v,
           dict_get out k = Some v <->
           exists before s after,
             [Plant.x; Plant.y] = before ++ s :: after /\ name s = k
             /\ ~ In k (map name after)
             /\ fst (value true s) = Ret (Leaf_descr (name s) (dims s) v))
    /\ (true = false -> r' = Inputs.mk ["/x"; "y"] [Plant.x; Plant.y] true)
    /\ Inputs._resolved r' = true
    /\ Inputs.paths_to_states r' = ["/x"; "y"]
    /\ map name (Inputs.states r') = ["x"; "y"].
Proof.
  apply (collect_after_resolve true (Inputs.init ["/x"; "y"])
           (Inputs.mk ["/x"; "y"] [Plant.x; Plant.y] true) [Plant.x; Plant.y]).
  reflexivity.
Defined.

(** ** Reading the value *)

Lemma dims_eqb_refl (d : option (list Z)) : dims_eqb d d = true.
Proof. destruct d as [l|]; cbn; [|reflexivity]. destruct (list_eq_dec Z.eq_dec l l); congruence. Qed.

Lemma State_eqb_refl : forall s, State_eqb s s = true.
Proof.
  fix IH 1. intros [i n d v lf y]. cbn [State_eqb].
  rewrite String.eqb_refl, dims_eqb_refl, Bool.eqb_reflx, andb_true_r. cbn [andb].
  revert v. fix IHv 1. intros [|z|l|s|l]; cbn [pyval_eqb].
  - reflexivity.
  - apply Z.eqb_refl.
  - induction l as [|x l IHl]; [reflexivity|]. rewrite (IHv x). exact IHl.
  - apply IH.
  - induction l as [|x l IHl]; [reflexivity|]. rewrite (IHv x). exact IHl.
Qed.

Lemma pyval_eqb_refl (v : pyval) : pyval_eqb v v = true.
Proof.
  revert v. fix IHv 1. intros [|z|l|s|l]; cbn [pyval_eqb].
  - reflexivity.
  - apply Z.eqb_refl.
  - induction l as [|x l IHl]; [reflexivity|]. rewrite (IHv x). exact IHl.
  - apply State_eqb_refl.
  - induction l as [|x l IHl]; [reflexivity|]. rewrite (IHv x). exact IHl.
Qed.

Lemma pyval_eqb_container (tuple : bool) (l m : list pyval) :
  pyval_eqb (container tuple l) (container tuple m) = pyval_eqb (VList l) (VList m).
Proof. destruct tuple; reflexivity. Qed.

Lemma to_casadi_symbolic_again (s : State) :
  to_casadi_symbolic (snd (to_casadi_symbolic s))
  = (fst (to_casadi_symbolic s), snd (to_casadi_symbolic s)).
Proof.
  unfold to_casadi_symbolic at 2 3 4. destruct (symbolic_value s) as [y|] eqn:E.
  - cbn [fst snd]. unfold to_casadi_symbolic. rewrite E. reflexivity.
  - destruct s as [i n d v lf y]. reflexivity.
Qed.

Lemma to_casadi_symbolic_eqb (s : State) : State_eqb (snd (to_casadi_symbolic s)) s = true.
Proof.
  unfold to_casadi_symbolic. destruct (symbolic_value s); [apply State_eqb_refl|].
  destruct s as [i n d v lf y]. cbn [snd State_eqb].
  rewrite String.eqb_refl, dims_eqb_refl, pyval_eqb_refl, Bool.eqb_reflx. reflexivity.
Qed.

(** The loop of [value] over the elements of a list, and the loop of
    [shape_ok]. *)
Lemma value_hier (symbolic : bool) (i : nat) (n : string) (d : option (list Z))
      (tuple : bool) (l : list pyval) (y : option Sym) :
  value symbolic (mkState i n d (container tuple l) false y)
  = (let (r, l') := value_each symbolic l in
     (states <- r ;; Ret (Tree_descr n d states),
      mkState i n d (container tuple l') false y)).
Proof.
  assert (E : forall l,
             (fix each (l : list pyval) : res (list descr) * list pyval :=
                match l with
                | [] => (Ret [], [])
                | VState substate :: l' =>
                    let (r, substate') := value symbolic substate in
                    match r with
                    | Ret x =>
                        let (rs, l'') := each l' in
                        (xs <- rs ;; Ret (x :: xs), VState substate' :: l'')
                    | Raise e => (Raise e, VState substate' :: l')
                    end
                | x :: l' => (Raise AttributeError, x :: l')
                end) l = value_each symbolic l).
  { induction l0 as [|x l0 IH]; [reflexivity|]. cbn [value_each].
    destruct x as [|z|l1|c|t']; try reflexivity.
    destruct (value symbolic c) as [[x|e] c']; [|reflexivity]. rewrite IH. reflexivity. }
  destruct tuple; cbn [container value]; rewrite E; reflexivity.
Qed.

(** Reading returns exactly on well-shaped states. *)
Lemma value_returns (symbolic : bool) (s : State) :
  (exists d, fst (value symbolic s) = Ret d) <-> shape_ok s = true.
Proof.
  induction s as [s IH] using State_substates_ind.
  destruct s as [i n d v lf y]. unfold substates in IH. cbn [is_leaf _value] in IH.
  destruct lf.
  - cbn [shape_ok orb]. split; [reflexivity|]. intros _. cbn [value].
    destruct symbolic; [|eexists; reflexivity].
    destruct (to_casadi_symbolic _). eexists. reflexivity.
  - assert (Hcont : forall tuple l,
               (forall c, In c (states_of l) ->
                          (exists d0, fst (value symbolic c) = Ret d0) <-> shape_ok c = true) ->
               (exists d0, fst (value symbolic (mkState i n d (container tuple l) false y))
                           = Ret d0)
               <-> shape_ok (mkState i n d (container tuple l) false y) = true);
      [|destruct v as [|z|l|st|l];
        try (cbn [fst snd iter_error value shape_ok orb];
             split; [intros [d0 H]; discriminate|discriminate]);
        [apply (Hcont false l IH)|apply (Hcont true l IH)]].
    clear IH v. intros tuple l IH.
    rewrite value_hier, shape_ok_hier.
    assert (G : (exists ds, fst (value_each symbolic l) = Ret ds)
                <-> forallb (fun x => match x with
                                      | VState c => shape_ok c
                                      | _ => false
                                      end) l = true).
    { induction l as [|x l IHl]; [cbn; split; eauto|].
      destruct x as [|z|l0|c|t'];
        try (cbn [value_each forallb fst andb];
             split; [intros [ds H]; discriminate|discriminate]).
      pose proof (IH c (or_introl eq_refl)) as Hc.
      pose proof (IHl (fun c' Hc' => IH c' (or_intror Hc'))) as Hl. clear IH IHl.
      cbn [value_each forallb]. destruct (value symbolic c) as [rc c']. cbn [fst] in Hc.
      destruct rc as [x|e].
      - destruct (value_each symbolic l) as [rs l'']. cbn [fst] in *. split.
        + intros [ds H]. destruct rs as [xs|e]; [|discriminate].
          apply andb_true_iff. split; [apply Hc; eauto|apply Hl; eauto].
        + intros H. apply andb_true_iff in H as [_ H]. apply Hl in H as [ds ->].
          cbn [bind]. eauto.
      - cbn [fst]. split; [intros [ds H]; discriminate|].
        intros H. apply andb_true_iff in H as [H _]. apply Hc in H as [d0 H].
        discriminate. }
    clear IH. destruct (value_each symbolic l) as [r l']. cbn [fst] in *. split.
    + intros [d0 H]. destruct r as [ds|e]; [|discriminate]. apply G. eauto.
    + intros H. apply G in H as [ds ->]. cbn [bind]. eauto.
Qed.

(** X14. Reading [value] returns exactly on the states in which every
    state flagged as hierarchical holds a list, or another container
    (a tuple; an empty string), whose items are all states of this
    kind.  Whatever
    the mode and the outcome, the state compares equal ([==]) to what
    it was before the read, and a second read gives the same outcome
    and changes nothing more: placeholders are made once.  A read in
    concrete mode changes nothing at all. *)
Theorem value_read (symbolic : bool) (s : State) :
  State_eqb (snd (value symbolic s)) s = true
  /\ ((exists d, fst (value symbolic s) = Ret d) <-> shape_ok s = true)
  /\ value symbolic (snd (value symbolic s)) = value symbolic s
  /\ (symbolic = false -> snd (value symbolic s) = s).
Proof.
  assert (G : State_eqb (snd (value symbolic s)) s = true
              /\ value symbolic (snd (value symbolic s)) = value symbolic s
              /\ (symbolic = false -> snd (value symbolic s) = s)).
  2: { destruct G as [G1 [G2 G3]]. repeat split; auto; apply value_returns. }
  induction s as [s IH] using State_substates_ind.
  destruct s as [i n d v lf y]. unfold substates in IH. cbn [is_leaf _value] in IH.
  destruct lf.
  - clear IH. cbn [value]. destruct symbolic.
    + pose proof (to_casadi_symbolic_again (mkState i n d v true y)) as Hagain.
      pose proof (to_casadi_symbolic_eqb (mkState i n d v true y)) as Heq.
      destruct (to_casadi_symbolic (mkState i n d v true y)) as [val s'] eqn:E.
      cbn [fst snd] in *. repeat split; eauto; [|discriminate].
      destruct s' as [i' n' d' v' lf' y']. cbn [State_eqb] in Heq.
      apply andb_true_iff in Heq as [Heq Hlf]. apply andb_true_iff in Heq as [Heq _].
      apply andb_true_iff in Heq as [Hn Hd]. apply String.eqb_eq in Hn.
      apply Bool.eqb_prop in Hlf. subst n' lf'.
      assert (d' = d).
      { unfold dims_eqb in Hd. destruct d', d; try discriminate; [|reflexivity].
        destruct (list_eq_dec Z.eq_dec l l0); [congruence|discriminate]. }
      subst d'. cbn [value]. rewrite Hagain. reflexivity.
    + cbn [fst snd]. repeat split; eauto. apply State_eqb_refl.
  - assert (Hcont : forall tuple l,
               (forall c, In c (states_of l) ->
                          State_eqb (snd (value symbolic c)) c = true
                          /\ value symbolic (snd (value symbolic c)) = value symbolic c
                          /\ (symbolic = false -> snd (value symbolic c) = c)) ->
               State_eqb (snd (value symbolic (mkState i n d (container tuple l) false y)))
                         (mkState i n d (container tuple l) false y) = true
               /\ value symbolic
                        (snd (value symbolic (mkState i n d (container tuple l) false y)))
                  = value symbolic (mkState i n d (container tuple l) false y)
               /\ (symbolic = false ->
                   snd (value symbolic (mkState i n d (container tuple l) false y))
                   = mkState i n d (container tuple l) false y));
      [|destruct v as [|z|l|st|l];
        try (cbn [fst snd iter_error value]; repeat split; apply State_eqb_refl);
        [apply (Hcont false l IH)|apply (Hcont true l IH)]].
    clear IH v. intros tuple l IH.
    rewrite value_hier.
    assert (G : pyval_eqb (VList (snd (value_each symbolic l))) (VList l) = true
                /\ value_each symbolic (snd (value_each symbolic l))
                   = value_each symbolic l
                /\ (symbolic = false -> snd (value_each symbolic l) = l)).
    { induction l as [|x l IHl]; [clear IH; cbn; repeat split; eauto|].
      destruct x as [|z|l0|c|t'];
        try (cbn [value_each fst snd]; repeat split;
             apply (pyval_eqb_refl (VList (_ :: l)))).
      destruct (IH c (or_introl eq_refl)) as [Hc1 [Hc3 Hc4]].
      destruct (IHl (fun c' Hc' => IH c' (or_intror Hc'))) as [Hl1 [Hl3 Hl4]].
      clear IH IHl.
      cbn [value_each]. destruct (value symbolic c) as [rc c'] eqn:Ec. cbn [fst snd] in *.
      destruct rc as [x|e].
      - destruct (value_each symbolic l) as [rs l''] eqn:El. cbn [fst snd] in *.
        repeat split.
        + cbn [pyval_eqb] in *. rewrite Hc1. exact Hl1.
        + cbn [value_each]. rewrite Hc3, Hl3. reflexivity.
        + intros Hs. rewrite (Hc4 Hs), (Hl4 Hs). reflexivity.
      - cbn [fst snd]. repeat split.
        + cbn [pyval_eqb]. rewrite Hc1. apply (pyval_eqb_refl (VList l)).
        + cbn [value_each]. rewrite Hc3. reflexivity.
        + intros Hs. rewrite (Hc4 Hs). reflexivity. }
    destruct G as [G1 [G3 G4]]. clear IH.
    destruct (value_each symbolic l) as [r l'] eqn:El. cbn [fst snd] in *. repeat split.
    + cbn [State_eqb]. rewrite String.eqb_refl, dims_eqb_refl, pyval_eqb_container, G1.
      reflexivity.
    + rewrite value_hier, G3. reflexivity.
    + intros Hs. rewrite (G4 Hs). reflexivity.
Qed.

(** A hierarchical state assigned a tuple of states is read as one
    holding a list is. *)
Lemma value_read_witness :
  (exists d, fst (value true (set_value Plant.plant (VTuple [VState Plant.y]))) = Ret d)
  /\ snd (value false (set_value Plant.plant (VTuple [VState Plant.y])))
     = set_value Plant.plant (VTuple [VState Plant.y]).
Proof.
  destruct (value_read true (set_value Plant.plant (VTuple [VState Plant.y])))
    as [_ [H _]].
  destruct (value_read false (set_value Plant.plant (VTuple [VState Plant.y])))
    as [_ [_ [_ H']]].
  split; [apply H; reflexivity|apply H'; reflexivity].
Defined.

(** ** Graph.__init__ *)

Lemma all_states_leaves (nodes : list Node.t) :
  Forall (fun n => is_leaf (Node.state n) = true) nodes ->
  Graph.all_states nodes = Ret (map (fun n => [Node.state n]) nodes).
Proof.
  induction 1 as [|n nodes Hn _ IH]; [reflexivity|]. cbn [Graph.all_states map].
  unfold get_all_states. rewrite (collect_states_leaf _ [] Hn). cbn [bind app].
  rewrite IH. reflexivity.
Qed.

Lemma fold_left_app_concat {A : Type} (ls : list (list A)) (l : list A) :
  fold_left (fun x y => x ++ y) ls l = l ++ List.concat ls.
Proof.
  revert l. induction ls as [|x ls IH]; intros l; cbn [fold_left List.concat].
  - rewrite app_nil_r. reflexivity.
  - rewrite IH, app_assoc. reflexivity.
Qed.

Lemma reduce_concat_ret (lists : list (list State)) :
  lists <> [] -> Graph.reduce_concat lists = Ret (List.concat lists).
Proof.
  destruct lists as [|l rest]; [congruence|]. intros _. cbn [Graph.reduce_concat List.concat].
  rewrite fold_left_app_concat. reflexivity.
Qed.

Lemma concat_singletons {A B : Type} (f : A -> B) (l : list A) :
  List.concat (map (fun a => [f a]) l) = map f l.
Proof. induction l as [|a l IH]; [reflexivity|]. cbn. rewrite IH. reflexivity. Qed.

Lemma resolve_inputs_ret (nodes nodes' : list Node.t) (catalog : list State) :
  Graph.resolve_inputs nodes catalog = Ret nodes' <->
  Forall2 (resolved_from catalog) nodes nodes'.
Proof.
  revert nodes'. induction nodes as [|n nodes IH]; intros nodes'; cbn [Graph.resolve_inputs].
  - split; [intros [= <-]; constructor|]. intros H. inversion H. reflexivity.
  - split.
    + intros H. destruct (Inputs.resolve (Node.inputs n) catalog) as [i'|e] eqn:Ei;
        cbn [bind] in H; [|discriminate].
      destruct (Graph.resolve_inputs nodes catalog) as [rest|e] eqn:Er;
        cbn [bind] in H; [|discriminate].
      injection H as <-. constructor; [|apply IH; reflexivity].
      unfold resolved_from. cbn. auto.
    + intros H. inversion H as [|? n' ? rest [Hs [Hr [Ht Hi]]] Hrest]; subst.
      rewrite Hi. cbn [bind]. apply IH in Hrest. rewrite Hrest. cbn [bind].
      destruct n' as [i' s' r' t']. cbn in *. subst. reflexivity.
Qed.

(** A resolver either returns or raises. *)
Lemma resolve_inputs_raises (nodes : list Node.t) (catalog : list State) :
  (forall n, In n nodes -> exists i', Inputs.resolve (Node.inputs n) catalog = Ret i') ->
  exists nodes', Graph.resolve_inputs nodes catalog = Ret nodes'.
Proof.
  induction nodes as [|n nodes IH]; intros H; [exists []; reflexivity|].
  destruct (H n (or_introl eq_refl)) as [i' Hi].
  destruct IH as [rest Hrest]; [intros x Hx; apply H; right; exact Hx|].
  cbn [Graph.resolve_inputs]. rewrite Hi, Hrest. cbn [bind]. eauto.
Qed.

Lemma Forall2_In_l {A B : Type} (P : A -> B -> Prop) (l : list A) (l' : list B) (a : A) :
  Forall2 P l l' -> In a l -> exists b, In b l' /\ P a b.
Proof.
  induction 1 as [|x y l l' Hxy _ IH]; intros Hin; [destruct Hin|].
  destruct Hin as [->|Hin]; [exists y; split; [left; reflexivity|exact Hxy]|].
  destruct (IH Hin) as [b [Hb Hab]]. exists b. split; [right; exact Hb|exact Hab].
Qed.

Lemma Forall2_In_r {A B : Type} (P : A -> B -> Prop) (l : list A) (l' : list B) (b : B) :
  Forall2 P l l' -> In b l' -> exists a, In a l /\ P a b.
Proof.
  induction 1 as [|x y l l' Hxy _ IH]; intros Hin; [destruct Hin|].
  destruct Hin as [->|Hin]; [exists x; split; [left; reflexivity|exact Hxy]|].
  destruct (IH Hin) as [a [Ha Hab]]. exists a. split; [right; exact Ha|exact Hab].
Qed.

Lemma clos_trans_ext {A : Type} (R R' : A -> A -> Prop) :
  (forall a b, R a b -> R' a b) ->
  forall a b, clos_trans A R a b -> clos_trans A R' a b.
Proof.
  intros H a b Hab. induction Hab as [a b Hab|a b c _ IH1 _ IH2].
  - apply t_step, H, Hab.
  - apply (t_trans _ _ _ _ _ IH1 IH2).
Qed.

Lemma resolved_from_states (catalog : list State) (l l' : list Node.t) :
  Forall2 (resolved_from catalog) l l' -> map Node.state l' = map Node.state l.
Proof.
  induction 1 as [|n n' l l' [Hs _] _ IH]; [reflexivity|].
  cbn [map]. rewrite Hs, IH. reflexivity.
Qed.

Section FlatGraph.
Variable declared nodes : list Node.t.
Hypothesis flat : Forall (fun n => is_leaf (Node.state n) = true) declared.
Hypothesis distinct : NoDup (map node_name declared).
Hypothesis resolved : Forall2 (resolved_from (map Node.state declared)) declared nodes.

Lemma resolved_states : map Node.state nodes = map Node.state declared.
Proof. apply (resolved_from_states _ _ _ resolved). Qed.

Lemma resolved_names : map node_name nodes = map node_name declared.
Proof.
  unfold node_name. rewrite <- (map_map Node.state name), resolved_states, map_map.
  reflexivity.
Qed.

Lemma resolved_distinct : NoDup (map node_name nodes).
Proof. rewrite resolved_names. exact distinct. Qed.

(** The inputs of a node of the graph: for each declared path the state
    of the node it names. *)
Lemma resolved_inputs (n' : Node.t) :
  In n' nodes ->
  Forall2 (fun p s => exists c, In c nodes /\ s = Node.state c
                                /\ path_parts p = [node_name c])
          (Inputs.paths_to_states (Node.inputs n')) (Inputs.states (Node.inputs n')).
Proof.
  intros Hn'. destruct (Forall2_In_r _ _ _ n' resolved Hn') as [n [_ [_ [_ [_ Hr]]]]].
  apply resolve_ret in Hr as [Hp [_ [Hall _]]]. rewrite Hp.
  revert Hall. generalize (Inputs.states (Node.inputs n')).
  generalize (Inputs.paths_to_states (Node.inputs n)).
  induction 1 as [|p s ps sts Hps _ IH]; constructor; [|exact IH].
  assert (Hl : Forall (fun c => is_leaf c = true) (map Node.state declared)).
  { apply Forall_forall. intros c Hc. apply in_map_iff in Hc as [x [<- Hx]].
    rewrite Forall_forall in flat. auto. }
  destruct (first_found_leaves_some _ p s Hl Hps) as [Hin Hparts].
  rewrite <- resolved_states in Hin. apply in_map_iff in Hin as [c [<- Hc]].
  exists c. auto.
Qed.

Lemma resolved_paths (n : Node.t) :
  In n declared ->
  exists n', In n' nodes /\ node_name n' = node_name n
             /\ Node.is_root n' = Node.is_root n
             /\ Inputs.paths_to_states (Node.inputs n')
                = Inputs.paths_to_states (Node.inputs n).
Proof.
  intros Hn. destruct (Forall2_In_l _ _ _ n resolved Hn) as [n' [Hn' [Hs [Hr [_ Hi]]]]].
  exists n'. apply resolve_ret in Hi as [Hp _]. unfold node_name. rewrite Hs. auto.
Qed.

Lemma declared_paths (n' : Node.t) :
  In n' nodes ->
  exists n, In n declared /\ node_name n' = node_name n
            /\ Node.is_root n' = Node.is_root n
            /\ Inputs.paths_to_states (Node.inputs n')
               = Inputs.paths_to_states (Node.inputs n).
Proof.
  intros Hn'. destruct (Forall2_In_r _ _ _ n' resolved Hn') as [n [Hn [Hs [Hr [_ Hi]]]]].
  exists n. apply resolve_ret in Hi as [Hp _]. unfold node_name. rewrite Hs. auto.
Qed.

Lemma resolved_owned : entries_owned (Graph.node_state_inputs_map nodes).
Proof.
  intros k i s Hi _ Hs. apply key_node in Hi as [n' [Hn' [_ <-]]].
  cbn [info_of Info.inputs] in Hs.
  destruct (Forall2_In_r _ _ _ s (resolved_inputs n' Hn') Hs) as [p [_ [c [Hc [-> _]]]]].
  exists (node_name c), (info_of c). split.
  - apply (map_distinct_get nodes c resolved_distinct Hc).
  - apply State_eqb_refl.
Qed.

(** Waiting in the dependency map is waiting as declared. *)
Lemma waits_for_declared (k k' : string) :
  waits_for (Graph.node_state_inputs_map nodes) k k' <-> declared_waits declared k k'.
Proof.
  split.
  - intros [i [i' [Hi [Hi' [Hr [Hr' Hreads]]]]]].
    apply key_node in Hi as [n1 [Hn1 [Hk1 <-]]].
    apply key_node in Hi' as [n2 [Hn2 [Hk2 <-]]].
    unfold reads in Hreads. apply existsb_exists in Hreads as [s [Hs He]].
    cbn [info_of Info.inputs Info.state Info.is_root] in *.
    destruct (Forall2_In_r _ _ _ s (resolved_inputs n1 Hn1) Hs)
      as [p [Hp [c [Hc [-> Hparts]]]]].
    apply State_eqb_name in He. fold (node_name n2) in He. fold (node_name c) in He.
    destruct (declared_paths n1 Hn1) as [d1 [Hd1 [Hname1 [Hroot1 Hpaths1]]]].
    destruct (declared_paths n2 Hn2) as [d2 [Hd2 [Hname2 [Hroot2 _]]]].
    exists d1, d2. repeat split; try congruence.
    exists p. split; [rewrite <- Hpaths1; exact Hp|congruence].
  - intros [d1 [d2 [Hd1 [Hd2 [Hk1 [Hk2 [Hr1 [Hr2 [p [Hp Hparts]]]]]]]]]].
    destruct (resolved_paths d1 Hd1) as [n1 [Hn1 [Hname1 [Hroot1 Hpaths1]]]].
    destruct (resolved_paths d2 Hd2) as [n2 [Hn2 [Hname2 [Hroot2 _]]]].
    exists (info_of n1), (info_of n2).
    destruct (map_distinct_get nodes n1 resolved_distinct Hn1) as [_ Hg1].
    destruct (map_distinct_get nodes n2 resolved_distinct Hn2) as [_ Hg2].
    split; [congruence|]. split; [congruence|].
    split; [cbn [info_of Info.is_root]; congruence|].
    split; [cbn [info_of Info.is_root]; congruence|].
    unfold reads. apply existsb_exists. cbn [info_of Info.inputs Info.state].
    rewrite <- Hpaths1 in Hp.
    destruct (Forall2_In_l _ _ _ p (resolved_inputs n1 Hn1) Hp)
      as [s [Hs [c [Hc [-> Hparts']]]]].
    exists (Node.state c). split; [exact Hs|].
    assert (c = n2).
    { apply (node_name_inj nodes resolved_distinct); auto. congruence. }
    subst c. apply State_eqb_refl.
Qed.

Lemma no_wait_cycle_declared :
  no_wait_cycle (Graph.node_state_inputs_map nodes) <->
  forall k, ~ clos_trans string (declared_waits declared) k k.
Proof.
  split; intros H k Hk; apply (H k); revert Hk; apply clos_trans_ext;
    intros a b; apply waits_for_declared.
Qed.

(** The order [Graph.resolve] returns, in terms of the declared paths. *)
Lemma resolved_order (ordered : list Node.t) :
  Graph.resolve nodes = Ret ordered ->
  Permutation ordered nodes
  /\ forall before n after,
      ordered = before ++ n :: after -> Node.is_root n = false ->
      forall p, In p (Inputs.paths_to_states (Node.inputs n)) ->
                exists n', In n' before /\ path_parts p = [node_name n'].
Proof.
  intros Hres.
  destruct (resolve_ret_names nodes resolved_distinct ordered Hres)
    as [j [_ [_ [Hr [Hincl Hperm]]]]].
  split; [exact Hperm|]. intros before n after E Hroot p Hp.
  assert (Hord : declared_in_order ordered).
  { apply (sound_declared_in_order nodes resolved_distinct ordered Hincl).
    rewrite Hr. apply rounds_sound; [apply map_keys_NoDup|apply sound_nil]. }
  assert (Hn : In n nodes) by (apply Hincl; rewrite E; apply in_elt).
  destruct (Forall2_In_l _ _ _ p (resolved_inputs n Hn) Hp)
    as [s [Hs [c [Hc [-> Hparts]]]]].
  destruct (Hord before n after E Hroot (Node.state c) Hs) as [n' [Hn' He]].
  exists n'. split; [exact Hn'|]. apply State_eqb_name in He.
  unfold node_name in *. congruence.
Qed.

End FlatGraph.

(** What [Graph.__init__] has done when it returns, for nodes whose
    states are leaves. *)
Lemma init_leaves_ret (declared : list Node.t) (g : Graph.t) :
  Forall (fun n => is_leaf (Node.state n) = true) declared ->
  Graph.init declared = Ret g ->
  declared <> []
  /\ Forall2 (resolved_from (map Node.state declared)) declared (Graph.nodes g)
  /\ Graph.resolve (Graph.nodes g) = Ret (Graph.ordered_nodes g).
Proof.
  intros Hflat. unfold Graph.init. rewrite (all_states_leaves declared Hflat). cbn [bind].
  destruct declared as [|n0 rest] eqn:Ed; [discriminate|]. rewrite <- Ed in *.
  rewrite reduce_concat_ret by (rewrite Ed; discriminate).
  rewrite concat_singletons. cbn [bind]. intros H.
  destruct (Graph.resolve_inputs declared (map Node.state declared)) as [nodes|e] eqn:Er;
    cbn [bind] in H; [|discriminate].
  destruct (Graph.resolve nodes) as [ordered|e] eqn:Eo; cbn [bind] in H; [|discriminate].
  injection H as <-. cbn [Graph.nodes Graph.ordered_nodes].
  split; [rewrite Ed; discriminate|]. split; [apply resolve_inputs_ret, Er|exact Eo].
Qed.

Lemma init_leaves (declared nodes ordered : list Node.t) :
  Forall (fun n => is_leaf (Node.state n) = true) declared ->
  declared <> [] ->
  Forall2 (resolved_from (map Node.state declared)) declared nodes ->
  Graph.resolve nodes = Ret ordered ->
  Graph.init declared
  = Ret (Graph.mk nodes ordered (Graph.join_arrow (map node_name ordered))).
Proof.
  intros Hflat Hne Hres Hord.
  rewrite (init_resolve declared nodes (map (fun n => [Node.state n]) declared)
             (map Node.state declared)).
  - rewrite Hord. reflexivity.
  - apply all_states_leaves, Hflat.
  - rewrite reduce_concat_ret, concat_singletons; [reflexivity|].
    destruct declared; [congruence|discriminate].
  - apply resolve_inputs_ret, Hres.
Qed.

(** X15. For nodes whose states are leaves with pairwise distinct names,
    constructing a [Graph] returns exactly when there is at least one
    node, every declared path of every node, root or not, has a single
    component that is the name of a node, and no nodes that are not
    roots wait for each other in a cycle by their declared paths.  The
    graph then holds the nodes with their inputs resolved, and its
    order is a permutation of them in which every node that is not a
    root comes after each node one of its paths names. *)
Theorem flat_graph_constructs (declared : list Node.t) :
  Forall (fun n => is_leaf (Node.state n) = true) declared ->
  NoDup (map node_name declared) ->
  ((exists g, Graph.init declared = Ret g) <->
   declared <> []
   /\ (forall n p, In n declared -> In p (Inputs.paths_to_states (Node.inputs n)) ->
                   exists n', In n' declared /\ path_parts p = [node_name n'])
   /\ (forall k, ~ clos_trans string (declared_waits declared) k k))
  /\ (forall g,
         Graph.init declared = Ret g ->
         Forall2 (resolved_from (map Node.state declared)) declared (Graph.nodes g)
         /\ Permutation (Graph.ordered_nodes g) (Graph.nodes g)
         /\ forall before n after,
             Graph.ordered_nodes g = before ++ n :: after -> Node.is_root n = false ->
             forall p, In p (Inputs.paths_to_states (Node.inputs n)) ->
                       exists n', In n' before /\ path_parts p = [node_name n']).
Proof.
  intros Hflat Hnd. split; [split|].
  - intros [g Hg]. destruct (init_leaves_ret declared g Hflat Hg) as [Hne [Hres Hord]].
    split; [exact Hne|]. split.
    + intros n p Hn Hp.
      destruct (resolved_paths declared _ Hres n Hn) as [n' [Hn' [_ [_ Hpaths]]]].
      rewrite <- Hpaths in Hp.
      destruct (Forall2_In_l _ _ _ p (resolved_inputs declared _ Hflat Hres n' Hn') Hp)
        as [s [_ [c [Hc [_ Hparts]]]]].
      destruct (declared_paths declared _ Hres c Hc) as [d [Hd [Hname _]]].
      exists d. split; [exact Hd|congruence].
    + apply (no_wait_cycle_declared declared _ Hflat Hnd Hres).
      apply (resolve_ret_owned_acyclic _ _ Hord).
  - intros [Hne [Hpaths Hcyc]].
    assert (Hleaves : Forall (fun c => is_leaf c = true) (map Node.state declared)).
    { apply Forall_forall. intros c Hc. apply in_map_iff in Hc as [x [<- Hx]].
      rewrite Forall_forall in Hflat. auto. }
    destruct (resolve_inputs_raises declared (map Node.state declared)) as [nodes Hres].
    { intros n Hn. apply leaves_resolve; [exact Hleaves|].
      apply Forall_forall. intros p Hp. destruct (Hpaths n p Hn Hp) as [n' [Hn' Hparts]].
      exists (Node.state n'). split; [apply in_map, Hn'|exact Hparts]. }
    apply resolve_inputs_ret in Hres.
    destruct (owned_acyclic_resolves nodes) as [ordered Hord].
    + apply (resolved_owned declared nodes Hflat Hnd Hres).
    + apply (no_wait_cycle_declared declared nodes Hflat Hnd Hres), Hcyc.
    + eexists. apply (init_leaves declared nodes ordered Hflat Hne Hres Hord).
  - intros g Hg. destruct (init_leaves_ret declared g Hflat Hg) as [_ [Hres Hord]].
    split; [exact Hres|].
    apply (resolved_order declared (Graph.nodes g) Hflat Hnd Hres _ Hord).
Qed.

Lemma flat_graph_constructs_witness :
  exists g,
    Graph.init [Node.mk (Inputs.init ["B"]) Chain.sC false None;
                Node.mk (Inputs.init []) Chain.sA true None;
                Node.mk (Inputs.init ["/A/"]) Chain.sB false None] = Ret g
    /\ Permutation (Graph.ordered_nodes g) (Graph.nodes g).
Proof.
  destruct (Graph.init [Node.mk (Inputs.init ["B"]) Chain.sC false None;
                        Node.mk (Inputs.init []) Chain.sA true None;
                        Node.mk (Inputs.init ["/A/"]) Chain.sB false None])
    as [g|e] eqn:E; [|vm_compute in E; discriminate].
  exists g. split; [reflexivity|].
  apply (flat_graph_constructs
           [Node.mk (Inputs.init ["B"]) Chain.sC false None;
            Node.mk (Inputs.init []) Chain.sA true None;
            Node.mk (Inputs.init ["/A/"]) Chain.sB false None]).
  - repeat constructor.
  - repeat constructor; cbn; intuition discriminate.
  - exact E.
Defined.

(** ** Clock: the list of step sizes *)

Lemma step_sizes_outcome (nodes : list Node.t) :
  (exists sizes, Clock.step_sizes nodes = Ret sizes
                 /\ List.length sizes = List.length nodes
                 /\ forall n, In n nodes -> Node.transistor n <> None)
  \/ (Clock.step_sizes nodes = Raise AttributeError
      /\ exists n, In n nodes /\ Node.transistor n = None).
Proof.
  induction nodes as [|n nodes IH]; cbn [Clock.step_sizes].
  - left. exists []. repeat split. intros n [].
  - destruct (Node.transistor n) as [tr|] eqn:Et.
    + destruct IH as [[sizes [-> [Hlen Hall]]]|[-> [n' [Hn' Hnone]]]]; cbn [bind].
      * left. eexists. split; [reflexivity|]. split; [cbn; rewrite Hlen; reflexivity|].
        intros x [<-|Hx]; [congruence|auto].
      * right. split; [reflexivity|]. exists n'. split; [right; exact Hn'|exact Hnone].
    + right. split; [reflexivity|]. exists n. split; [left; reflexivity|exact Et].
Qed.

(** X16. The step size [Clock.__init__] computes: with no node it raises
    the [IndexError] of [step_sizes[0]]; with a node that has no
    transistor, wherever it stands, it raises the [AttributeError];
    whenever it returns, there is at least one node and every node has a
    transistor; a single node gives its own step size as it is, without
    any rounding. *)
Theorem fundamental_step_size_edges :
  Clock.fundamental_step_size [] = Raise IndexError
  /\ (forall nodes n, In n nodes -> Node.transistor n = None ->
                      Clock.fundamental_step_size nodes = Raise AttributeError)
  /\ (forall nodes size, Clock.fundamental_step_size nodes = Ret size ->
                         nodes <> []
                         /\ forall n, In n nodes -> Node.transistor n <> None)
  /\ (forall n tr, Node.transistor n = Some tr ->
                   Clock.fundamental_step_size [n] = Ret (step_size tr)).
Proof.
  split; [reflexivity|]. split; [|split].
  - intros nodes n Hn Hnone. unfold Clock.fundamental_step_size.
    destruct (step_sizes_outcome nodes) as [[sizes [_ [_ Hall]]]|[-> _]]; [|reflexivity].
    exfalso. apply (Hall n Hn Hnone).
  - intros nodes size H. unfold Clock.fundamental_step_size in H.
    destruct (step_sizes_outcome nodes) as [[sizes [Hs [_ Hall]]]|[Hs _]];
      rewrite Hs in H; [|discriminate].
    split; [|exact Hall]. intros ->. cbn in Hs. injection Hs as <-. discriminate.
  - intros n tr Ht. unfold Clock.fundamental_step_size. cbn [Clock.step_sizes].
    rewrite Ht. cbn [bind]. unfold Clock.fundamental_step_size_of.
    cbn [Clock.set_len Clock.float_in existsb]. reflexivity.
Qed.

Lemma fundamental_step_size_edges_witness :
  Clock.fundamental_step_size [stepping "a" 0.1%float; Chain.A] = Raise AttributeError
  /\ Clock.fundamental_step_size [stepping "a" 1e-10%float] = Ret 1e-10%float.
Proof.
  pose proof fundamental_step_size_edges as [_ [H2 [_ H4]]]. split.
  - apply (H2 _ Chain.A); [right; left; reflexivity|reflexivity].
  - apply (H4 _ (mkTransistor 1e-10%float None)). reflexivity.
Defined.

(** ** Graph.__init__ on any nodes *)

Lemma all_states_ret (nodes : list Node.t) (lists : list (list State)) :
  Graph.all_states nodes = Ret lists <->
  Forall2 (fun n l => get_all_states (Node.state n) = Ret l) nodes lists.
Proof.
  revert lists. induction nodes as [|n nodes IH]; intros lists; cbn [Graph.all_states].
  - split; [intros [= <-]; constructor|]. intros H. inversion H. reflexivity.
  - split.
    + intros H. destruct (get_all_states (Node.state n)) as [l|e] eqn:El;
        cbn [bind] in H; [|discriminate].
      destruct (Graph.all_states nodes) as [ls|e] eqn:Els; cbn [bind] in H; [|discriminate].
      injection H as <-. constructor; [exact El|]. apply IH. reflexivity.
    + intros H. inversion H as [|? l ? ls Hl Hls]; subst. rewrite Hl. cbn [bind].
      apply IH in Hls. rewrite Hls. reflexivity.
Qed.

Lemma get_all_states_leaves (s : State) (ls : list State) :
  get_all_states s = Ret ls -> Forall (fun leaf => is_leaf leaf = true) ls.
Proof.
  intros H. pose proof (collect_states_shape s _ _ H) as Hshape.
  destruct (shape_traversals s Hshape) as [_ Hs]. unfold get_all_states in H.
  rewrite Hs in H. injection H as <-. cbn [app]. apply Forall_forall.
  intros leaf Hin. apply in_map_iff in Hin as [rt [<- Hrt]].
  apply (leaf_routes_leaves s rt Hrt).
Qed.

Lemma keys_fold_set_grow {X V : Type} (key : X -> string) (val : X -> V) (xs : list X) :
  forall (d : dict V) (k : string),
    In k (keys d) \/ In k (map key xs) ->
    In k (keys (fold_left (fun d x => dict_set d (key x) (val x)) xs d)).
Proof.
  induction xs as [|x xs IH]; intros d k H; cbn [fold_left map] in *.
  - destruct H as [H|[]]. exact H.
  - apply IH. rewrite keys_dict_set.
    destruct (str_in (key x) (keys d)) eqn:E.
    + destruct H as [H|[<-|H]]; auto. left. apply str_in_In, E.
    + destruct H as [H|[<-|H]]; auto; left; apply in_or_app; auto.
      right. left. reflexivity.
Qed.

Lemma map_keys_cover (nodes : list Node.t) (n : Node.t) :
  In n nodes -> In (node_name n) (keys (Graph.node_state_inputs_map nodes)).
Proof.
  intros Hn. rewrite map_unfold. unfold dict_of. apply keys_fold_set_grow.
  right. apply in_map, Hn.
Qed.

(** The order [Graph.resolve] returns holds nodes of the list, one for
    each name. *)
Lemma resolve_ret_covers (nodes ordered : list Node.t) :
  Graph.resolve nodes = Ret ordered ->
  incl ordered nodes
  /\ NoDup (map node_name ordered)
  /\ forall n, In n nodes -> In (node_name n) (map node_name ordered).
Proof.
  intros Hres. set (m := Graph.node_state_inputs_map nodes).
  assert (Hnil : incl [] (keys m)) by (intros x []).
  unfold Graph.resolve in Hres. rewrite duplicates_assertion_holds in Hres. fold m in Hres.
  destruct (Graph.while_loop m (List.length m) 0 []) as [[names r]|e] eqn:Hw;
    [|discriminate].
  cbn [bind fst] in Hres.
  apply while_loop_ret in Hw as [j [-> [_ [_ [Hl _]]]]]; [|exact Hnil].
  destruct (nodes_named_keys nodes (rounds m j [])) as [ordered' [Hn [Hnames Hincl]]];
    [apply rounds_incl, Hnil|].
  fold m in Hres. rewrite Hn in Hres. injection Hres as <-.
  split; [exact Hincl|]. rewrite Hnames. split; [apply rounds_NoDup; constructor|].
  intros n Hin. apply (@NoDup_length_incl _ (rounds m j []) (keys m)).
  - apply rounds_NoDup. constructor.
  - unfold keys. rewrite length_map. exact Hl.
  - apply rounds_incl, Hnil.
  - apply map_keys_cover, Hin.
Qed.

Lemma collect_resolved_leaves (symbolic : bool) (self : Inputs.t) :
  Inputs._resolved self = true ->
  Forall (fun s => is_leaf s = true) (Inputs.states self) ->
  exists out self', Inputs.collect symbolic self = (Ret out, self')
                    /\ (symbolic = false -> self' = self).
Proof.
  intros Hfl Hleaves. unfold Inputs.collect.
  destruct (0 <? _); [|exists [], self; split; auto].
  rewrite Hfl. cbn [negb]. rewrite (collect_states_leaves symbolic _ Hleaves).
  eexists. eexists. split; [reflexivity|]. intros ->.
  rewrite map_id. destruct self as [ps sts fl]. cbn in Hfl. subst fl. reflexivity.
Qed.

Lemma Forall2_impl_in {A B : Type} (P Q : A -> B -> Prop) (l : list A) (l' : list B) :
  Forall2 P l l' ->
  (forall a b, In a l -> In b l' -> P a b -> Q a b) ->
  Forall2 Q l l'.
Proof.
  induction 1 as [|a b l l' Hab _ IH]; intros H; constructor.
  - apply H; [left; reflexivity|left; reflexivity|exact Hab].
  - apply IH. intros a' b' Ha' Hb'. apply H; right; assumption.
Qed.

Lemma State_eqb_is_leaf (e s : State) : State_eqb e s = true -> is_leaf e = is_leaf s.
Proof.
  destruct e as [i n d v lf y], s as [i' n' d' v' lf' y']. cbn [State_eqb is_leaf].
  intros H. apply andb_true_iff in H as [_ H]. apply Bool.eqb_prop in H. exact H.
Qed.

(** X17. When the construction of a [Graph] returns, there was at least
    one node, the state of every node could be traversed, and the
    catalog the inputs were resolved against is the leaves of the
    states of the nodes, node after node.  The graph holds the nodes
    with state, root flag and transistor as declared and the inputs
    resolved: for each declared path a leaf of the catalog whose name
    is the single component of the path, so that [collect()] now
    returns for every node, in concrete and in symbolic mode.  Its
    order is what [Graph.resolve] returns on these nodes: nodes of the
    graph, one for each state name.  When the state names are pairwise
    distinct, every resolved input of a node that is not a root is
    equal ([==]) to the state of the node that its path names, and
    that state is a leaf.  (The input itself may be another object:
    the catalog lists the leaves inside hierarchical states too, and
    the first leaf of the name is taken.) *)
Theorem Graph_init_establishes (declared : list Node.t) (g : Graph.t) :
  Graph.init declared = Ret g ->
  declared <> []
  /\ (exists lists,
         Forall2 (fun n l => get_all_states (Node.state n) = Ret l) declared lists
         /\ Forall2 (resolved_from (List.concat lists)) declared (Graph.nodes g)
         /\ forall n, In n (Graph.nodes g) ->
              Inputs._resolved (Node.inputs n) = true
              /\ Forall2 (fun p s => In s (List.concat lists) /\ is_leaf s = true
                                     /\ path_parts p = [name s])
                         (Inputs.paths_to_states (Node.inputs n))
                         (Inputs.states (Node.inputs n))
              /\ forall symbolic,
                  exists out inputs',
                    Inputs.collect symbolic (Node.inputs n) = (Ret out, inputs')
                    /\ (symbolic = false -> inputs' = Node.inputs n))
  /\ Graph.resolve (Graph.nodes g) = Ret (Graph.ordered_nodes g)
  /\ incl (Graph.ordered_nodes g) (Graph.nodes g)
  /\ NoDup (map node_name (Graph.ordered_nodes g))
  /\ (forall n, In n (Graph.nodes g) ->
                In (node_name n) (map node_name (Graph.ordered_nodes g)))
  /\ Graph.ordered_nodes_str g
     = Graph.join_arrow (map node_name (Graph.ordered_nodes g))
  /\ (NoDup (map node_name declared) ->
      forall n, In n (Graph.nodes g) -> Node.is_root n = false ->
                Forall2 (fun p s => exists n',
                             In n' (Graph.nodes g)
                             /\ State_eqb (Node.state n') s = true
                             /\ is_leaf (Node.state n') = true
                             /\ path_parts p = [node_name n'])
                        (Inputs.paths_to_states (Node.inputs n))
                        (Inputs.states (Node.inputs n))).
Proof.
  unfold Graph.init. intros H.
  destruct (Graph.all_states declared) as [lists|e] eqn:El; cbn [bind] in H; [|discriminate].
  destruct (Graph.reduce_concat lists) as [catalog|e] eqn:Ec; cbn [bind] in H;
    [|discriminate].
  destruct (Graph.resolve_inputs declared catalog) as [nodes|e] eqn:Er; cbn [bind] in H;
    [|discriminate].
  destruct (Graph.resolve nodes) as [ordered|e] eqn:Eo; cbn [bind] in H; [|discriminate].
  injection H as <-. cbn [Graph.nodes Graph.ordered_nodes Graph.ordered_nodes_str].
  apply all_states_ret in El. apply resolve_inputs_ret in Er.
  assert (Hne : lists <> []) by (intros ->; discriminate).
  rewrite (reduce_concat_ret lists Hne) in Ec. injection Ec as <-.
  assert (Hleaves : Forall (fun c => is_leaf c = true) (List.concat lists)).
  { apply Forall_concat. clear -El. induction El as [|n l ns ls Hl _ IH]; constructor; auto.
    apply (get_all_states_leaves _ _ Hl). }
  split; [intros ->; inversion El; congruence|].
  assert (Hin : forall n', In n' nodes ->
              Inputs._resolved (Node.inputs n') = true
              /\ Forall2 (fun p s => In s (List.concat lists) /\ is_leaf s = true
                                      /\ path_parts p = [name s])
                         (Inputs.paths_to_states (Node.inputs n'))
                         (Inputs.states (Node.inputs n'))
              /\ forall symbolic,
                  exists out inputs',
                    Inputs.collect symbolic (Node.inputs n') = (Ret out, inputs')
                    /\ (symbolic = false -> inputs' = Node.inputs n')).
  { intros n' Hn'.
    destruct (Forall2_In_r _ _ _ n' Er Hn') as [n [_ [_ [_ [_ Hr]]]]].
    apply resolve_ret in Hr as [Hp [Hfl [Hall Hlf]]].
    assert (Hl : Forall (fun s => is_leaf s = true) (Inputs.states (Node.inputs n'))).
    { apply Forall_forall. rewrite forallb_forall in Hlf. exact Hlf. }
    split; [exact Hfl|].
    split; [|intros symbolic; apply collect_resolved_leaves; assumption].
    rewrite Hp. clear Hp Hlf. revert Hall Hl.
    generalize (Inputs.states (Node.inputs n')).
    generalize (Inputs.paths_to_states (Node.inputs n)).
    induction 1 as [|p s ps sts Hps _ IH]; intros Hl; constructor.
    + destruct (first_found_leaves_some _ p s Hleaves Hps) as [Hin Hparts].
      split; [exact Hin|]. split; [exact (Forall_inv Hl)|exact Hparts].
    + apply IH. exact (Forall_inv_tail Hl). }
  split.
  - exists lists. split; [exact El|]. split; [exact Er|exact Hin].
  - split; [exact Eo|]. destruct (resolve_ret_covers nodes ordered Eo) as [H1 [H2 H3]].
    split; [exact H1|]. split; [exact H2|]. split; [exact H3|]. split; [reflexivity|].
    intros Hnd n Hn Hroot.
    assert (Hnd' : NoDup (map node_name nodes)).
    { unfold node_name. rewrite <- (map_map Node.state name).
      rewrite (resolved_from_states _ _ _ Er), map_map. exact Hnd. }
    destruct (Hin n Hn) as [_ [Hall _]].
    apply (Forall2_impl_in _ _ _ _ Hall). intros p s Hp Hs [_ [Hleaf Hparts]].
    destruct (resolve_ret_owned_acyclic nodes ordered Eo) as [Hown _].
    destruct (map_distinct_get nodes n Hnd' Hn) as [_ Hget].
    destruct (Hown (node_name n) (info_of n) s Hget Hroot Hs) as [k' [i' [Hi' He]]].
    apply key_node in Hi' as [n' [Hn' [_ <-]]]. cbn [info_of Info.state] in He.
    exists n'. split; [exact Hn'|]. split; [exact He|]. split.
    + rewrite (State_eqb_is_leaf _ _ He). exact Hleaf.
    + rewrite Hparts. unfold node_name. rewrite (State_eqb_name _ _ He). reflexivity.
Qed.

(** A root reading the leaf x of the state of another root; every leaf
    holds a value. *)
Lemma Graph_init_establishes_witness :
  exists g,
    Graph.init [Node.mk (Inputs.init ["x"]) Chain.sA true None;
                Node.mk (Inputs.init [])
                        (mkState 1 "plant" None (VList [VState Plant.x]) false None)
                        true None] = Ret g
    /\ Graph.resolve (Graph.nodes g) = Ret (Graph.ordered_nodes g)
    /\ NoDup (map node_name (Graph.ordered_nodes g))
    /\ map (fun n => Inputs.states (Node.inputs n)) (Graph.nodes g) = [[Plant.x]; []].
Proof.
  destruct (Graph.init [Node.mk (Inputs.init ["x"]) Chain.sA true None;
                        Node.mk (Inputs.init [])
                                (mkState 1 "plant" None (VList [VState Plant.x]) false None)
                                true None])
    as [g|e] eqn:E; [|vm_compute in E; discriminate].
  exists g. split; [reflexivity|].
  destruct (Graph_init_establishes _ g E) as [_ [_ [H1 [_ [H2 _]]]]].
  split; [exact H1|]. split; [exact H2|].
  vm_compute in E. injection E as <-. reflexivity.
Defined.

(** ** States made by the constructor *)

Lemma constructed_shape (s : State) : constructed s -> shape_ok s = true.
Proof.
  induction 1 as [i n d v s Hinit _ IH]. rewrite State_init_returns in Hinit.
  injection Hinit as <-.
  destruct (isinstance_list v && (0 <? py_len v) && all_State v) eqn:E;
    cbn [negb]; [|reflexivity].
  apply andb_true_iff in E as [E Hall]. apply andb_true_iff in E as [Hlist _].
  destruct v as [|z|l|st|l]; try discriminate.
  change (VList l) with (container false l). rewrite shape_ok_hier.
  apply forallb_forall. intros x Hx. cbn [all_State] in Hall.
  rewrite forallb_forall in Hall. specialize (Hall x Hx).
  destruct x as [|z|l'|c|t']; try discriminate. apply (IH l c eq_refl Hx).
Qed.

(** X18. On a state made by the constructor, from states made by the
    constructor if it is given a list of states, every query returns:
    [paths], [get_all_states()], [is_defined] and [value] in either
    mode, and a search returns for every path.  Assignment does not
    keep this.  Once a state flagged as hierarchical is assigned
    [None] or a number, the queries that walk it raise the [TypeError]
    of the loop, and once it is assigned a [State], the
    [AttributeError].  Once it is assigned a list or another container,
    they return exactly when every item is a state that can itself be
    walked: with an empty one (an empty tuple, an empty string) there
    are no paths and no leaves and [is_defined] is true, and with an
    item that is not a state they raise. *)
Theorem constructed_states_answer (s : State) :
  constructed s ->
  (exists ps ls b,
      paths s = Ret ps /\ get_all_states s = Ret ls /\ is_defined s = Ret b
      /\ List.length ps = List.length ls)
  /\ (forall symbolic, exists d, fst (value symbolic s) = Ret d)
  /\ (forall path, exists r, search_by_path s path = Ret r)
  /\ (is_leaf s = false ->
      (forall new_value,
          no_items new_value = true ->
          paths (set_value s new_value) = Raise (iter_error new_value)
          /\ get_all_states (set_value s new_value) = Raise (iter_error new_value)
          /\ is_defined (set_value s new_value) = Raise (iter_error new_value)
          /\ forall symbolic,
              fst (value symbolic (set_value s new_value)) = Raise (iter_error new_value))
      /\ (forall tuple items,
             let walked := Forall (fun x => exists c, x = VState c /\ shape_ok c = true)
                                  items in
             ((exists ps, paths (set_value s (container tuple items)) = Ret ps) <-> walked)
             /\ ((exists ls, get_all_states (set_value s (container tuple items)) = Ret ls)
                 <-> walked)
             /\ ((exists b, is_defined (set_value s (container tuple items)) = Ret b)
                 <-> walked)
             /\ (forall symbolic,
                    (exists d, fst (value symbolic (set_value s (container tuple items)))
                               = Ret d) <-> walked)
             /\ (items = [] ->
                 paths (set_value s (container tuple items)) = Ret []
                 /\ get_all_states (set_value s (container tuple items)) = Ret []
                 /\ is_defined (set_value s (container tuple items)) = Ret true))).
Proof.
  intros Hc. pose proof (constructed_shape s Hc) as Hshape.
  destruct (shape_traversals s Hshape) as [Hp Hs]. split; [|split; [|split]].
  - destruct (Hp "") as [l [Hl Hlen]].
    exists l, (map snd (leaf_routes s)). eexists. unfold is_defined, paths, get_all_states.
    rewrite Hl, Hs. cbn [bind app]. repeat split. rewrite Hlen, length_map. reflexivity.
  - intros symbolic. apply value_returns, Hshape.
  - clear Hc Hp Hs.  induction s as [s IH] using State_substates_ind. intros path.
    destruct (is_leaf s) eqn:Hleaf.
    + rewrite (search_by_path_leaf s path Hleaf).
      destruct (path_parts path) as [|p0 rest]; [eauto|].
      destruct (_ && _); eauto.
    + destruct (shape_ok_inv s Hshape Hleaf) as [tuple [Hv Hsh]].
      remember (substates s) as cs eqn:Ecs in *. clear Ecs.
      destruct s as [i n d v lf y]. cbn [is_leaf _value name] in *. subst v lf.
      rewrite search_by_path_hier.
      destruct (path_parts path) as [|p0 rest]; [eauto|].
      destruct (String.eqb p0 n); [|eauto]. destruct (_ =? _); [eauto|].
      clear Hshape. induction cs as [|c cs IHcs]; [cbn; eauto|]. cbn [first_some].
      destruct (IH c (or_introl eq_refl) (Hsh c (or_introl eq_refl)) (join_slash rest))
        as [[r|] ->]; cbn [bind]; [eauto|].
      apply IHcs; intros c' Hc'; [apply IH|apply Hsh]; right; exact Hc'.
  - intros Hleaf. destruct s as [i n d v lf y]. cbn [is_leaf] in Hleaf. subst lf.
    clear Hc Hshape Hp Hs. split.
    + intros new_value Hno. unfold is_defined, paths, get_all_states.
      cbn [set_value _collect_paths _collect_states value].
      destruct new_value as [|z|l|st|l]; try discriminate; cbn [bind fst]; auto.
    + intros tuple items walked. cbn [set_value].
      assert (Hw : shape_ok (mkState i n d (container tuple items) false y) = true
                   <-> walked).
      { rewrite shape_ok_hier, forallb_forall. unfold walked. rewrite Forall_forall.
        split; intros H x Hx; specialize (H x Hx).
        - destruct x as [|z|l'|c|t']; try discriminate. eauto.
        - destruct H as [c [-> Hc]]. exact Hc. }
      assert (Hpaths : (exists ps, paths (mkState i n d (container tuple items) false y)
                                   = Ret ps) <-> walked).
      { rewrite <- Hw. split.
        - intros [ps H]. apply (collect_paths_shape _ _ _ _ H).
        - intros H. destruct (shape_traversals _ H) as [Hp _].
          destruct (Hp "") as [l [Hl _]]. exists l. apply (Hl []). }
      assert (Hstates : (exists ls, get_all_states
                                      (mkState i n d (container tuple items) false y)
                                    = Ret ls) <-> walked).
      { rewrite <- Hw. split.
        - intros [ls H]. apply (collect_states_shape _ _ _ H).
        - intros H. destruct (shape_traversals _ H) as [_ Hs]. eexists. apply (Hs []). }
      split; [exact Hpaths|]. split; [exact Hstates|]. split; [|split].
      * rewrite <- Hstates. unfold is_defined. split.
        -- intros [b H]. destruct (get_all_states _) as [ls|e]; [eauto|discriminate].
        -- intros [ls ->]. cbn [bind]. eauto.
      * intros symbolic. rewrite <- Hw. apply value_returns.
      * intros ->. unfold is_defined, paths, get_all_states.
        destruct tuple; cbn; auto.
Qed.

Lemma constructed_states_answer_witness :
  (forall path, exists r, search_by_path Plant.plant path = Ret r)
  /\ paths (set_value Plant.plant VNone) = Raise TypeError_not_iterable
  /\ paths (set_value Plant.plant (VTuple [])) = Ret []
  /\ is_defined (set_value Plant.plant (VTuple [])) = Ret true
  /\ ((exists ps, paths (set_value Plant.plant (VTuple [VState Plant.x; VNum 1])) = Ret ps)
      <-> Forall (fun x => exists c, x = VState c /\ shape_ok c = true)
                 [VState Plant.x; VNum 1]).
Proof.
  assert (Hx : constructed Plant.x).
  { apply (constructed_by 2 "x" None (VNum 1)); [reflexivity|discriminate]. }
  assert (Hy : constructed Plant.y).
  { apply (constructed_by 4 "y" None VNone); [reflexivity|discriminate]. }
  assert (Hsub : constructed Plant.sub).
  { apply (constructed_by 3 "sub" None (VList [VState Plant.y])); [reflexivity|].
    intros l c [= <-] [[= <-]|[]]. exact Hy. }
  assert (Hplant : constructed Plant.plant).
  { apply (constructed_by 1 "plant" None (VList [VState Plant.x; VState Plant.sub]));
      [reflexivity|].
    intros l c [= <-] [[= <-]|[[= <-]|[]]]; assumption. }
  destruct (constructed_states_answer Plant.plant Hplant) as [_ [_ [Hsearch Hset]]].
  split; [exact Hsearch|]. destruct (Hset eq_refl) as [Hno Hcont].
  split; [apply (Hno VNone eq_refl)|].
  destruct (Hcont true []) as [_ [_ [_ [_ Hempty]]]].
  destruct (Hempty eq_refl) as [H1 [_ H3]].
  split; [exact H1|]. split; [exact H3|].
  apply (Hcont true [VState Plant.x; VNum 1]).
Defined.

(** ** Assignment to a leaf inside a state *)

Lemma assign_hier (target : nat) (new_value : pyval) (i : nat) (n : string)
      (d : option (list Z)) (tuple : bool) (cs : list State) (y : option Sym) :
  i <> target ->
  assign target new_value (mkState i n d (container tuple (map VState cs)) false y)
  = mkState i n d (container tuple (map VState (map (assign target new_value) cs)))
            false y.
Proof.
  intros Hi. cbn [assign]. apply Nat.eqb_neq in Hi. rewrite Hi. f_equal.
  destruct tuple; cbn [container assign_val]; f_equal;
    (induction cs as [|c cs IH]; [reflexivity|];
     cbn [map assign_val]; rewrite IH; reflexivity).
Qed.

Lemma hier_oids_hier (i : nat) (n : string) (d : option (list Z)) (tuple : bool)
      (cs : list State) (y : option Sym) :
  hier_oids (mkState i n d (container tuple (map VState cs)) false y)
  = i :: flat_map hier_oids cs.
Proof.
  destruct tuple; cbn [container hier_oids]; f_equal;
    (induction cs as [|c cs IH]; [reflexivity|];
     cbn [map flat_map]; rewrite IH; reflexivity).
Qed.

Lemma assign_leaf (target : nat) (new_value : pyval) (s : State) :
  is_leaf (assign target new_value s) = is_leaf s
  /\ name (assign target new_value s) = name s
  /\ (oid s = target -> assign target new_value s = set_value s new_value)
  /\ (_value s <> VNone -> new_value <> VNone ->
      _value (assign target new_value s) <> VNone).
Proof.
  destruct s as [i n d v lf y]. cbn [assign oid]. destruct (Nat.eqb i target) eqn:E.
  - repeat split; auto.
  - apply Nat.eqb_neq in E. repeat split; [congruence|].
    cbn [_value]. intros Hv _. destruct v; cbn [assign_val]; congruence.
Qed.

Lemma fold_res_map {A : Type} (f f' : State -> A -> res A) (g : State -> State)
      (cs : list State) :
  (forall c, In c cs -> forall a, f (g c) a = f' c a) ->
  forall a, fold_res f (map g cs) a = fold_res f' cs a.
Proof.
  induction cs as [|c cs IH]; intros H a; [reflexivity|]. cbn [map fold_res].
  rewrite (H c (or_introl eq_refl)). destruct (f' c a); cbn [bind]; [|reflexivity].
  apply IH. intros c' Hc'. apply H. right. exact Hc'.
Qed.

(** Assignment to an object that is no hierarchical state of [s] keeps
    the shape and the paths, and reaches the leaves. *)
Lemma assign_traversals (target : nat) (new_value : pyval) (s : State) :
  shape_ok s = true -> ~ In target (hier_oids s) ->
  shape_ok (assign target new_value s) = true
  /\ (forall prefix acc,
         _collect_paths (assign target new_value s) prefix acc = _collect_paths s prefix acc)
  /\ leaf_routes (assign target new_value s)
     = map (fun rt => (fst rt, assign target new_value (snd rt))) (leaf_routes s).
Proof.
  induction s as [s IH] using State_substates_ind. intros Hshape Hno.
  destruct (is_leaf s) eqn:Hleaf.
  - destruct (assign_leaf target new_value s) as [Hl [Hn _]].
    rewrite Hleaf in Hl. split; [|split].
    + destruct (assign target new_value s) as [i n d v lf y]. cbn [is_leaf] in Hl.
      subst lf. reflexivity.
    + intros prefix acc. rewrite !collect_paths_leaf, Hn by assumption. reflexivity.
    + rewrite !leaf_routes_leaf, Hn by assumption. reflexivity.
  - destruct (shape_ok_inv s Hshape Hleaf) as [tuple [Hv Hsh]].
    remember (substates s) as cs eqn:Ecs in *. clear Ecs.
    destruct s as [i n d v lf y]. cbn [is_leaf _value name] in *. subst v lf.
    rewrite hier_oids_hier in Hno.
    assert (Hi : i <> target) by (intros ->; apply Hno; left; reflexivity).
    assert (IHc : forall c, In c cs ->
                shape_ok (assign target new_value c) = true
                /\ (forall prefix acc,
                       _collect_paths (assign target new_value c) prefix acc
                       = _collect_paths c prefix acc)
                /\ leaf_routes (assign target new_value c)
                   = map (fun rt => (fst rt, assign target new_value (snd rt)))
                         (leaf_routes c)).
    { intros c Hc. apply IH; auto. intros Hin. apply Hno. right.
      apply in_flat_map. exists c. auto. }
    clear IH Hsh Hno Hshape. rewrite (assign_hier _ _ _ _ _ _ _ _ Hi). split; [|split].
    + rewrite shape_ok_hier. apply forallb_forall. intros x Hx.
      apply in_map_iff in Hx as [c' [<- Hc']]. apply in_map_iff in Hc' as [c [<- Hc]].
      apply (IHc c Hc).
    + intros prefix acc. rewrite !collect_paths_hier. apply fold_res_map.
      intros c Hc a. apply (IHc c Hc).
    + rewrite !leaf_routes_hier. rewrite flat_map_concat_map, map_map.
      rewrite flat_map_concat_map, concat_map, map_map. f_equal.
      apply map_ext_in. intros c Hc. destruct (IHc c Hc) as [_ [_ ->]].
      rewrite !map_map. reflexivity.
Qed.

(** X19. A state holds its substates by reference.  Assigning to an
    object that is no hierarchical state of the tree (a leaf of the
    tree, say) keeps [paths] as it was, and [get_all_states()] lists
    the same leaves after the assignment.  Assigning [None] to a leaf
    that can be reached makes [is_defined] false; assigning anything
    else keeps [is_defined] true when it was. *)
Theorem assign_below (target : nat) (new_value : pyval) (t : State) :
  shape_ok t = true -> ~ In target (hier_oids t) ->
  paths (assign target new_value t) = paths t
  /\ (forall ls, get_all_states t = Ret ls ->
                 get_all_states (assign target new_value t)
                 = Ret (map (assign target new_value) ls))
  /\ (forall parts leaf, at_route t parts leaf -> is_leaf leaf = true ->
                         oid leaf = target -> new_value = VNone ->
                         is_defined (assign target new_value t) = Ret false)
  /\ (new_value <> VNone -> is_defined t = Ret true ->
      is_defined (assign target new_value t) = Ret true).
Proof.
  intros Hshape Hno.
  destruct (assign_traversals target new_value t Hshape Hno) as [Hshape' [Hpaths Hroutes]].
  destruct (shape_traversals t Hshape) as [_ Hs].
  destruct (shape_traversals _ Hshape') as [_ Hs'].
  assert (Hall : get_all_states (assign target new_value t)
                 = Ret (map (assign target new_value) (map snd (leaf_routes t)))).
  { unfold get_all_states. rewrite Hs', Hroutes, !map_map. reflexivity. }
  split; [apply Hpaths|]. split; [|split].
  - intros ls Hls. unfold get_all_states in Hls. rewrite Hs in Hls. injection Hls as <-.
    exact Hall.
  - intros parts leaf Hr Hleaf Hoid ->. unfold is_defined. rewrite Hall. cbn [bind].
    f_equal. apply not_true_is_false. intros H. rewrite forallb_forall in H.
    specialize (H (assign target VNone leaf)).
    destruct (assign_leaf target VNone leaf) as [_ [_ [Hset _]]]. rewrite (Hset Hoid) in H.
    assert (Hin : In (set_value leaf VNone)
                     (map (assign target VNone) (map snd (leaf_routes t)))).
    { rewrite <- (Hset Hoid). apply in_map. apply in_map_iff. exists (parts, leaf).
      split; [reflexivity|]. apply (leaf_routes_at_route t Hshape). auto. }
    apply H in Hin. destruct leaf. discriminate.
  - intros Hv Hdef. unfold is_defined in *. rewrite Hall. unfold get_all_states in Hdef.
    rewrite Hs in Hdef. cbn [bind app] in *. injection Hdef as Hdef. f_equal.
    rewrite forallb_forall in *. intros l' Hl'. apply in_map_iff in Hl' as [l [<- Hl]].
    specialize (Hdef l Hl). destruct (assign_leaf target new_value l) as [_ [_ [_ Hkeep]]].
    destruct (_value (assign target new_value l)) eqn:E; try reflexivity.
    exfalso. apply Hkeep; auto. intros Hn. rewrite Hn in Hdef. discriminate.
Qed.

Lemma assign_below_witness :
  paths (assign 4 (VNum 7) Plant.plant) = paths Plant.plant
  /\ is_defined Plant.plant = Ret false
  /\ is_defined (assign 4 (VNum 7) Plant.plant) = Ret true
  /\ is_defined (assign 2 VNone (assign 4 (VNum 7) Plant.plant)) = Ret false.
Proof.
  assert (H4 : ~ In 4 (hier_oids Plant.plant)) by (cbn; intuition discriminate).
  destruct (assign_below 4 (VNum 7) Plant.plant eq_refl H4) as [Hp _].
  split; [exact Hp|]. split; [reflexivity|]. split; [reflexivity|].
  assert (H2 : ~ In 2 (hier_oids (assign 4 (VNum 7) Plant.plant)))
    by (cbn; intuition discriminate).
  destruct (assign_below 2 VNone (assign 4 (VNum 7) Plant.plant) eq_refl H2)
    as [_ [_ [Hnone _]]].
  apply (Hnone ["plant"; "x"] Plant.x); try reflexivity.
  exact (route_below (assign 4 (VNum 7) Plant.plant) Plant.x Plant.x ["x"] eq_refl
           (or_introl eq_refl) (route_here Plant.x)).
Defined.

(** ** Resolving the paths of a state against the state *)

Lemma paths_found (t : State) :
  shape_ok t = true -> names_ok t = true ->
  paths t = Ret (map (fun rt => join_slash (fst rt)) (leaf_routes t))
  /\ get_all_states t = Ret (map snd (leaf_routes t))
  /\ Forall2 (fun p s => Inputs.first_found [t] p = Ret (Some s) /\ is_leaf s = true)
             (map (fun rt => join_slash (fst rt)) (leaf_routes t))
             (map snd (leaf_routes t)).
Proof.
  intros Hshape Hnames. destruct (routes_spec t Hshape Hnames) as [Hp [Hs Hsearch]].
  split; [|split].
  - unfold paths. rewrite Hp. reflexivity.
  - unfold get_all_states. rewrite Hs. reflexivity.
  - pose proof (leaf_routes_leaves t) as Hleaves. revert Hsearch Hleaves.
    generalize (leaf_routes t). induction l as [|rt l IH]; intros Hsearch Hleaves;
      cbn [map]; constructor.
    + destruct (Hsearch rt (or_introl eq_refl)) as [_ [_ Hfind]].
      cbn [Inputs.first_found]. rewrite Hfind. cbn [bind].
      split; [reflexivity|apply Hleaves; left; reflexivity].
    + apply IH; intros rt' Hrt'; [apply Hsearch|apply Hleaves]; right; exact Hrt'.
Qed.

Lemma Forall2_pick {A B : Type} (P : A -> B -> Prop) (l : list A) (l' : list B)
      (wanted : list A) :
  Forall2 P l l' -> incl wanted l -> exists got, Forall2 P wanted got /\ incl got l'.
Proof.
  intros Hall. induction wanted as [|a wanted IH]; intros Hincl.
  - exists []. split; [constructor|intros x []].
  - destruct IH as [got [Hgot Hin]]; [intros x Hx; apply Hincl; right; exact Hx|].
    destruct (Forall2_In_l _ _ _ a Hall (Hincl a (or_introl eq_refl))) as [b [Hb Hab]].
    exists (b :: got). split; [constructor; assumption|].
    intros x [<-|Hx]; auto.
Qed.

(** X20. In a state tree in which no name is empty or contains a slash
    and the substates of each state have pairwise distinct names, the
    paths of the tree resolve against the tree: a resolver declared
    with [paths] resolves to [get_all_states()], leaf for path, and a
    resolver declared with any selection of these paths, in any order
    and with repetitions, resolves to leaves of the tree, each the one
    [search_by_path] finds for its path. *)
Theorem tree_paths_resolve (t : State) (ps : list string) (leaves : list State) :
  names_ok t = true ->
  paths t = Ret ps -> get_all_states t = Ret leaves ->
  Inputs.resolve (Inputs.init ps) [t] = Ret (Inputs.mk ps leaves true)
  /\ forall wanted,
      incl wanted ps ->
      exists got,
        Inputs.resolve (Inputs.init wanted) [t] = Ret (Inputs.mk wanted got true)
        /\ incl got leaves
        /\ Forall2 (fun p s => search_by_path t p = Ret (Some s) /\ is_leaf s = true)
                   wanted got.
Proof.
  intros Hnames Hps Hls. pose proof (collect_paths_shape t _ _ _ Hps) as Hshape.
  destruct (paths_found t Hshape Hnames) as [Hp [Hs Hall]].
  rewrite Hp in Hps. injection Hps as <-. rewrite Hs in Hls. injection Hls as <-.
  split.
  - apply resolve_ret. cbn [Inputs.paths_to_states Inputs.states Inputs._resolved Inputs.init].
    apply Forall2_and_right in Hall as [H1 H2].
    repeat split; auto. apply forallb_forall. rewrite Forall_forall in H2. exact H2.
  - intros wanted Hincl. destruct (Forall2_pick _ _ _ wanted Hall Hincl) as [got [Hgot Hin]].
    exists got. split; [|split; [exact Hin|]].
    + apply resolve_ret.
      cbn [Inputs.paths_to_states Inputs.states Inputs._resolved Inputs.init].
      apply Forall2_and_right in Hgot as [H1 H2].
      repeat split; auto. apply forallb_forall. rewrite Forall_forall in H2. exact H2.
    + clear -Hgot. induction Hgot as [|p s wanted got [Hf Hl] _ IH]; constructor; auto.
      split; [|exact Hl]. cbn [Inputs.first_found] in Hf.
      destruct (search_by_path t p) as [[f|]|e]; cbn [bind] in Hf; congruence.
Qed.

Lemma tree_paths_resolve_witness :
  Inputs.resolve (Inputs.init ["plant/x"; "plant/sub/y"]) [Plant.plant]
  = Ret (Inputs.mk ["plant/x"; "plant/sub/y"] [Plant.x; Plant.y] true)
  /\ exists got,
      Inputs.resolve (Inputs.init ["plant/sub/y"; "plant/sub/y"]) [Plant.plant]
      = Ret (Inputs.mk ["plant/sub/y"; "plant/sub/y"] got true)
      /\ incl got [Plant.x; Plant.y]
      /\ Forall2 (fun p s => search_by_path Plant.plant p = Ret (Some s)
                             /\ is_leaf s = true)
                 ["plant/sub/y"; "plant/sub/y"] got.
Proof.
  destruct (tree_paths_resolve Plant.plant ["plant/x"; "plant/sub/y"] [Plant.x; Plant.y]
              eq_refl eq_refl eq_refl) as [H1 H2].
  split; [exact H1|]. apply H2.
  intros p [<-|[<-|[]]]; right; left; reflexivity.
Defined.
